(** * Easegress: the filter pipeline engine and its HTTP statistics

    A shallow embedding of [pkg/util/httpstat/httpstat.go] and
    [pkg/object/pipeline/pipeline.go], followed by the properties of the
    specification that concern them.

    Go values are modelled as follows.
    - [uint64] fields are integers of [Z] kept in [0, 2^64); every
      [atomic.AddUint64] is written with its wrap-around.
    - [int] and [time.Duration] (an [int64] count of nanoseconds) are [Z].
    - [float64] is Rocq's primitive binary64 [float].
    - [map[string]T] is [gmap string T]; a missing key reads as the zero
      value of [T], as in Go.
    - A recovered [panic] is an error value; an unrecovered one is [None].
    - A [range] over a map visits the entries in an order Go does not
      specify: where the order shows in what the loop does, it is an
      argument of the loop, any arrangement of the entries. *)

From Stdlib Require Import ZArith Lia.
From Stdlib Require Import Floats.PrimFloat.
From stdpp Require Import gmap strings list fin_maps pretty.

Open Scope Z_scope.

(** ** Machine integers *)

Definition MaxUint64 : Z := 2 ^ 64 - 1.

(** Conversion to [uint64], and [atomic.AddUint64]. *)
Definition uint64 (x : Z) : Z := x mod 2 ^ 64.
Definition AddUint64 (x delta : Z) : Z := uint64 (x + delta).

(** [time.Duration.Milliseconds]: integer division of the nanosecond count,
    truncated toward zero. *)
Definition Milliseconds (d : Z) : Z := Z.quot d 1000000.

(** * Package httpstat *)

Module httpstat.

(** The collaborators of [HTTPStat] that live outside the file: the EWMA of
    go-metrics, the duration sampler and the status code counter.  Their
    state is threaded explicitly. *)
Class Collaborators := {
  EWMA : Type;
  NewEWMA1 : EWMA;
  NewEWMA5 : EWMA;
  NewEWMA15 : EWMA;
  ewmaUpdate : Z -> EWMA -> EWMA;
  ewmaTick : EWMA -> EWMA;
  ewmaRate : EWMA -> float;

  DurationSampler : Type;
  NewDurationSampler : DurationSampler;
  samplerUpdate : Z -> DurationSampler -> DurationSampler;
  samplerReset : DurationSampler -> DurationSampler;
  (** [Percentiles] read at the seven positions [Status] indexes. *)
  samplerPercentiles : DurationSampler -> float * float * float * float * float * float * float;

  HTTPStatusCodeCounter : Type;
  NewCodeCounter : HTTPStatusCodeCounter;
  ccCount : Z -> HTTPStatusCodeCounter -> HTTPStatusCodeCounter;
  ccCodes : HTTPStatusCodeCounter -> gmap Z Z;
  ccReset : HTTPStatusCodeCounter -> HTTPStatusCodeCounter
}.

(** Metric is the package of statistics at once. *)
Record Metric := {
  StatusCode : Z;
  Duration : Z;
  ReqSize : Z;
  RespSize : Z
}.

(** Status contains all status generated by HTTPStat. *)
Record Status := {
  Count : Z;
  M1 : float;
  M5 : float;
  M15 : float;

  ErrCount : Z;
  M1Err : float;
  M5Err : float;
  M15Err : float;

  M1ErrPercent : float;
  M5ErrPercent : float;
  M15ErrPercent : float;

  Min : Z;
  Max : Z;
  Mean : Z;

  P25 : float;
  P50 : float;
  P75 : float;
  P95 : float;
  P98 : float;
  P99 : float;
  P999 : float;

  StatusReqSize : Z;
  StatusRespSize : Z;

  Codes : gmap Z Z
}.

Definition isErr (m : Metric) : bool := 400 <=? StatusCode m.

Section WithCollaborators.
Context `{Collaborators}.

(** HTTPStat is the statistics tool for HTTP traffic. *)
Record HTTPStat := {
  count : Z;
  rate1 : EWMA;
  rate5 : EWMA;
  rate15 : EWMA;

  errCount : Z;
  errRate1 : EWMA;
  errRate5 : EWMA;
  errRate15 : EWMA;

  m1ErrPercent : float;
  m5ErrPercent : float;
  m15ErrPercent : float;

  total : Z;
  min : Z;
  max : Z;

  durationSampler : DurationSampler;

  reqSize : Z;
  respSize : Z;

  cc : HTTPStatusCodeCounter
}.

(** New creates an HTTPStat: every field not listed in the composite
    literal has its zero value. *)
Definition New : HTTPStat := {|
  count := 0;
  rate1 := NewEWMA1;
  rate5 := NewEWMA5;
  rate15 := NewEWMA15;

  errCount := 0;
  errRate1 := NewEWMA1;
  errRate5 := NewEWMA5;
  errRate15 := NewEWMA15;

  m1ErrPercent := 0%float;
  m5ErrPercent := 0%float;
  m15ErrPercent := 0%float;

  total := 0;
  min := MaxUint64;
  max := 0;

  durationSampler := NewDurationSampler;

  reqSize := 0;
  respSize := 0;

  cc := NewCodeCounter
|}.

(** Stat, run to completion with no concurrent writer: each
    compare-and-swap loop then succeeds at its first attempt, so the loop
    on [min] stores [duration] unless [duration >= min], and the loop on
    [max] stores it unless [duration <= max]. *)
Definition Stat (m : Metric) (hs : HTTPStat) : HTTPStat :=
  let err := isErr m in
  let duration := uint64 (Milliseconds (Duration m)) in
  {|
    count := AddUint64 (count hs) 1;
    rate1 := ewmaUpdate 1 (rate1 hs);
    rate5 := ewmaUpdate 1 (rate5 hs);
    rate15 := ewmaUpdate 1 (rate15 hs);

    errCount := if err then AddUint64 (errCount hs) 1 else errCount hs;
    errRate1 := if err then ewmaUpdate 1 (errRate1 hs) else errRate1 hs;
    errRate5 := if err then ewmaUpdate 1 (errRate5 hs) else errRate5 hs;
    errRate15 := if err then ewmaUpdate 1 (errRate15 hs) else errRate15 hs;

    m1ErrPercent := m1ErrPercent hs;
    m5ErrPercent := m5ErrPercent hs;
    m15ErrPercent := m15ErrPercent hs;

    total := AddUint64 (total hs) duration;
    min := if min hs <=? duration then min hs else duration;
    max := if duration <=? max hs then max hs else duration;

    durationSampler := samplerUpdate (Duration m) (durationSampler hs);

    reqSize := AddUint64 (reqSize hs) (ReqSize m);
    respSize := AddUint64 (respSize hs) (RespSize m);

    cc := ccCount (StatusCode m) (cc hs)
  |}.

(** The three local percentages of [Status].  All three [if] statements of
    the source assign the same variable, [m1ErrPercent]; the other two
    locals keep their initial [0.0]. *)
Definition errPercents (m1 m5 m15 m1Err m5Err m15Err : float) : float * float * float :=
  let m1ErrPercent := 0%float in
  let m5ErrPercent := 0%float in
  let m15ErrPercent := 0%float in
  let m1ErrPercent := if PrimFloat.ltb 0 m1 then PrimFloat.div m1Err m1 else m1ErrPercent in
  let m1ErrPercent := if PrimFloat.ltb 0 m5 then PrimFloat.div m5Err m5 else m1ErrPercent in
  let m1ErrPercent := if PrimFloat.ltb 0 m15 then PrimFloat.div m15Err m15 else m1ErrPercent in
  (m1ErrPercent, m5ErrPercent, m15ErrPercent).

(** Status returns the snapshot and the HTTPStat it leaves behind: the six
    EWMAs ticked, the sampler and the code counter reset. *)
Definition GetStatus (hs : HTTPStat) : Status * HTTPStat :=
  let r1 := ewmaTick (rate1 hs) in
  let r5 := ewmaTick (rate5 hs) in
  let r15 := ewmaTick (rate15 hs) in
  let e1 := ewmaTick (errRate1 hs) in
  let e5 := ewmaTick (errRate5 hs) in
  let e15 := ewmaTick (errRate15 hs) in
  let '(m1, m5, m15) := (ewmaRate r1, ewmaRate r5, ewmaRate r15) in
  let '(m1Err, m5Err, m15Err) := (ewmaRate e1, ewmaRate e5, ewmaRate e15) in
  let '(p1, p5, p15) := errPercents m1 m5 m15 m1Err m5Err m15Err in
  let '(p25, p50, p75, p95, p98, p99, p999) := samplerPercentiles (durationSampler hs) in
  let codes := ccCodes (cc hs) in
  let mean := if 0 <? count hs then total hs / count hs else 0 in
  let min_ := if 0 <? count hs then min hs else 0 in
  ({|
     Count := count hs;
     M1 := m1;
     M5 := m5;
     M15 := m15;

     ErrCount := errCount hs;
     M1Err := m1Err;
     M5Err := m5Err;
     M15Err := m15Err;

     M1ErrPercent := p1;
     M5ErrPercent := p5;
     M15ErrPercent := p15;

     Min := min_;
     Mean := mean;
     Max := max hs;

     P25 := p25;
     P50 := p50;
     P75 := p75;
     P95 := p95;
     P98 := p98;
     P99 := p99;
     P999 := p999;

     StatusReqSize := reqSize hs;
     StatusRespSize := respSize hs;

     Codes := codes
   |},
   {|
     count := count hs;
     rate1 := r1;
     rate5 := r5;
     rate15 := r15;
     errCount := errCount hs;
     errRate1 := e1;
     errRate5 := e5;
     errRate15 := e15;
     m1ErrPercent := m1ErrPercent hs;
     m5ErrPercent := m5ErrPercent hs;
     m15ErrPercent := m15ErrPercent hs;
     total := total hs;
     min := min hs;
     max := max hs;
     durationSampler := samplerReset (durationSampler hs);
     reqSize := reqSize hs;
     respSize := respSize hs;
     cc := ccReset (cc hs)
   |}).

(** A run of sequential [Stat] calls, first metric first. *)
Definition StatAll (ms : list Metric) (hs : HTTPStat) : HTTPStat :=
  fold_left (fun hs m => Stat m hs) ms hs.

(** The duration [Stat] records for a metric, and the number of metrics
    counted as errors. *)
Definition durationOf (m : Metric) : Z := uint64 (Milliseconds (Duration m)).

Definition sumDurations (ms : list Metric) : Z :=
  fold_right (fun m acc => durationOf m + acc) 0 ms.

Definition errorsOf (ms : list Metric) : Z :=
  Z.of_nat (length (filter (fun m => isErr m = true) ms)).

(** The sum of a field over the metrics. *)
Definition sumOf (field : Metric -> Z) (ms : list Metric) : Z :=
  fold_right (fun m acc => field m + acc) 0 ms.

(** A use of an HTTPStat: sequential calls of [Stat] and of [Status], in
    any order.  [run] keeps the HTTPStat and drops the snapshots. *)
Inductive Op :=
| OpStat (m : Metric)
| OpStatus.

Definition run (ops : list Op) (hs : HTTPStat) : HTTPStat :=
  fold_left (fun hs op =>
               match op with
               | OpStat m => Stat m hs
               | OpStatus => (GetStatus hs).2
               end) ops hs.

Definition metricsOf (ops : list Op) : list Metric :=
  omap (fun op => match op with
                  | OpStat m => Some m
                  | OpStatus => None
                  end) ops.

(** The counters of two HTTPStats agree. *)
Definition sameCounters (hs hs' : HTTPStat) : Prop :=
  count hs = count hs' /\ errCount hs = errCount hs' /\ total hs = total hs' /\
  min hs = min hs' /\ max hs = max hs' /\
  reqSize hs = reqSize hs' /\ respSize hs = respSize hs'.

End WithCollaborators.

End httpstat.

(** * Package pipeline *)

Module pipeline.

(** builtInFilterEnd is the name of the build-in end filter;
    defaultRequest and defaultResponse name the default request and
    response. *)
Definition builtInFilterEnd : string := "END".
Definition defaultRequest : string := "Default".
Definition defaultResponse : string := "Default".

Definition isBuiltInFilter (name : string) : bool :=
  bool_decide (name = builtInFilterEnd).

(** Reading a Go map of strings or of booleans: the zero value when the
    key is missing. *)
Definition getString (m : gmap string string) (k : string) : string :=
  default "" (m !! k).
Definition getBool (m : gmap string bool) (k : string) : bool :=
  default false (m !! k).

(** [stringtool.StrInSlice]. *)
Definition StrInSlice (s : string) (l : list string) : bool :=
  bool_decide (s ∈ l).

(** A filter instance is a pointer: its address tells instances apart, and
    [Kind] is what its [Kind()] method returns. *)
Record FilterRef := {
  addr : nat;
  Kind : string
}.

(** FlowNode describes one node of the pipeline flow.  [filter_] is the
    unexported field [filter], [None] while it is nil. *)
Record FlowNode := {
  Filter : string;
  RequestID : string;
  ResponseID : string;
  UseRequest : string;
  JumpIf : gmap string string;
  filter_ : option FilterRef
}.

(** FilterStat records the statistics of a filter. *)
Record FilterStat := {
  statName : string;
  statKind : string;
  statResult : string;
  statDuration : Z
}.

(** What [Validate] and [reload] use of a [*FilterSpec]: [Name()], [Kind()]
    and the field [pipeline]. *)
Record FilterSpec := {
  specName : string;
  specKind : string;
  specPipeline : string
}.

(** A root instance of the filter registry: its kind and [Results()]. *)
Record RootInst := {
  rootKind : string;
  Results : list string
}.

(** The errors [Validate] returns, one constructor per [panic] that its
    deferred function recovers.  [ErrFilters] and [ErrFlow] stand for the
    prefix the message carries. *)
Inductive Reason :=
| SpecInvalid (msg : string)
| BuiltInName (name : string)
| FilterNotFound (name : string)
| ResultNotIn (name result : string) (results : list string)
| TargetNotFound (name target : string)
| RequestNotFound (name request : string)
| NilDereference.

Inductive error :=
| ErrFilters (r : Reason)
| ErrFlow (r : Reason).

(** The declarations of the package that live in other files: the
    constructor of filter specs and the filter registry. *)
Class Registry := {
  RawSpec : Type;
  Supervisor : Type;
  NewFilterSpec : RawSpec -> option Supervisor -> FilterSpec + string;
  QueryFilterRegistry : string -> option RootInst
}.

Section Validation.
Context `{Registry}.

(** Spec describes the Pipeline. *)
Record Spec := {
  Flow : list FlowNode;
  Filters : list RawSpec
}.

(** 1: validate filter spec.  The loop over [s.Filters], from the table
    built so far. *)
Fixpoint validateFilterSpecs (fs : list RawSpec) (specs : gmap string FilterSpec)
  : Reason + gmap string FilterSpec :=
  match fs with
  | [] => inr specs
  | f :: fs' =>
      match NewFilterSpec f None with
      | inr msg => inl (SpecInvalid msg)
      | inl spec =>
          let name := specName spec in
          if isBuiltInFilter name then inl (BuiltInName name)
          else validateFilterSpecs fs' (<[name := spec]> specs)
      end
  end.

(** The loop over [node.JumpIf].  Go visits the entries of a map in an
    unspecified order; here they come in the order of [map_to_list]. *)
Fixpoint validateJumpIf (name : string) (results : list string)
    (validNames : gmap string bool) (entries : list (string * string)) : option Reason :=
  match entries with
  | [] => None
  | (result, target) :: entries' =>
      if negb (StrInSlice result results) then Some (ResultNotIn name result results)
      else if negb (getBool validNames target) then Some (TargetNotFound name target)
      else validateJumpIf name results validNames entries'
  end.

(** 2.1: validate jumpIfs.  [nodes] are the flow nodes in the order the
    loop visits them, the last node of the flow first. *)
Fixpoint validateJumpIfs (specs : gmap string FilterSpec) (nodes : list FlowNode)
    (validNames : gmap string bool) : option Reason :=
  match nodes with
  | [] => None
  | node :: nodes' =>
      if bool_decide (Filter node = builtInFilterEnd)
      then validateJumpIfs specs nodes' validNames
      else
        match specs !! Filter node with
        | None => Some (FilterNotFound (Filter node))
        | Some spec =>
            match QueryFilterRegistry (specKind spec) with
            | None => Some NilDereference
            | Some root =>
                match validateJumpIf (Filter node) (Results root) validNames
                        (map_to_list (JumpIf node)) with
                | Some r => Some r
                | None => validateJumpIfs specs nodes' (<[Filter node := true]> validNames)
                end
            end
        end
  end.

(** 2.2: validate request IDs, first node first. *)
Fixpoint validateRequestIDs (nodes : list FlowNode) (validNames : gmap string bool)
  : option Reason :=
  match nodes with
  | [] => None
  | node :: nodes' =>
      if bool_decide (UseRequest node ≠ "") && negb (getBool validNames (UseRequest node))
      then Some (RequestNotFound (Filter node) (UseRequest node))
      else
        validateRequestIDs nodes'
          (if bool_decide (RequestID node ≠ "")
           then <[RequestID node := true]> validNames
           else validNames)
  end.

(** Validate validates Spec: [None] is the nil error. *)
Definition Validate (s : Spec) : option error :=
  match validateFilterSpecs (Filters s) ∅ with
  | inl r => Some (ErrFilters r)
  | inr specs =>
      match validateJumpIfs specs (rev (Flow s)) {[builtInFilterEnd := true]} with
      | Some r => Some (ErrFlow r)
      | None =>
          match validateRequestIDs (Flow s) {[defaultRequest := true]} with
          | Some r => Some (ErrFlow r)
          | None => None
          end
      end
  end.

(** The result set [Validate] holds a jumpIf key of [node] against: that of
    the kind of the filter spec registered under the node's filter name. *)
Definition declaredResults (s : Spec) (node : FlowNode) : option (list string) :=
  match validateFilterSpecs (Filters s) ∅ with
  | inl _ => None
  | inr specs =>
      match specs !! Filter node with
      | None => None
      | Some spec => Results <$> QueryFilterRegistry (specKind spec)
      end
  end.

(** The filter specs of the entries that [NewFilterSpec] accepts, in the
    order of the entries, and the last of them that bears a given name. *)
Definition builtSpecs (fs : list RawSpec) : list FilterSpec :=
  omap (fun f => match NewFilterSpec f None with
                 | inl spec => Some spec
                 | inr _ => None
                 end) fs.

Definition lastNamed (name : string) (fs : list RawSpec) : option FilterSpec :=
  last (base.filter (fun spec => specName spec = name) (builtSpecs fs)).

(** What the walk over the jumpIfs asks of a node: its filter has a spec,
    the kind of the spec is registered, and every jumpIf entry has its key
    among the results of the kind and its target among the names that are
    valid when the node is visited, [validNames] and those of [before]. *)
Definition jumpsValid (specs : gmap string FilterSpec) (validNames : gmap string bool)
    (before : list FlowNode) (node : FlowNode) : Prop :=
  exists spec root,
    specs !! Filter node = Some spec /\
    QueryFilterRegistry (specKind spec) = Some root /\
    forall result target,
      JumpIf node !! result = Some target ->
      result ∈ Results root /\
      (getBool validNames target = true \/ target ∈ Filter <$> before).

(** A node with its response identifier blanked. *)
Definition withoutResponseID (node : FlowNode) : FlowNode :=
  {| Filter := Filter node;
     RequestID := RequestID node;
     ResponseID := "";
     UseRequest := UseRequest node;
     JumpIf := JumpIf node;
     filter_ := filter_ node |}.

End Validation.

(** The request side of the engine: the world a request runs in (the
    request context, the state of every filter and the clock), what a
    filter's [Handle] does to it, [fasttime.Now], [ctx.AddTag], and
    [time.Duration.String]. *)
Class Runtime := {
  World : Type;
  FilterHandle : FilterRef -> World -> string * World;
  Now : World -> Z * World;
  AddTag : string -> World -> World;
  DurationString : Z -> string
}.

Section Serialize.
Context `{Runtime}.

(** What one turn of the loop of [serializeStats] writes to the builder
    for [stats[i]]. *)
Definition writeStat (i : nat) (stat : FilterStat) (sb : string) : string :=
  let sb := if bool_decide (0 < i)%nat then sb +:+ "->" else sb in
  let sb := sb +:+ statName stat in
  let sb := sb +:+ "(" in
  let sb :=
    if bool_decide (statResult stat ≠ "")
    then (sb +:+ statResult stat) +:+ ","
    else sb in
  let sb := sb +:+ DurationString (statDuration stat) in
  sb +:+ ")".

Fixpoint writeStats (i : nat) (stats : list FilterStat) (sb : string) : string :=
  match stats with
  | [] => sb
  | stat :: stats' => writeStats (S i) stats' (writeStat i stat sb)
  end.

Definition serializeStats (stats : list FilterStat) : string :=
  if bool_decide (length stats = 0%nat) then "pipeline: <empty>"
  else writeStats 0 stats "pipeline: ".

End Serialize.

Section Handling.
Context `{Runtime}.

(** The variables of the loop of [Handle], with the world. *)
Record LoopState := {
  result : string;
  next : string;
  stats : list FilterStat;
  world : World
}.

(** How one turn of the loop ends: at the next node, at a [break], or in
    the panic of a call through a nil [node.filter]. *)
Inductive Outcome :=
| Continue (s : LoopState)
| Break (s : LoopState)
| Panic.

(** The body of the loop of [Handle] at [node]. *)
Definition iteration (node : FlowNode) (s : LoopState) : Outcome :=
  if bool_decide (next s ≠ "") && bool_decide (Filter node ≠ next s) then Continue s
  else if bool_decide (Filter node = builtInFilterEnd) then Break s
  else
    let '(start, w) := Now (world s) in
    match filter_ node with
    | None => Panic
    | Some f =>
        let '(result', w) := FilterHandle f w in
        let kind := Kind f in
        let '(now, w) := Now w in
        let stat := {| statName := Filter node;
                       statKind := kind;
                       statDuration := now - start;
                       statResult := result' |} in
        let next' :=
          if bool_decide (result' ≠ "") then getString (JumpIf node) result'
          else next s in
        let s' := {| result := result';
                     next := next';
                     stats := stats s ++ [stat];
                     world := w |} in
        if bool_decide (next' = builtInFilterEnd) then Break s' else Continue s'
    end.

Fixpoint loop (flow : list FlowNode) (s : LoopState) : option LoopState :=
  match flow with
  | [] => Some s
  | node :: flow' =>
      match iteration node s with
      | Continue s' => loop flow' s'
      | Break s' => Some s'
      | Panic => None
      end
  end.

Definition initial (ctx : World) : LoopState :=
  {| result := ""; next := ""; stats := []; world := ctx |}.

(** Handle is the handler to deal with the request: the label it returns
    and the world it leaves, [None] if it panics. *)
Definition Handle (flow : list FlowNode) (ctx : World) : option (string * World) :=
  match loop flow (initial ctx) with
  | None => None
  | Some s => Some (result s, AddTag (serializeStats (stats s)) (world s))
  end.

(** The statistics [Handle] has gathered when it attaches the tag. *)
Definition handleStats (flow : list FlowNode) (ctx : World) : option (list FilterStat) :=
  stats <$> loop flow (initial ctx).

(** Every node that is not the end filter has its filter bound. *)
Definition bound (flow : list FlowNode) : Prop :=
  Forall (fun node => Filter node ≠ builtInFilterEnd -> is_Some (filter_ node)) flow.

End Handling.

(** The loop as far as the end of [flow], keeping apart a run that falls
    off the end of the nodes and one that stops at a [break]. *)
Fixpoint steps `{Runtime} (flow : list FlowNode) (s : LoopState) : Outcome :=
  match flow with
  | [] => Continue s
  | node :: flow' =>
      match iteration node s with
      | Continue s' => steps flow' s'
      | o => o
      end
  end.

(** The entries after the first, each behind its arrow. *)
Fixpoint arrows (entries : list string) : string :=
  match entries with
  | [] => ""
  | e :: entries' => "->" +:+ e +:+ arrows entries'
  end.

(** The same runtime with a ghost log: every filter, as it is invoked,
    appends itself and the label it returns.  The log is written by the
    filter, not by [Handle]; the clock and the tags are those of the
    underlying runtime. *)
Definition traced (R : Runtime) : Runtime := {|
  World := @World R * list (FilterRef * string);
  FilterHandle := fun f w =>
    let '(label, w') := @FilterHandle R f w.1 in
    (label, (w', w.2 ++ [(f, label)]));
  Now := fun w => let '(t, w') := @Now R w.1 in (t, (w', w.2));
  AddTag := fun tag w => (@AddTag R tag w.1, w.2);
  DurationString := @DurationString R
|}.

(** A state of the traced loop without its log, an entry of the log
    against the statistics [Handle] keeps of the same invocation, and the
    label of the last invocation logged. *)
Definition erase (R : Runtime) (s : @LoopState (traced R)) : @LoopState R :=
  {| result := result s; next := next s; stats := stats s; world := (world s).1 |}.

Definition eraseOutcome (R : Runtime) (o : @Outcome (traced R)) : @Outcome R :=
  match o with
  | Continue s => Continue (erase R s)
  | Break s => Break (erase R s)
  | Panic => Panic
  end.

Definition logged (stat : FilterStat) (e : FilterRef * string) : Prop :=
  statKind stat = Kind e.1 /\ statResult stat = e.2.

Definition lastLabel (log : list (FilterRef * string)) : string :=
  default "" (last (snd <$> log)).

(** The invariant of the traced loop: the statistics follow the log, entry
    by entry, and [result] is the label of the last filter invoked. *)
Definition inStep (R : Runtime) (s : @LoopState (traced R)) : Prop :=
  Forall2 logged (stats s) (world s).2 /\ result s = lastLabel (world s).2.

(** The tag as the specification writes it, with the entry of a filter
    whose result label is empty as the source writes it: no comma. *)
Definition entry `{Runtime} (stat : FilterStat) : string :=
  if bool_decide (statResult stat = "")
  then statName stat +:+ "(" +:+ DurationString (statDuration stat) +:+ ")"
  else statName stat +:+ "(" +:+ statResult stat +:+ ","
         +:+ DurationString (statDuration stat) +:+ ")".

Definition tagOf `{Runtime} (stats : list FilterStat) : string :=
  "pipeline: " +:+ String.concat "->" (entry <$> stats).

(** The entry with the comma whatever the result label, as in the
    scenario of the specification, [A(,durA)]. *)
Definition entryWithComma `{Runtime} (stat : FilterStat) : string :=
  statName stat +:+ "(" +:+ statResult stat +:+ ","
    +:+ DurationString (statDuration stat) +:+ ")".

(** What the collaborators of [Handle] are asked in the course of a
    request: a reading of the clock with the time it gives, the call of a
    filter with the label it returns, and a tag attached to the context. *)
Inductive Event :=
| EvNow (t : Z)
| EvHandle (f : FilterRef) (label : string)
| EvTag (tag : string).

(** The same runtime with a journal: the clock, the filters and the
    context each append what they are asked, as they are asked.  The
    journal is written by the collaborators, not by [Handle]. *)
Definition observed (R : Runtime) : Runtime := {|
  World := @World R * list Event;
  FilterHandle := fun f w =>
    let '(label, w') := @FilterHandle R f w.1 in
    (label, (w', w.2 ++ [EvHandle f label]));
  Now := fun w => let '(t, w') := @Now R w.1 in (t, (w', w.2 ++ [EvNow t]));
  AddTag := fun tag w => (@AddTag R tag w.1, w.2 ++ [EvTag tag]);
  DurationString := @DurationString R
|}.

(** A state of the observed loop without its journal. *)
Definition unobserved (R : Runtime) (s : @LoopState (observed R)) : @LoopState R :=
  {| result := result s; next := next s; stats := stats s; world := (world s).1 |}.

Definition unobservedOutcome (R : Runtime) (o : @Outcome (observed R)) : @Outcome R :=
  match o with
  | Continue s => Continue (unobserved R s)
  | Break s => Break (unobserved R s)
  | Panic => Panic
  end.

(** One invocation of a filter as the journal shows it: the clock is read,
    the filter bound to a node is called and returns a label, the clock is
    read again.  [statOf] is the entry the specification gives the
    invocation: the name of the node, the kind of the filter, the label,
    and the time between the two readings. *)
Record Invocation := {
  atNode : FlowNode;
  invoked : FilterRef;
  started : Z;
  returned : string;
  ended : Z
}.

Definition eventsOf (i : Invocation) : list Event :=
  [EvNow (started i); EvHandle (invoked i) (returned i); EvNow (ended i)].

Definition statOf (i : Invocation) : FilterStat :=
  {| statName := Filter (atNode i);
     statKind := Kind (invoked i);
     statResult := returned i;
     statDuration := ended i - started i |}.

(** The calls the engine makes on filter instances, in order, and the
    address of the next instance [reflect.New] allocates. *)
Inductive Call :=
| CallInit (f : FilterRef) (spec : FilterSpec)
| CallInherit (f : FilterRef) (spec : FilterSpec) (previousGeneration : FilterRef)
| CallClose (f : FilterRef).

Record Heap := {
  allocated : nat;
  calls : list Call
}.

Definition call (c : Call) (h : Heap) : Heap :=
  {| allocated := allocated h; calls := calls h ++ [c] |}.

Global Instance FilterRef_eq_dec : EqDecision FilterRef.
Proof. solve_decision. Defined.

Global Instance FilterSpec_eq_dec : EqDecision FilterSpec.
Proof. solve_decision. Defined.

Global Instance Call_eq_dec : EqDecision Call.
Proof. solve_decision. Defined.

(** How many times [Close] has been called on [f]. *)
Definition closeCount (f : FilterRef) (cs : list Call) : nat :=
  length (base.filter (fun c => c = CallClose f) cs).

(** Status is the status of Pipeline.  [Health] is never assigned. *)
Record Status (V : Type) := {
  Health : string;
  StatusFilters : gmap string V
}.
Arguments Health {V}.
Arguments StatusFilters {V}.

Section Lifecycle.
Context `{Registry}.

(** What the pipeline reads of a [*supervisor.Spec]: [Name()], [Super()]
    and [ObjectSpec()]. *)
Record SuperSpec := {
  superName : string;
  Super : option Supervisor;
  ObjectSpec : Spec
}.

(** Pipeline is Object Pipeline.  [filters] is [None] while the map is
    nil. *)
Record Pipeline := {
  superSpec : SuperSpec;
  spec : Spec;
  filters : option (gmap string FilterRef);
  flow : list FlowNode
}.

Definition withPipeline (pipelineName : string) (spec : FilterSpec) : FilterSpec :=
  {| specName := specName spec; specKind := specKind spec; specPipeline := pipelineName |}.

(** Reading [p.filters[name]]; a nil map reads as empty. *)
Definition getFilter (m : option (gmap string FilterRef)) (name : string) : option FilterRef :=
  m ≫= (fun m => m !! name).

(** create new filters. *)
Fixpoint createFilters (pipelineName : string) (super : option Supervisor)
    (rawSpecs : list RawSpec) (created : list FilterRef) (specs : list FilterSpec)
    (h : Heap) : option (list FilterRef * list FilterSpec * Heap) :=
  match rawSpecs with
  | [] => Some (created, specs, h)
  | rawSpec :: rawSpecs' =>
      match NewFilterSpec rawSpec super with
      | inr _ => None
      | inl spec =>
          match QueryFilterRegistry (specKind spec) with
          | None => None
          | Some rootInst =>
              let spec := withPipeline pipelineName spec in
              let filter := {| addr := allocated h; Kind := rootKind rootInst |} in
              createFilters pipelineName super rawSpecs'
                (created ++ [filter]) (specs ++ [spec])
                {| allocated := S (allocated h); calls := calls h |}
          end
      end
  end.

(** initialize or inherit the new filters.  [i] is the index of the head
    of [created] in the slice [filters] the loop ranges over; storing into a nil
    [p.filters] panics. *)
Fixpoint initFilters (previousGeneration : option Pipeline) (specs : list FilterSpec)
    (i : nat) (created : list FilterRef) (pfilters : option (gmap string FilterRef))
    (h : Heap) : option (option (gmap string FilterRef) * Heap) :=
  match created with
  | [] => Some (pfilters, h)
  | filter :: created' =>
      match specs !! i with
      | None => None
      | Some spec =>
          let prev :=
            match previousGeneration with
            | Some g => getFilter (filters g) (specName spec)
            | None => None
            end in
          let h :=
            match prev with
            | None => call (CallInit filter spec) h
            | Some prev => call (CallInherit filter spec prev) h
            end in
          match pfilters with
          | None => None
          | Some m =>
              initFilters previousGeneration specs (S i) created'
                (Some (<[specName spec := filter]> m)) h
          end
      end
  end.

Definition flowOf (specs : list FilterSpec) : list FlowNode :=
  (fun spec => {| Filter := specName spec; RequestID := ""; ResponseID := "";
                  UseRequest := ""; JumpIf := ∅; filter_ := None |}) <$> specs.

(** bind filter instance to flow node. *)
Definition bindNode (pfilters : option (gmap string FilterRef)) (node : FlowNode) : FlowNode :=
  if bool_decide (Filter node ≠ builtInFilterEnd)
  then {| Filter := Filter node; RequestID := RequestID node;
          ResponseID := ResponseID node; UseRequest := UseRequest node;
          JumpIf := JumpIf node; filter_ := getFilter pfilters (Filter node) |}
  else node.

(** reload.  When the spec defines a flow, the loop that binds the filters
    writes through the slice of the spec, which [p.flow] then shares. *)
Definition reload (p : Pipeline) (previousGeneration : option Pipeline) (h : Heap)
  : option (Pipeline * Heap) :=
  let pipelineName := superName (superSpec p) in
  match createFilters pipelineName (Super (superSpec p)) (Filters (spec p)) [] [] h with
  | None => None
  | Some (created, specs, h) =>
      match initFilters previousGeneration specs 0 created (filters p) h with
      | None => None
      | Some (pfilters, h) =>
          if bool_decide (length (Flow (spec p)) = 0%nat)
          then
            Some ({| superSpec := superSpec p; spec := spec p; filters := pfilters;
                     flow := bindNode pfilters <$> flowOf specs |}, h)
          else
            let flow := bindNode pfilters <$> Flow (spec p) in
            Some ({| superSpec := superSpec p;
                     spec := {| Flow := flow; Filters := Filters (spec p) |};
                     filters := pfilters;
                     flow := flow |}, h)
      end
  end.

Definition setSpec (p : Pipeline) (superSpec : SuperSpec) : Pipeline :=
  {| superSpec := superSpec; spec := ObjectSpec superSpec;
     filters := filters p; flow := flow p |}.

(** Init initializes Pipeline. *)
Definition Init (p : Pipeline) (superSpec : SuperSpec) (h : Heap) : option (Pipeline * Heap) :=
  reload (setSpec p superSpec) None h.

(** Inherit inherits previous generation of Pipeline.  The call
    [previousGeneration.Close()] is commented out in the source. *)
Definition Inherit (p : Pipeline) (superSpec : SuperSpec) (previousGeneration : Pipeline)
    (h : Heap) : option (Pipeline * Heap) :=
  reload (setSpec p superSpec) (Some previousGeneration) h.

(** The entries of a map, a nil map having none, and the orders in which
    a [range] loop may visit them: Go does not specify the order, so every
    arrangement of the entries is one. *)
Definition entriesOf {A : Type} (m : option (gmap string A)) : list (string * A) :=
  match m with
  | Some m => map_to_list m
  | None => []
  end.

Definition ranges {A : Type} (m : option (gmap string A)) (order : list (string * A)) : Prop :=
  order ≡ₚ entriesOf m.

(** Close closes Pipeline: [Close] on the filter of every entry of
    [p.filters], [order] being the order in which the loop visits the
    entries, one of [ranges (filters p)]. *)
Definition Close (order : list (string * FilterRef)) (h : Heap) : Heap :=
  fold_left (fun h e => call (CallClose e.2) h) order h.

(** Under how many names a map holds the instance [f]. *)
Definition heldUnder (m : option (gmap string FilterRef)) (f : FilterRef) : nat :=
  length (base.filter (fun e => e.2 = f) (entriesOf m)).

(** The call [reload] makes on a new filter. *)
Definition handOff (previousGeneration : option Pipeline) (filter : FilterRef)
    (spec : FilterSpec) : Call :=
  match previousGeneration ≫= (fun g => getFilter (filters g) (specName spec)) with
  | None => CallInit filter spec
  | Some prev => CallInherit filter spec prev
  end.

(** What the filter entries of a spec call for: [specs] are the filter
    specs the entries build, each with the name of the pipeline set, and
    [created] are instances of the kinds of these specs at the addresses
    from [first] on, one per entry and in the order of the entries. *)
Definition instancesOf (pipelineName : string) (super : option Supervisor) (first : nat)
    (rawSpecs : list RawSpec) (created : list FilterRef) (specs : list FilterSpec) : Prop :=
  Forall2 (fun rawSpec spec' =>
             exists spec, NewFilterSpec rawSpec super = inl spec /\
                          spec' = withPipeline pipelineName spec) rawSpecs specs /\
  Forall2 (fun spec filter =>
             exists rootInst, QueryFilterRegistry (specKind spec) = Some rootInst /\
                              Kind filter = rootKind rootInst) specs created /\
  addr <$> created = seq first (length rawSpecs).

Section StatusOf.
(** What [Status()] of a filter returns and does: a value, and a change
    of the state the filters live in. *)
Variables (V State : Type) (FilterStatus : FilterRef -> State -> V * State).

(** The loop of [Status] over the entries of [p.filters], in the order
    it visits them. *)
Fixpoint gatherStatus (order : list (string * FilterRef)) (statuses : gmap string V)
    (st : State) : gmap string V * State :=
  match order with
  | [] => (statuses, st)
  | (name, filter) :: order' =>
      let '(v, st) := FilterStatus filter st in
      gatherStatus order' (<[name := v]> statuses) st
  end.

(** Status returns Status generated by Runtime: the status, and the state
    the calls leave.  [order] is the order in which the loop visits the
    entries of [p.filters], one of [ranges (filters p)]. *)
Definition GetStatus (order : list (string * FilterRef)) (st : State) : Status V * State :=
  let '(statuses, st) := gatherStatus order ∅ st in
  ({| Health := ""; StatusFilters := statuses |}, st).

(** The states in which the loop comes to the entries of [order], one per
    entry, when it starts in [st]: [Status()] of an entry is called in the
    state the calls before it have left. *)
Fixpoint reached (order : list (string * FilterRef)) (st : State) : list State :=
  match order with
  | [] => []
  | e :: order' => st :: reached order' (FilterStatus e.2 st).2
  end.

End StatusOf.

End Lifecycle.

End pipeline.

(** * Concrete collaborators

    Instances on which the embedding runs: they supply the inputs of the
    examples below. *)

Module fixture.

(** ** For httpstat *)

Fixpoint floatOfPositive (p : positive) : float :=
  match p with
  | xH => 1%float
  | xO p' => PrimFloat.mul 2 (floatOfPositive p')
  | xI p' => PrimFloat.add (PrimFloat.mul 2 (floatOfPositive p')) 1
  end.

(** [float64(n)], exact below 2^53. *)
Definition float64 (n : Z) : float :=
  match n with
  | Z0 => 0%float
  | Zpos p => floatOfPositive p
  | Zneg p => PrimFloat.opp (floatOfPositive p)
  end.

(** The [StandardEWMA] of go-metrics, after [ewma.go] at the revision the
    source of [Status] cites: [Update] adds to [uncounted]; [Tick] turns
    the events of the last five seconds into a rate per nanosecond and
    folds it into [rate]; [Rate] is per second.  The three decay factors
    are [1 - exp(-5/60/m)] for [m] of 1, 5 and 15 minutes. *)
Record StandardEWMA := {
  uncounted : Z;
  alpha : float;
  rate : float;
  init : bool
}.

Definition NewEWMA (alpha : float) : StandardEWMA :=
  {| uncounted := 0; alpha := alpha; rate := 0%float; init := false |}.

Definition Update (n : Z) (a : StandardEWMA) : StandardEWMA :=
  {| uncounted := uncounted a + n; alpha := alpha a; rate := rate a; init := init a |}.

Definition Tick (a : StandardEWMA) : StandardEWMA :=
  let count := uncounted a in
  let instantRate := PrimFloat.div (float64 count) 5e9 in
  {| uncounted := uncounted a - count;
     alpha := alpha a;
     rate := if init a
             then PrimFloat.add (rate a)
                    (PrimFloat.mul (alpha a) (PrimFloat.sub instantRate (rate a)))
             else instantRate;
     init := true |}.

Definition Rate (a : StandardEWMA) : float := PrimFloat.mul (rate a) 1e9.

(** A code counter that counts, and a sampler that keeps the durations it
    is given but estimates no percentile. *)
Definition countCode (code : Z) (m : gmap Z Z) : gmap Z Z :=
  <[code := default 0 (m !! code) + 1]> m.

#[global] Instance collaborators : httpstat.Collaborators := {|
  httpstat.EWMA := StandardEWMA;
  httpstat.NewEWMA1 := NewEWMA 0x1.477f8204cb218p-4;
  httpstat.NewEWMA5 := NewEWMA 0x1.0ecdbf52574ep-6;
  httpstat.NewEWMA15 := NewEWMA 0x1.6b1453a2433p-8;
  httpstat.ewmaUpdate := Update;
  httpstat.ewmaTick := Tick;
  httpstat.ewmaRate := Rate;
  httpstat.DurationSampler := list Z;
  httpstat.NewDurationSampler := [];
  httpstat.samplerUpdate := fun d l => l ++ [d];
  httpstat.samplerReset := fun _ => [];
  httpstat.samplerPercentiles := fun _ =>
    (0%float, 0%float, 0%float, 0%float, 0%float, 0%float, 0%float);
  httpstat.HTTPStatusCodeCounter := gmap Z Z;
  httpstat.NewCodeCounter := ∅;
  httpstat.ccCount := countCode;
  httpstat.ccCodes := fun m => m;
  httpstat.ccReset := fun _ => ∅
|}.

Definition metric (code duration : Z) : httpstat.Metric :=
  {| httpstat.StatusCode := code; httpstat.Duration := duration;
     httpstat.ReqSize := 0; httpstat.RespSize := 0 |}.

(** ** For pipeline *)

(** Four filter kinds: a [Silent] filter returns the empty label, a
    [Skipper] returns [skip], a [Denier] returns [deny], and a [Flaky]
    filter returns the empty label the first time it handles a request
    and [fail] from then on. *)
Definition kinds : list pipeline.RootInst := [
  {| pipeline.rootKind := "Silent"; pipeline.Results := [] |};
  {| pipeline.rootKind := "Skipper"; pipeline.Results := ["skip"] |};
  {| pipeline.rootKind := "Denier"; pipeline.Results := ["deny"] |};
  {| pipeline.rootKind := "Flaky"; pipeline.Results := ["fail"] |}
].

(** Modelled from the spec: the filter registry is declared in another
    file of the package.  It maps a kind name to the root instance of the
    kind, which gives the result labels the kind may emit. *)
Definition queryKind (kind : string) : option pipeline.RootInst :=
  head (base.filter (fun root => pipeline.rootKind root = kind) kinds).

(** Modelled from the spec: [NewFilterSpec] is declared in another file of
    the package.  A filter entry is reduced to its name and its kind; the
    name must be non-empty and the kind must resolve in the registry. *)
Definition newFilterSpec (rawSpec : string * string) (super : option unit)
  : pipeline.FilterSpec + string :=
  if bool_decide (rawSpec.1 = "") then inr "name is required"
  else
    match queryKind rawSpec.2 with
    | None => inr "kind not found"
    | Some _ =>
        inl {| pipeline.specName := rawSpec.1; pipeline.specKind := rawSpec.2;
               pipeline.specPipeline := "" |}
    end.

#[global] Instance registry : pipeline.Registry := {|
  pipeline.RawSpec := string * string;
  pipeline.Supervisor := unit;
  pipeline.NewFilterSpec := newFilterSpec;
  pipeline.QueryFilterRegistry := queryKind
|}.

(** The world of a request: a clock in nanoseconds, the tags of the
    context, and the addresses of the filters that have handled it. *)
Record world := {
  clock : Z;
  tags : list string;
  handled : list nat
}.

Definition label (f : pipeline.FilterRef) (w : world) : string :=
  if bool_decide (pipeline.Kind f = "Skipper") then "skip"
  else if bool_decide (pipeline.Kind f = "Denier") then "deny"
  else if bool_decide (pipeline.Kind f = "Flaky") then
    if bool_decide (pipeline.addr f ∈ handled w) then "fail" else ""
  else "".

(** Every filter takes seven nanoseconds. *)
Definition handle (f : pipeline.FilterRef) (w : world) : string * world :=
  (label f w,
   {| clock := clock w + 7; tags := tags w; handled := handled w ++ [pipeline.addr f] |}).

Definition addTag (tag : string) (w : world) : world :=
  {| clock := clock w; tags := tags w ++ [tag]; handled := handled w |}.

(** [time.Duration.String] on the durations met here, which are below one
    microsecond: [0s] for zero, the count followed by [ns] otherwise. *)
Definition durationString (d : Z) : string :=
  if bool_decide (d = 0) then "0s" else pretty d +:+ "ns".

#[global] Instance runtime : pipeline.Runtime := {|
  pipeline.World := world;
  pipeline.FilterHandle := handle;
  pipeline.Now := fun w => (clock w, w);
  pipeline.AddTag := addTag;
  pipeline.DurationString := durationString
|}.

Definition request : world := {| clock := 0; tags := []; handled := [] |}.

Definition node (name : string) (jumpIf : list (string * string)) : pipeline.FlowNode :=
  {| pipeline.Filter := name; pipeline.RequestID := ""; pipeline.ResponseID := "";
     pipeline.UseRequest := ""; pipeline.JumpIf := list_to_map jumpIf;
     pipeline.filter_ := None |}.

(** A pipeline object before [Init] or [Inherit], its map allocated. *)
Definition blank : pipeline.Pipeline := {|
  pipeline.superSpec := {| pipeline.superName := ""; pipeline.Super := None;
                           pipeline.ObjectSpec := {| pipeline.Flow := []; pipeline.Filters := [] |} |};
  pipeline.spec := {| pipeline.Flow := []; pipeline.Filters := [] |};
  pipeline.filters := Some ∅;
  pipeline.flow := []
|}.

(** The zero value of [Pipeline]: its map is nil. *)
Definition zero : pipeline.Pipeline := {|
  pipeline.superSpec := {| pipeline.superName := ""; pipeline.Super := None;
                           pipeline.ObjectSpec := {| pipeline.Flow := []; pipeline.Filters := [] |} |};
  pipeline.spec := {| pipeline.Flow := []; pipeline.Filters := [] |};
  pipeline.filters := None;
  pipeline.flow := []
|}.

Definition superSpec (name : string) (flow : list pipeline.FlowNode)
    (filters : list (string * string)) : pipeline.SuperSpec :=
  {| pipeline.superName := name; pipeline.Super := None;
     pipeline.ObjectSpec := {| pipeline.Flow := flow; pipeline.Filters := filters |} |}.

Definition spec (flow : list pipeline.FlowNode) (filters : list (string * string))
  : pipeline.Spec :=
  {| pipeline.Flow := flow; pipeline.Filters := filters |}.

Definition emptyHeap : pipeline.Heap := {| pipeline.allocated := 0; pipeline.calls := [] |}.

(** The flow of the pipeline [Init] builds from a spec; empty if [Init]
    panics. *)
Definition compiled (flow : list pipeline.FlowNode) (filters : list (string * string))
  : list pipeline.FlowNode :=
  match pipeline.Init blank (superSpec "demo" flow filters) emptyHeap with
  | Some (p, _) => pipeline.flow p
  | None => []
  end.

(** What a generation is left with: the calls made so far, and the filter
    it holds under a name. *)
Definition callsOf (g : option (pipeline.Pipeline * pipeline.Heap)) : list pipeline.Call :=
  match g with
  | Some (_, h) => pipeline.calls h
  | None => []
  end.

Definition filterOf (g : option (pipeline.Pipeline * pipeline.Heap)) (name : string)
  : option pipeline.FilterRef :=
  match g with
  | Some (p, _) => pipeline.getFilter (pipeline.filters p) name
  | None => None
  end.

Definition completes (g : option (pipeline.Pipeline * pipeline.Heap)) : bool :=
  match g with
  | Some _ => true
  | None => false
  end.

(** A node of a compiled flow: [filter_] bound to the instance at
    [address]. *)
Definition live (name : string) (jumpIf : list (string * string)) (address : nat)
    (kind : string) : pipeline.FlowNode :=
  {| pipeline.Filter := name; pipeline.RequestID := ""; pipeline.ResponseID := "";
     pipeline.UseRequest := ""; pipeline.JumpIf := list_to_map jumpIf;
     pipeline.filter_ := Some {| pipeline.addr := address; pipeline.Kind := kind |} |}.

(** A first generation with the filters [old] and [kept], and what
    [Inherit] makes of it under a spec with the filters [kept] and [new]. *)
Definition firstGeneration : option (pipeline.Pipeline * pipeline.Heap) :=
  pipeline.Init blank (superSpec "demo" [] [("old", "Silent"); ("kept", "Silent")]) emptyHeap.

Definition secondGeneration : option (pipeline.Pipeline * pipeline.Heap) :=
  match firstGeneration with
  | Some (g1, h1) =>
      pipeline.Inherit blank (superSpec "demo" [] [("kept", "Silent"); ("new", "Denier")]) g1 h1
  | None => None
  end.

(** What [Inherit] makes of the first generation under a spec with no
    filter, on a receiver whose map is nil. *)
Definition emptyGeneration : option (pipeline.Pipeline * pipeline.Heap) :=
  match firstGeneration with
  | Some (g1, h1) => pipeline.Inherit zero (superSpec "demo" [] []) g1 h1
  | None => None
  end.

(** A pipeline that holds the filters of [entries], and a [Status()] for
    them: the kind of the filter with the number of [Status()] calls made
    before, which the state counts. *)
Definition holding (entries : list (string * pipeline.FilterRef)) : pipeline.Pipeline := {|
  pipeline.superSpec := {| pipeline.superName := ""; pipeline.Super := None;
                           pipeline.ObjectSpec := {| pipeline.Flow := []; pipeline.Filters := [] |} |};
  pipeline.spec := {| pipeline.Flow := []; pipeline.Filters := [] |};
  pipeline.filters := Some (list_to_map entries);
  pipeline.flow := []
|}.

Definition status (f : pipeline.FilterRef) (asked : nat) : (string * nat) * nat :=
  ((pipeline.Kind f, asked), S asked).

End fixture.

(** * Properties of httpstat *)

Section HTTPStatFacts.
Import httpstat.
Context `{Collaborators}.

Lemma uint64_small (x : Z) : 0 <= x < 2 ^ 64 -> uint64 x = x.
Proof. intros Hx. unfold uint64. now apply Z.mod_small. Qed.

Lemma uint64_range (x : Z) : 0 <= uint64 x < 2 ^ 64.
Proof. unfold uint64. apply Z.mod_pos_bound. lia. Qed.

Lemma durationOf_range (m : Metric) : 0 <= durationOf m < 2 ^ 64.
Proof. apply uint64_range. Qed.

Lemma StatAll_snoc (ms : list Metric) (m : Metric) (hs : HTTPStat) :
  StatAll (ms ++ [m]) hs = Stat m (StatAll ms hs).
Proof. unfold StatAll. now rewrite fold_left_app. Qed.

Lemma sumDurations_snoc (ms : list Metric) (m : Metric) :
  sumDurations (ms ++ [m]) = sumDurations ms + durationOf m.
Proof.
  induction ms as [|m' ms IH]; cbn [sumDurations app fold_right] in *.
  - lia.
  - fold (sumDurations (ms ++ [m])). fold (sumDurations ms). lia.
Qed.

Lemma sumDurations_nonneg (ms : list Metric) : 0 <= sumDurations ms.
Proof.
  induction ms as [|m ms IH]; cbn [sumDurations fold_right]; [lia|].
  fold (sumDurations ms). pose proof (durationOf_range m). lia.
Qed.

Lemma errorsOf_snoc (ms : list Metric) (m : Metric) :
  errorsOf (ms ++ [m]) = errorsOf ms + (if isErr m then 1 else 0).
Proof.
  unfold errorsOf. rewrite filter_app, length_app, Nat2Z.inj_add. f_equal.
  rewrite filter_cons, filter_nil.
  destruct (isErr m) eqn:E; case_decide; first [reflexivity | congruence].
Qed.

Lemma errorsOf_le (ms : list Metric) : 0 <= errorsOf ms <= Z.of_nat (length ms).
Proof.
  unfold errorsOf. split; [lia|]. apply inj_le, length_filter.
Qed.

(** [count] is the number of calls, modulo 2^64. *)
Lemma count_StatAll_wraps (ms : list Metric) :
  count (StatAll ms New) = Z.of_nat (length ms) mod 2 ^ 64.
Proof.
  induction ms as [|m ms IH] using rev_ind; [reflexivity|].
  rewrite StatAll_snoc, length_app. cbn [length Stat count].
  unfold AddUint64, uint64. rewrite IH, Zplus_mod_idemp_l. f_equal. lia.
Qed.

(** While the counter does not wrap, [count] is the number of calls. *)
Lemma count_StatAll (ms : list Metric) :
  Z.of_nat (length ms) < 2 ^ 64 ->
  count (StatAll ms New) = Z.of_nat (length ms).
Proof. intros Hlen. rewrite count_StatAll_wraps. apply Z.mod_small. lia. Qed.

Lemma errCount_StatAll (ms : list Metric) :
  Z.of_nat (length ms) < 2 ^ 64 ->
  errCount (StatAll ms New) = errorsOf ms.
Proof.
  induction ms as [|m ms IH] using rev_ind; intros Hlen; [reflexivity|].
  rewrite StatAll_snoc, errorsOf_snoc. rewrite length_app in Hlen. cbn [length] in Hlen.
  cbn [Stat errCount]. rewrite IH by lia.
  pose proof (errorsOf_le ms).
  destruct (isErr m); [|lia].
  unfold AddUint64. rewrite uint64_small; lia.
Qed.

Lemma GetStatus_Count (hs : HTTPStat) : Count (GetStatus hs).1 = count hs.
Proof. unfold GetStatus. destruct (samplerPercentiles _) as [[[[[[? ?] ?] ?] ?] ?] ?]. reflexivity. Qed.

Lemma GetStatus_ErrCount (hs : HTTPStat) : ErrCount (GetStatus hs).1 = errCount hs.
Proof. unfold GetStatus. destruct (samplerPercentiles _) as [[[[[[? ?] ?] ?] ?] ?] ?]. reflexivity. Qed.

(** C6. After N sequential [Stat] calls on a fresh HTTPStat, with N below
    the range of the [uint64] counter, a [Status] taken at the end reports
    [Count] equal to N and [ErrCount] equal to the number of those calls
    whose metric has [StatusCode >= 400]. *)
Theorem Status_counts_calls (ms : list Metric) :
  Z.of_nat (length ms) < 2 ^ 64 ->
  let status := (GetStatus (StatAll ms New)).1 in
  Count status = Z.of_nat (length ms) /\
  ErrCount status = Z.of_nat (length (base.filter (fun m => 400 <= StatusCode m) ms)).
Proof.
  intros Hlen status. subst status.
  rewrite GetStatus_Count, GetStatus_ErrCount, count_StatAll, errCount_StatAll by assumption.
  split; [reflexivity|]. unfold errorsOf. do 2 f_equal.
  apply list_filter_iff. intros m. unfold isErr. rewrite Z.leb_le. reflexivity.
Qed.

Lemma GetStatus_Min (hs : HTTPStat) :
  Min (GetStatus hs).1 = if 0 <? count hs then min hs else 0.
Proof. unfold GetStatus. destruct (samplerPercentiles _) as [[[[[[? ?] ?] ?] ?] ?] ?]. reflexivity. Qed.

Lemma GetStatus_Mean (hs : HTTPStat) :
  Mean (GetStatus hs).1 = if 0 <? count hs then total hs / count hs else 0.
Proof. unfold GetStatus. destruct (samplerPercentiles _) as [[[[[[? ?] ?] ?] ?] ?] ?]. reflexivity. Qed.

Lemma GetStatus_Max (hs : HTTPStat) : Max (GetStatus hs).1 = max hs.
Proof. unfold GetStatus. destruct (samplerPercentiles _) as [[[[[[? ?] ?] ?] ?] ?] ?]. reflexivity. Qed.

(** While the sum of the recorded durations does not wrap, [total] is that
    sum. *)
Lemma total_StatAll (ms : list Metric) :
  sumDurations ms < 2 ^ 64 ->
  total (StatAll ms New) = sumDurations ms.
Proof.
  induction ms as [|m ms IH] using rev_ind; intros Hsum; [reflexivity|].
  rewrite StatAll_snoc. rewrite sumDurations_snoc in *.
  pose proof (durationOf_range m). pose proof (sumDurations_nonneg ms).
  cbn [Stat total]. unfold AddUint64. rewrite IH by lia.
  fold (durationOf m). rewrite uint64_small; lia.
Qed.

(** [min] and [max] bracket every recorded duration. *)
Lemma min_max_StatAll (ms : list Metric) :
  Forall (fun m => min (StatAll ms New) <= durationOf m <= max (StatAll ms New)) ms.
Proof.
  induction ms as [|m ms IH] using rev_ind; [constructor|].
  rewrite StatAll_snoc. cbn [Stat min max]. fold (durationOf m).
  set (lo := min (StatAll ms New)) in *. set (hi := max (StatAll ms New)) in *.
  apply Forall_app. split.
  - eapply Forall_impl; [exact IH|]. cbn. intros m' Hm'.
    destruct (Z.leb_spec lo (durationOf m)), (Z.leb_spec (durationOf m) hi); lia.
  - constructor; [|constructor].
    destruct (Z.leb_spec lo (durationOf m)), (Z.leb_spec (durationOf m) hi); lia.
Qed.

Lemma sumDurations_bounds (ms : list Metric) (lo hi : Z) :
  Forall (fun m => lo <= durationOf m <= hi) ms ->
  Z.of_nat (length ms) * lo <= sumDurations ms <= Z.of_nat (length ms) * hi.
Proof.
  induction 1 as [|m ms Hm _ IH]; cbn [sumDurations fold_right length]; [lia|].
  fold (sumDurations ms). lia.
Qed.

(** C7, as amended. After sequential [Stat] calls on a fresh HTTPStat, as
    long as neither the number of calls nor the sum of the recorded
    millisecond durations leaves the range of [uint64], a [Status] has
    [Mean] equal to the floor of that sum over the number of calls and
    [Min <= Mean <= Max] when [Count > 0], and [Min = 0] and [Mean = 0]
    when [Count = 0]. *)
Theorem Status_min_mean_max (ms : list Metric) :
  Z.of_nat (length ms) < 2 ^ 64 ->
  sumDurations ms < 2 ^ 64 ->
  let status := (GetStatus (StatAll ms New)).1 in
  (0 < Count status ->
   Mean status = sumDurations ms / Z.of_nat (length ms) /\
   Min status <= Mean status <= Max status) /\
  (Count status = 0 -> Min status = 0 /\ Mean status = 0).
Proof.
  intros Hlen Hsum status. subst status.
  rewrite GetStatus_Count, GetStatus_Min, GetStatus_Mean, GetStatus_Max.
  rewrite count_StatAll, total_StatAll by assumption.
  set (n := Z.of_nat (length ms)) in *.
  pose proof (sumDurations_bounds ms _ _ (min_max_StatAll ms)) as [Hlo Hhi].
  fold n in Hlo, Hhi.
  destruct (Z.ltb_spec 0 n) as [Hn|Hn].
  - split; intros Hc; [|lia].
    split; [reflexivity|]. split.
    + apply Z.div_le_lower_bound; lia.
    + apply Z.div_le_upper_bound; lia.
  - split; intros Hc; [lia|]. split; reflexivity.
Qed.

(** The two percentages [Status] never assigns, and the one it assigns
    three times. *)
Lemma GetStatus_ErrPercent (hs : HTTPStat) :
  let status := (GetStatus hs).1 in
  M5ErrPercent status = 0%float /\
  M15ErrPercent status = 0%float /\
  M1ErrPercent status =
    (if PrimFloat.ltb 0 (M15 status) then PrimFloat.div (M15Err status) (M15 status)
     else if PrimFloat.ltb 0 (M5 status) then PrimFloat.div (M5Err status) (M5 status)
     else if PrimFloat.ltb 0 (M1 status) then PrimFloat.div (M1Err status) (M1 status)
     else 0%float).
Proof.
  unfold GetStatus. destruct (samplerPercentiles _) as [[[[[[? ?] ?] ?] ?] ?] ?].
  cbn. repeat split.
Qed.

End HTTPStatFacts.

Lemma Status_counts_calls_witness :
  let ms := [fixture.metric 200 3000000; fixture.metric 503 9000000; fixture.metric 404 1000000] in
  let status := (httpstat.GetStatus (httpstat.StatAll ms httpstat.New)).1 in
  httpstat.Count status = 3 /\ httpstat.ErrCount status = 2.
Proof.
  apply (Status_counts_calls
           [fixture.metric 200 3000000; fixture.metric 503 9000000; fixture.metric 404 1000000]).
  vm_compute. reflexivity.
Defined.

Lemma Status_min_mean_max_witness :
  let ms := [fixture.metric 200 3000000; fixture.metric 503 9000000; fixture.metric 404 1000000] in
  let status := (httpstat.GetStatus (httpstat.StatAll ms httpstat.New)).1 in
  (0 < httpstat.Count status ->
   httpstat.Mean status = httpstat.sumDurations ms / 3 /\
   httpstat.Min status <= httpstat.Mean status <= httpstat.Max status) /\
  (httpstat.Count status = 0 -> httpstat.Min status = 0 /\ httpstat.Mean status = 0).
Proof.
  apply (Status_min_mean_max
           [fixture.metric 200 3000000; fixture.metric 503 9000000; fixture.metric 404 1000000]).
  - vm_compute. reflexivity.
  - vm_compute. reflexivity.
Defined.

(** C7, as stated, fails: two calls whose [Duration] is minus one
    millisecond each record [2^64 - 1]; [total] wraps to [2^64 - 2], so
    [Mean] is [2^63 - 1] while [Min] is [2^64 - 1]. *)
Lemma Status_min_mean_max_counterexample :
  let ms := [fixture.metric 200 (-1000000); fixture.metric 200 (-1000000)] in
  let status := (httpstat.GetStatus (httpstat.StatAll ms httpstat.New)).1 in
  httpstat.Count status = 2 /\
  httpstat.Min status = 18446744073709551615 /\
  httpstat.Mean status = 9223372036854775807 /\
  ~ (0 < httpstat.Count status ->
     httpstat.Min status <= httpstat.Mean status <= httpstat.Max status).
Proof.
  vm_compute. repeat split; try reflexivity.
  intros Hle. destruct (Hle eq_refl) as [Hmin _]. apply Hmin. reflexivity.
Qed.

(** C1. On a fresh HTTPStat, one [Stat] of a 500 response followed by
    [Status]: the five-minute and fifteen-minute rates are positive and
    their error rates equal them, yet [M5ErrPercent] and [M15ErrPercent]
    are 0, and [M1ErrPercent] is 1.  After a further [Stat] of a 200
    response and a second [Status], [M1ErrPercent] holds the
    fifteen-minute quotient, which differs from the one-minute quotient. *)
Theorem Status_error_percent_overwritten :
  let hs1 := httpstat.Stat (fixture.metric 500 1000000) httpstat.New in
  let '(status1, hs1') := httpstat.GetStatus hs1 in
  let hs2 := httpstat.Stat (fixture.metric 200 1000000) hs1' in
  let status2 := (httpstat.GetStatus hs2).1 in
  (PrimFloat.ltb 0 (httpstat.M5 status1) = true /\
   PrimFloat.div (httpstat.M5Err status1) (httpstat.M5 status1) = 1%float /\
   httpstat.M5ErrPercent status1 = 0%float) /\
  (PrimFloat.ltb 0 (httpstat.M15 status1) = true /\
   PrimFloat.div (httpstat.M15Err status1) (httpstat.M15 status1) = 1%float /\
   httpstat.M15ErrPercent status1 = 0%float) /\
  (PrimFloat.ltb 0 (httpstat.M1 status2) = true /\
   httpstat.M1ErrPercent status2 =
     PrimFloat.div (httpstat.M15Err status2) (httpstat.M15 status2) /\
   PrimFloat.eqb (httpstat.M1ErrPercent status2)
     (PrimFloat.div (httpstat.M1Err status2) (httpstat.M1 status2)) = false).
Proof. vm_compute. repeat split. Qed.

(** * Properties of Validate *)

Section ValidateFacts.
Import pipeline.
Context `{Registry}.

Lemma getBool_insert (m : gmap string bool) (k k' : string) :
  getBool (<[k := true]> m) k' = if bool_decide (k = k') then true else getBool m k'.
Proof.
  unfold getBool. rewrite lookup_insert. repeat case_decide; try reflexivity; congruence.
Qed.

Lemma getBool_singleton (k k' : string) :
  getBool {[k := true]} k' = bool_decide (k = k').
Proof.
  unfold getBool. rewrite lookup_singleton. repeat case_decide; try reflexivity; congruence.
Qed.

(** One offending entry is enough for the loop over [node.JumpIf] to
    panic, wherever the entry comes in the iteration. *)
Lemma validateJumpIf_rejects (name : string) (results : list string)
    (validNames : gmap string bool) (entries : list (string * string))
    (result target : string) :
  (result, target) ∈ entries ->
  result ∉ results \/ getBool validNames target = false ->
  is_Some (validateJumpIf name results validNames entries).
Proof.
  intros Hin Hbad. induction entries as [|[r t] entries IH]; [inversion Hin|].
  cbn [validateJumpIf]. unfold StrInSlice.
  case_bool_decide as Hr; cbn [negb]; [|eauto].
  destruct (getBool validNames t) eqn:Ht; cbn [negb]; [|eauto].
  apply elem_of_cons in Hin as [Heq|Hin]; [|auto].
  injection Heq as -> ->. destruct Hbad; congruence.
Qed.

(** The loop over [node.JumpIf] ends without a panic exactly when every
    entry passes both tests, so whether it panics does not depend on the
    order in which the entries are visited. *)
Lemma validateJumpIf_accepts (name : string) (results : list string)
    (validNames : gmap string bool) (entries : list (string * string)) :
  validateJumpIf name results validNames entries = None <->
  Forall (fun e => e.1 ∈ results /\ getBool validNames e.2 = true) entries.
Proof.
  induction entries as [|[r t] entries IH]; cbn [validateJumpIf].
  - split; [constructor|reflexivity].
  - unfold StrInSlice. rewrite Forall_cons. cbn [fst snd].
    case_bool_decide as Hr; cbn [negb]; [|split; [discriminate|tauto]].
    destruct (getBool validNames t); cbn [negb]; [|split; [discriminate|]].
    + rewrite IH. tauto.
    + intros [[_ Ht] _]. discriminate.
Qed.

Lemma validateJumpIf_order (name : string) (results : list string)
    (validNames : gmap string bool) (entries entries' : list (string * string)) :
  entries ≡ₚ entries' ->
  validateJumpIf name results validNames entries = None <->
  validateJumpIf name results validNames entries' = None.
Proof. intros Hperm. rewrite !validateJumpIf_accepts. now rewrite Hperm. Qed.

Lemma validateJumpIfs_rejects_target (specs : gmap string FilterSpec)
    (before after : list FlowNode) (node : FlowNode)
    (validNames : gmap string bool) (result target : string) :
  Filter node ≠ builtInFilterEnd ->
  JumpIf node !! result = Some target ->
  getBool validNames target = false ->
  target ∉ Filter <$> before ->
  is_Some (validateJumpIfs specs (before ++ node :: after) validNames).
Proof.
  intros Hend Hjump. revert validNames.
  induction before as [|n before IH]; intros validNames Hvalid Hlater;
    cbn [app validateJumpIfs].
  - rewrite bool_decide_eq_false_2 by assumption.
    destruct (specs !! Filter node) as [spec|]; [|eauto].
    destruct (QueryFilterRegistry (specKind spec)) as [root|]; [|eauto].
    destruct (validateJumpIf_rejects (Filter node) (Results root) validNames
                (map_to_list (JumpIf node)) result target) as [r ->]; eauto.
    now apply elem_of_map_to_list.
  - rewrite fmap_cons, not_elem_of_cons in Hlater. destruct Hlater as [Hn Hlater].
    case_bool_decide; [auto|].
    destruct (specs !! Filter n) as [spec|]; [|eauto].
    destruct (QueryFilterRegistry (specKind spec)) as [root|]; [|eauto].
    destruct (validateJumpIf _ _ _ _); [eauto|].
    apply IH; [|assumption].
    rewrite getBool_insert, bool_decide_eq_false_2; [assumption|congruence].
Qed.

Lemma validateJumpIfs_rejects_result (specs : gmap string FilterSpec)
    (before after : list FlowNode) (node : FlowNode)
    (validNames : gmap string bool) (result target : string)
    (spec : FilterSpec) (root : RootInst) :
  Filter node ≠ builtInFilterEnd ->
  JumpIf node !! result = Some target ->
  specs !! Filter node = Some spec ->
  QueryFilterRegistry (specKind spec) = Some root ->
  result ∉ Results root ->
  is_Some (validateJumpIfs specs (before ++ node :: after) validNames).
Proof.
  intros Hend Hjump Hspec Hroot Hresult. revert validNames.
  induction before as [|n before IH]; intros validNames; cbn [app validateJumpIfs].
  - rewrite bool_decide_eq_false_2, Hspec, Hroot by assumption.
    destruct (validateJumpIf_rejects (Filter node) (Results root) validNames
                (map_to_list (JumpIf node)) result target) as [r ->]; eauto.
    now apply elem_of_map_to_list.
  - case_bool_decide; [auto|].
    destruct (specs !! Filter n) as [spec'|]; [|eauto].
    destruct (QueryFilterRegistry (specKind spec')) as [root'|]; [|eauto].
    destruct (validateJumpIf _ _ _ _); eauto.
Qed.

(** C4, as amended. A flow node other than END with a jumpIf entry whose
    target is neither END nor the filter name of a node later in the flow,
    or whose key is not in the declared result set of the filter's kind,
    makes [Validate] return an error. *)
Theorem Validate_rejects_jump (s : Spec) (pre post : list FlowNode) (node : FlowNode)
    (result target : string) :
  Flow s = pre ++ node :: post ->
  Filter node ≠ builtInFilterEnd ->
  JumpIf node !! result = Some target ->
  (target ≠ builtInFilterEnd /\ target ∉ Filter <$> post) \/
  (exists results, declaredResults s node = Some results /\ result ∉ results) ->
  Validate s ≠ None.
Proof.
  intros Hflow Hend Hjump Hbad. unfold Validate, declaredResults in *.
  destruct (validateFilterSpecs (Filters s) ∅) as [r|specs]; [discriminate|].
  rewrite Hflow, rev_app_distr. cbn [rev]. rewrite <- app_assoc. cbn [app].
  enough (is_Some (validateJumpIfs specs (rev post ++ node :: rev pre)
                     {[builtInFilterEnd := true]})) as [r ->] by discriminate.
  destruct Hbad as [[Htarget Hlater]|(results & Hdecl & Hresult)].
  - eapply validateJumpIfs_rejects_target; eauto.
    + rewrite getBool_singleton. now apply bool_decide_eq_false_2.
    + intros Hin. apply Hlater.
      apply list_elem_of_fmap in Hin as (n & -> & Hin). apply list_elem_of_fmap_2.
      apply list_elem_of_In, in_rev, list_elem_of_In, Hin.
  - destruct (specs !! Filter node) as [spec|] eqn:Hspec; [|discriminate].
    destruct (QueryFilterRegistry (specKind spec)) as [root|] eqn:Hroot; [|discriminate].
    injection Hdecl as <-.
    eapply validateJumpIfs_rejects_result; eauto.
Qed.

Lemma lastNamed_cons (name : string) (f : RawSpec) (fs : list RawSpec) (spec : FilterSpec) :
  NewFilterSpec f None = inl spec ->
  lastNamed name (f :: fs) =
  match lastNamed name fs with
  | Some spec' => Some spec'
  | None => if decide (specName spec = name) then Some spec else None
  end.
Proof.
  intros Hspec. unfold lastNamed, builtSpecs. cbn [omap list_omap]. rewrite Hspec.
  rewrite filter_cons. case_decide.
  - rewrite last_cons. now destruct (last _).
  - now destruct (last _).
Qed.

Lemma validateFilterSpecs_table (fs : list RawSpec) (specs0 : gmap string FilterSpec) :
  Forall (fun f => exists spec, NewFilterSpec f None = inl spec /\
                                specName spec ≠ builtInFilterEnd) fs ->
  exists specs,
    validateFilterSpecs fs specs0 = inr specs /\
    forall name, specs !! name =
                 match lastNamed name fs with
                 | Some spec => Some spec
                 | None => specs0 !! name
                 end.
Proof.
  intros Hok. revert specs0.
  induction Hok as [|f fs (spec & Hspec & Hname) _ IH]; intros specs0.
  - exists specs0. split; [reflexivity|]. intros name. reflexivity.
  - cbn [validateFilterSpecs]. rewrite Hspec. unfold isBuiltInFilter.
    rewrite bool_decide_eq_false_2 by assumption.
    destruct (IH (<[specName spec := spec]> specs0)) as (specs & -> & Htable).
    exists specs. split; [reflexivity|]. intros name.
    rewrite Htable, (lastNamed_cons name f fs spec Hspec).
    destruct (lastNamed name fs); [reflexivity|].
    rewrite lookup_insert. repeat case_decide; try reflexivity; congruence.
Qed.

(** C8, as amended. [Validate] does not reject a spec for holding two
    filter entries of one name: when every entry builds a filter spec whose
    name is not END, the first phase succeeds and its table holds, for each
    name, the last entry of that name; with an empty flow the spec
    validates. *)
Theorem Validate_keeps_last_of_duplicates (fs : list RawSpec) :
  Forall (fun f => exists spec, NewFilterSpec f None = inl spec /\
                                specName spec ≠ builtInFilterEnd) fs ->
  (exists specs, validateFilterSpecs fs ∅ = inr specs /\
                 forall name, specs !! name = lastNamed name fs) /\
  Validate {| Flow := []; Filters := fs |} = None.
Proof.
  intros Hok. destruct (validateFilterSpecs_table fs ∅ Hok) as (specs & Hspecs & Htable).
  split.
  - exists specs. split; [assumption|]. intros name. rewrite Htable, lookup_empty.
    now destruct (lastNamed name fs).
  - unfold Validate. cbn [Filters Flow]. rewrite Hspecs. reflexivity.
Qed.

Lemma validateJumpIfs_withoutResponseID (specs : gmap string FilterSpec)
    (nodes : list FlowNode) (validNames : gmap string bool) :
  validateJumpIfs specs (withoutResponseID <$> nodes) validNames =
  validateJumpIfs specs nodes validNames.
Proof.
  revert validNames. induction nodes as [|n nodes IH]; intros validNames; [reflexivity|].
  rewrite fmap_cons. cbn [validateJumpIfs withoutResponseID Filter JumpIf].
  rewrite IH. case_bool_decide; [reflexivity|].
  destruct (specs !! Filter n) as [spec|]; [|reflexivity].
  destruct (QueryFilterRegistry (specKind spec)); [|reflexivity].
  now rewrite IH.
Qed.

Lemma validateRequestIDs_withoutResponseID (nodes : list FlowNode)
    (validNames : gmap string bool) :
  validateRequestIDs (withoutResponseID <$> nodes) validNames =
  validateRequestIDs nodes validNames.
Proof.
  revert validNames. induction nodes as [|n nodes IH]; intros validNames; [reflexivity|].
  rewrite fmap_cons.
  cbn [validateRequestIDs withoutResponseID Filter UseRequest RequestID].
  now rewrite IH.
Qed.

Lemma Validate_withoutResponseID (flow : list FlowNode) (fs : list RawSpec) :
  Validate {| Flow := withoutResponseID <$> flow; Filters := fs |} =
  Validate {| Flow := flow; Filters := fs |}.
Proof.
  unfold Validate. cbn [Flow Filters].
  destruct (validateFilterSpecs fs ∅) as [r|specs]; [reflexivity|].
  rewrite <- map_rev. change (map withoutResponseID (rev flow))
    with (withoutResponseID <$> rev flow).
  now rewrite validateJumpIfs_withoutResponseID, validateRequestIDs_withoutResponseID.
Qed.

(** [Validate] never reads [ResponseID]. *)
Lemma Validate_ignores_ResponseID (flow1 flow2 : list FlowNode) (fs : list RawSpec) :
  withoutResponseID <$> flow1 = withoutResponseID <$> flow2 ->
  Validate {| Flow := flow1; Filters := fs |} = Validate {| Flow := flow2; Filters := fs |}.
Proof.
  intros Heq.
  rewrite <- (Validate_withoutResponseID flow1), <- (Validate_withoutResponseID flow2).
  now rewrite Heq.
Qed.

Lemma validateRequestIDs_rejects (pre post : list FlowNode) (node : FlowNode)
    (validNames : gmap string bool) :
  UseRequest node ≠ "" ->
  getBool validNames (UseRequest node) = false ->
  UseRequest node ∉ RequestID <$> pre ->
  is_Some (validateRequestIDs (pre ++ node :: post) validNames).
Proof.
  intros Huse. revert validNames.
  induction pre as [|n pre IH]; intros validNames Hvalid Hpre; cbn [app validateRequestIDs].
  - rewrite bool_decide_eq_true_2, Hvalid by assumption. cbn. eauto.
  - rewrite fmap_cons, not_elem_of_cons in Hpre. destruct Hpre as [Hn Hpre].
    destruct (bool_decide (UseRequest n ≠ "") && negb (getBool validNames (UseRequest n)));
      [eauto|].
    apply IH; [|assumption].
    case_bool_decide; [|assumption].
    rewrite getBool_insert, bool_decide_eq_false_2; [assumption|congruence].
Qed.

(** X21. [Validate] checks request identifiers, left to right from the
    set that holds [Default]: a flow node whose [useRequest] is neither
    empty, nor [Default], nor the [requestID] of an earlier node makes it
    return an error.  It never reads a [responseID]: two specs that differ
    in the [responseID] of their nodes only have the same outcome. *)
Theorem Validate_checks_requests_only :
  (forall (s : Spec) (pre post : list FlowNode) (node : FlowNode),
     Flow s = pre ++ node :: post ->
     UseRequest node ≠ "" ->
     UseRequest node ≠ defaultRequest ->
     UseRequest node ∉ RequestID <$> pre ->
     Validate s ≠ None) /\
  (forall (flow1 flow2 : list FlowNode) (fs : list RawSpec),
     withoutResponseID <$> flow1 = withoutResponseID <$> flow2 ->
     Validate {| Flow := flow1; Filters := fs |} =
     Validate {| Flow := flow2; Filters := fs |}).
Proof.
  split; [|apply Validate_ignores_ResponseID].
  intros s pre post node Hflow Huse Hdefault Hpre. unfold Validate.
  destruct (validateFilterSpecs (Filters s) ∅) as [r|specs]; [discriminate|].
  destruct (validateJumpIfs specs (rev (Flow s)) _); [discriminate|].
  rewrite Hflow.
  destruct (validateRequestIDs_rejects pre post node {[defaultRequest := true]})
    as [r ->]; try assumption; [|discriminate].
  rewrite getBool_singleton. apply bool_decide_eq_false_2. congruence.
Qed.

End ValidateFacts.

(** ** Validate on concrete specs *)

Lemma Validate_rejects_jump_witness :
  pipeline.Validate
    {| pipeline.Flow := [fixture.node "A" []; fixture.node "B" [("fail", "A")]];
       pipeline.Filters := [("A", "Skipper"); ("B", "Flaky")] |} ≠ None.
Proof.
  apply (Validate_rejects_jump _ [fixture.node "A" []] [] (fixture.node "B" [("fail", "A")])
           "fail" "A").
  - reflexivity.
  - vm_compute. discriminate.
  - vm_compute. reflexivity.
  - left. split; [vm_compute; discriminate | apply not_elem_of_nil].
Defined.

(** C4, as stated, fails at a node that names END: the loop skips it
    before it looks at its jumpIf. *)
Lemma Validate_accepts_jump_from_END :
  let n := fixture.node "END" [("skip", "nowhere")] in
  let s := {| pipeline.Flow := [n]; pipeline.Filters := [] |} in
  pipeline.JumpIf n !! "skip" = Some "nowhere" /\
  "nowhere" ≠ pipeline.builtInFilterEnd /\
  ("nowhere" ∉ pipeline.Filter <$> []) /\
  pipeline.Validate s = None.
Proof.
  repeat split; [vm_compute; discriminate | apply not_elem_of_nil].
Qed.

Lemma Validate_keeps_last_of_duplicates_witness :
  (exists specs,
     @pipeline.validateFilterSpecs fixture.registry [("A", "Skipper"); ("A", "Flaky")] ∅
       = inr specs /\
     forall name,
       specs !! name
         = @pipeline.lastNamed fixture.registry name [("A", "Skipper"); ("A", "Flaky")]) /\
  pipeline.Validate
    {| pipeline.Flow := []; pipeline.Filters := [("A", "Skipper"); ("A", "Flaky")] |} = None.
Proof.
  apply (@Validate_keeps_last_of_duplicates fixture.registry
           [("A", "Skipper"); ("A", "Flaky")]).
  repeat constructor.
  - eexists. split; [reflexivity | vm_compute; discriminate].
  - eexists. split; [reflexivity | vm_compute; discriminate].
Defined.

(** C8, as stated, fails: two entries named A, and [Validate] returns
    nil. *)
Lemma Validate_accepts_duplicate_names :
  let fs : list (string * string) := [("A", "Skipper"); ("A", "Flaky")] in
  pipeline.specName <$> @pipeline.builtSpecs fixture.registry fs = ["A"; "A"] /\
  pipeline.Validate {| pipeline.Flow := []; pipeline.Filters := fs |} = None.
Proof. split; reflexivity. Qed.

Lemma Validate_checks_requests_only_witness :
  pipeline.Validate
    {| pipeline.Flow :=
         [fixture.node "A" [];
          {| pipeline.Filter := "B"; pipeline.RequestID := ""; pipeline.ResponseID := "";
             pipeline.UseRequest := "r1"; pipeline.JumpIf := ∅; pipeline.filter_ := None |}];
       pipeline.Filters := [("A", "Skipper"); ("B", "Flaky")] |} ≠ None.
Proof.
  apply (proj1 Validate_checks_requests_only _ [fixture.node "A" []] []
           {| pipeline.Filter := "B"; pipeline.RequestID := ""; pipeline.ResponseID := "";
              pipeline.UseRequest := "r1"; pipeline.JumpIf := ∅; pipeline.filter_ := None |}).
  - reflexivity.
  - vm_compute. discriminate.
  - vm_compute. discriminate.
  - vm_compute. intros Hin. apply list_elem_of_singleton in Hin. discriminate.
Defined.

(** * Properties of Handle *)

Section StringFacts.
Import pipeline.

Lemma append_assoc (a b c : string) : (a +:+ b) +:+ c = a +:+ (b +:+ c).
Proof.
  induction a as [|x a IH]; [reflexivity|].
  change (String x ((a +:+ b) +:+ c) = String x (a +:+ (b +:+ c))).
  now rewrite IH.
Qed.

Lemma append_empty_r (a : string) : a +:+ "" = a.
Proof.
  induction a as [|x a IH]; [reflexivity|].
  change (String x (a +:+ "") = String x a).
  now rewrite IH.
Qed.

Lemma concat_arrows (e : string) (entries : list string) :
  String.concat "->" (e :: entries) = e +:+ arrows entries.
Proof.
  revert e. induction entries as [|e' entries IH]; intros e.
  - cbn. now rewrite append_empty_r.
  - change (String.concat "->" (e :: e' :: entries))
      with (e +:+ "->" +:+ String.concat "->" (e' :: entries)).
    rewrite IH. reflexivity.
Qed.

End StringFacts.

Section SerializeFacts.
Import pipeline.
Context `{Runtime}.

Lemma writeStat_entry (i : nat) (stat : FilterStat) (sb : string) :
  writeStat i stat sb = sb +:+ (if bool_decide (0 < i)%nat then "->" else "") +:+ entry stat.
Proof.
  unfold writeStat, entry.
  destruct (bool_decide (0 < i)%nat); repeat case_bool_decide; try congruence;
    rewrite ?append_assoc; reflexivity.
Qed.

Lemma writeStats_arrows (i : nat) (stats : list FilterStat) (sb : string) :
  writeStats (S i) stats sb = sb +:+ arrows (entry <$> stats).
Proof.
  revert i sb. induction stats as [|stat stats IH]; intros i sb; cbn [writeStats].
  - cbn. now rewrite append_empty_r.
  - rewrite IH, writeStat_entry, bool_decide_eq_true_2 by lia.
    rewrite fmap_cons. cbn [arrows]. now rewrite !append_assoc.
Qed.

(** [serializeStats] writes the tag of the specification, except that the
    entry of an empty result label has no comma. *)
Lemma serializeStats_tagOf (stats : list FilterStat) :
  stats ≠ [] -> serializeStats stats = tagOf stats.
Proof.
  destruct stats as [|stat stats]; [congruence|]. intros _.
  unfold serializeStats, tagOf.
  rewrite bool_decide_eq_false_2 by discriminate.
  cbn [writeStats]. rewrite writeStats_arrows, writeStat_entry.
  rewrite bool_decide_eq_false_2 by lia.
  rewrite fmap_cons, concat_arrows. cbn [String.append]. now rewrite !append_assoc.
Qed.

End SerializeFacts.

Section HandleFacts.
Import pipeline.
Context `{Runtime}.

Lemma loop_steps (flow : list FlowNode) (s : LoopState) :
  loop flow s =
  match steps flow s with
  | Continue s' | Break s' => Some s'
  | Panic => None
  end.
Proof.
  revert s. induction flow as [|node flow IH]; intros s; cbn [loop steps]; [reflexivity|].
  destruct (iteration node s); [apply IH | reflexivity | reflexivity].
Qed.

Lemma steps_app (pre post : list FlowNode) (s s' : LoopState) :
  steps pre s = Continue s' -> steps (pre ++ post) s = steps post s'.
Proof.
  revert s. induction pre as [|node pre IH]; intros s Hpre; cbn [steps app] in *.
  - now injection Hpre as ->.
  - destruct (iteration node s); try discriminate. now apply IH.
Qed.

(** What one turn of the loop does to the state. *)
Lemma iteration_cases (node : FlowNode) (s : LoopState) :
  iteration node s = Continue s \/
  iteration node s = Break s \/
  (filter_ node = None /\ iteration node s = Panic) \/
  exists f stat w,
    filter_ node = Some f /\
    statKind stat = Kind f /\
    statName stat = Filter node /\
    (statResult stat, w) = FilterHandle f (Now (world s)).2 /\
    let s' := {| result := statResult stat;
                 next := if bool_decide (statResult stat ≠ "")
                         then getString (JumpIf node) (statResult stat)
                         else next s;
                 stats := stats s ++ [stat];
                 world := (Now w).2 |} in
    iteration node s = Continue s' \/ iteration node s = Break s'.
Proof.
  unfold iteration.
  destruct (bool_decide (next s ≠ "") && bool_decide (Filter node ≠ next s)); [auto|].
  case_bool_decide; [auto|].
  destruct (Now (world s)) as [t0 w0] eqn:Hnow.
  destruct (filter_ node) as [f|]; [|auto].
  destruct (FilterHandle f w0) as [label w1] eqn:Hhandle.
  destruct (Now w1) as [t1 w2] eqn:Hnow1.
  do 3 right.
  exists f, {| statName := Filter node; statKind := Kind f;
               statDuration := t1 - t0; statResult := label |}, w1.
  cbn [statKind statName statResult snd]. rewrite Hnow1. cbn [snd].
  repeat split; try reflexivity; [now symmetry|].
  case_bool_decide; auto.
Qed.

(** Every bound flow is handled without a panic. *)
Lemma iteration_bound (node : FlowNode) (s : LoopState) :
  (Filter node ≠ builtInFilterEnd -> is_Some (filter_ node)) ->
  iteration node s ≠ Panic.
Proof.
  intros Hbound. unfold iteration.
  destruct (bool_decide (next s ≠ "") && bool_decide (Filter node ≠ next s)); [discriminate|].
  case_bool_decide as Hend; [discriminate|].
  destruct (Hbound Hend) as [f ->].
  destruct (Now (world s)), (FilterHandle f _), (Now _).
  case_bool_decide; discriminate.
Qed.

Lemma steps_bound (flow : list FlowNode) (s : LoopState) :
  bound flow -> steps flow s ≠ Panic.
Proof.
  intros Hbound. revert s. induction Hbound as [|node flow Hnode _ IH]; intros s;
    cbn [steps]; [discriminate|].
  pose proof (iteration_bound node s Hnode).
  destruct (iteration node s); [apply IH | discriminate | congruence].
Qed.

Lemma loop_bound (flow : list FlowNode) (s : LoopState) :
  bound flow -> is_Some (loop flow s).
Proof.
  intros Hbound. rewrite loop_steps. pose proof (steps_bound flow s Hbound).
  destruct (steps flow s); eauto. congruence.
Qed.

(** An invariant of the turns of the loop holds of the state it ends in. *)
Lemma loop_invariant (P : LoopState -> Prop) (flow : list FlowNode) (s s' : LoopState) :
  (forall node s1 s2,
     P s1 -> iteration node s1 = Continue s2 \/ iteration node s1 = Break s2 -> P s2) ->
  P s -> loop flow s = Some s' -> P s'.
Proof.
  intros Hstep. revert s. induction flow as [|node flow IH]; intros s Hs Hloop;
    cbn [loop] in Hloop.
  - now injection Hloop as <-.
  - destruct (iteration node s) as [s1|s1|] eqn:Hit; [|injection Hloop as <-|discriminate].
    + eapply IH; [|eassumption]. eauto.
    + eauto.
Qed.

End HandleFacts.

Section TracedFacts.
Import pipeline.
Variable R : Runtime.

Lemma iteration_erase (node : FlowNode) (s : @LoopState (traced R)) :
  @iteration R node (erase R s) = eraseOutcome R (@iteration (traced R) node s).
Proof.
  unfold iteration. cbn [erase next world Now FilterHandle traced result stats].
  destruct (bool_decide (next s ≠ "") && bool_decide (Filter node ≠ next s)); [reflexivity|].
  case_bool_decide; [reflexivity|].
  destruct (@Now R (world s).1) as [t0 w0]. cbn [fst snd].
  destruct (filter_ node) as [f|]; [|reflexivity].
  destruct (@FilterHandle R f w0) as [label w1]. cbn [fst snd].
  destruct (@Now R w1) as [t1 w2].
  case_bool_decide; reflexivity.
Qed.

Lemma loop_erase (flow : list FlowNode) (s : @LoopState (traced R)) :
  @loop R flow (erase R s) = erase R <$> @loop (traced R) flow s.
Proof.
  revert s. induction flow as [|node flow IH]; intros s; cbn [loop]; [reflexivity|].
  rewrite iteration_erase.
  destruct (@iteration (traced R) node s); cbn [eraseOutcome]; [apply IH|reflexivity|reflexivity].
Qed.

Lemma traced_Now_log (w : @World (traced R)) : (@Now (traced R) w).2.2 = w.2.
Proof. cbn. now destruct (@Now R w.1). Qed.

Lemma traced_FilterHandle_log (f : FilterRef) (w w' : @World (traced R)) (label : string) :
  (label, w') = @FilterHandle (traced R) f w -> w'.2 = w.2 ++ [(f, label)].
Proof. cbn. destruct (@FilterHandle R f w.1). now intros [= -> ->]. Qed.

Lemma lastLabel_snoc (log : list (FilterRef * string)) (f : FilterRef) (label : string) :
  lastLabel (log ++ [(f, label)]) = label.
Proof.
  unfold lastLabel. rewrite fmap_app.
  change (snd <$> [(f, label)]) with [label]. now rewrite last_snoc.
Qed.

Lemma inStep_iteration (node : FlowNode) (s1 s2 : @LoopState (traced R)) :
  inStep R s1 ->
  @iteration (traced R) node s1 = Continue s2 \/ @iteration (traced R) node s1 = Break s2 ->
  inStep R s2.
Proof.
  intros [Hstats Hresult] Hit.
  destruct (@iteration_cases (traced R) node s1)
    as [Hc|[Hb|[[_ Hp]|(f & stat & w & _ & Hkind & _ & Hhandle & Hs')]]].
  - rewrite Hc in Hit. destruct Hit as [[= <-]|[=]]. now split.
  - rewrite Hb in Hit. destruct Hit as [[=]|[= <-]]. now split.
  - rewrite Hp in Hit. now destruct Hit.
  - apply traced_FilterHandle_log in Hhandle. rewrite traced_Now_log in Hhandle.
    assert (s2 = {| result := statResult stat;
                    next := if bool_decide (statResult stat ≠ "")
                            then getString (JumpIf node) (statResult stat)
                            else next s1;
                    stats := stats s1 ++ [stat];
                    world := (@Now (traced R) w).2 |}) as ->.
    { cbv zeta in Hs'. destruct Hs' as [Hs'|Hs'], Hit as [Hit|Hit]; congruence. }
    unfold inStep. cbn [stats world result]. rewrite traced_Now_log, Hhandle.
    split; [|now rewrite lastLabel_snoc].
    apply Forall2_app; [assumption|]. constructor; [|constructor]. now split.
Qed.

Lemma inStep_loop (flow : list FlowNode) (ctx : @World R) (s : @LoopState (traced R)) :
  @loop (traced R) flow (@initial (traced R) (ctx, [])) = Some s -> inStep R s.
Proof.
  apply (@loop_invariant (traced R) (inStep R)); [apply inStep_iteration|].
  split; [constructor|reflexivity].
Qed.

Lemma Handle_erase (flow : list FlowNode) (ctx : @World R) :
  @Handle R flow ctx =
  (fun r : string * @World (traced R) => (r.1, r.2.1)) <$> @Handle (traced R) flow (ctx, []).
Proof.
  unfold Handle. change (@initial R ctx) with (erase R (@initial (traced R) (ctx, []))).
  rewrite loop_erase. now destruct (@loop (traced R) flow _).
Qed.

(** C2. [Handle] returns the label returned by the last filter it invoked,
    the empty string if it invoked none: so it is whenever [Handle]
    returns, and it returns on every flow whose filters are bound.  An
    empty flow and a flow that consists of the END node return the empty
    label. *)
Theorem Handle_returns_last_label (ctx : @World R) :
  (forall (flow : list FlowNode) label w log,
     @Handle (traced R) flow (ctx, []) = Some (label, (w, log)) ->
     @Handle R flow ctx = Some (label, w) /\ label = lastLabel log) /\
  (forall flow : list FlowNode,
     bound flow ->
     exists label w log,
       @Handle (traced R) flow (ctx, []) = Some (label, (w, log)) /\
       @Handle R flow ctx = Some (label, w) /\
       label = lastLabel log) /\
  @Handle R [] ctx = Some ("", @AddTag R "pipeline: <empty>" ctx) /\
  (forall node : FlowNode,
     Filter node = builtInFilterEnd ->
     @Handle R [node] ctx = Some ("", @AddTag R "pipeline: <empty>" ctx)).
Proof.
  assert (forall (flow : list FlowNode) label w log,
            @Handle (traced R) flow (ctx, []) = Some (label, (w, log)) ->
            @Handle R flow ctx = Some (label, w) /\ label = lastLabel log) as Hreturns.
  { intros flow label w log Hhandle. rewrite Handle_erase, Hhandle. split; [reflexivity|].
    unfold Handle in Hhandle.
    destruct (@loop (traced R) flow _) as [s|] eqn:Hs; [|discriminate].
    destruct (inStep_loop flow ctx s Hs) as [_ Hresult].
    injection Hhandle as <- _ <-. exact Hresult. }
  split; [exact Hreturns|]. split; [|split].
  - intros flow Hbound.
    destruct (@loop_bound (traced R) flow (@initial (traced R) (ctx, [])) Hbound) as [s Hs].
    assert (exists label w log,
              @Handle (traced R) flow (ctx, []) = Some (label, (w, log)))
      as (label & w & log & Hhandle).
    { unfold Handle. rewrite Hs. destruct (world s) as [w log].
      now exists (result s), (@AddTag R (@serializeStats R (stats s)) w), log. }
    exists label, w, log. split; [assumption|]. now apply Hreturns.
  - reflexivity.
  - intros node Hend. unfold Handle. cbn [loop]. unfold iteration.
    cbn [initial next]. rewrite (bool_decide_eq_false_2 ("" ≠ "")) by (intros Hne; now apply Hne).
    cbn [andb]. now rewrite bool_decide_eq_true_2.
Qed.

End TracedFacts.

(** * Handle as its collaborators see it *)

Section ObservedFacts.
Import pipeline.
Variable R : Runtime.

Lemma iteration_unobserved (node : FlowNode) (s : @LoopState (observed R)) :
  @iteration R node (unobserved R s) = unobservedOutcome R (@iteration (observed R) node s).
Proof.
  unfold iteration. cbn [unobserved next world Now FilterHandle observed result stats].
  destruct (bool_decide (next s ≠ "") && bool_decide (Filter node ≠ next s)); [reflexivity|].
  case_bool_decide; [reflexivity|].
  destruct (@Now R (world s).1) as [t0 w0]. cbn [fst snd].
  destruct (filter_ node) as [f|]; [|reflexivity].
  destruct (@FilterHandle R f w0) as [label w1]. cbn [fst snd].
  destruct (@Now R w1) as [t1 w2].
  case_bool_decide; reflexivity.
Qed.

Lemma loop_unobserved (flow : list FlowNode) (s : @LoopState (observed R)) :
  @loop R flow (unobserved R s) = unobserved R <$> @loop (observed R) flow s.
Proof.
  revert s. induction flow as [|node flow IH]; intros s; cbn [loop]; [reflexivity|].
  rewrite iteration_unobserved.
  destruct (@iteration (observed R) node s); cbn [unobservedOutcome];
    [apply IH|reflexivity|reflexivity].
Qed.

Lemma Handle_unobserved (flow : list FlowNode) (ctx : @World R) :
  @Handle R flow ctx =
  (fun r : string * @World (observed R) => (r.1, r.2.1)) <$> @Handle (observed R) flow (ctx, []).
Proof.
  unfold Handle. change (@initial R ctx) with (unobserved R (@initial (observed R) (ctx, []))).
  rewrite loop_unobserved. now destruct (@loop (observed R) flow _).
Qed.

Lemma handleStats_unobserved (flow : list FlowNode) (ctx : @World R) :
  @handleStats R flow ctx = @handleStats (observed R) flow (ctx, []).
Proof.
  unfold handleStats.
  change (@initial R ctx) with (unobserved R (@initial (observed R) (ctx, []))).
  rewrite loop_unobserved. now destruct (@loop (observed R) flow _).
Qed.

(** A turn of the observed loop at a node that is neither skipped nor END
    and has its filter bound: the journal gains one invocation, the
    statistics gain its entry. *)
Lemma observed_runs (node : FlowNode) (s : @LoopState (observed R)) (f : FilterRef) :
  next s = "" \/ next s = Filter node ->
  Filter node ≠ builtInFilterEnd ->
  filter_ node = Some f ->
  exists (i : Invocation) (s' : @LoopState (observed R)),
    atNode i = node /\
    invoked i = f /\
    result s' = returned i /\
    next s' = (if bool_decide (returned i ≠ "")
               then getString (JumpIf node) (returned i) else next s) /\
    stats s' = stats s ++ [statOf i] /\
    (world s').2 = (world s).2 ++ eventsOf i /\
    @iteration (observed R) node s
      = if bool_decide (next s' = builtInFilterEnd) then Break s' else Continue s'.
Proof.
  intros Hnext Hend Hf. unfold iteration. rewrite Hf.
  assert (bool_decide (next s ≠ "") && bool_decide (Filter node ≠ next s) = false) as ->.
  { destruct Hnext as [Hnext|Hnext].
    - rewrite (bool_decide_eq_false_2 (next s ≠ "")); [reflexivity|]. intros Hne; congruence.
    - rewrite (bool_decide_eq_false_2 (Filter node ≠ next s)); [apply andb_false_r|].
      intros Hne; congruence. }
  rewrite bool_decide_eq_false_2 by assumption.
  cbn [Now FilterHandle observed].
  destruct (@Now R (world s).1) as [t0 w0]. cbn [fst snd].
  destruct (@FilterHandle R f w0) as [label w1]. cbn [fst snd].
  destruct (@Now R w1) as [t1 w2].
  exists {| atNode := node; invoked := f; started := t0; returned := label; ended := t1 |}.
  eexists (@Build_LoopState (observed R) label
             (if bool_decide (label ≠ "") then getString (JumpIf node) label else next s)
             (stats s ++ [_]) (w2, _)).
  cbn [atNode invoked returned result next stats world snd].
  do 5 (split; [reflexivity|]). split; [|reflexivity].
  unfold eventsOf. cbn [started invoked returned ended]. now rewrite <- !app_assoc.
Qed.

Lemma observed_iteration (node : FlowNode) (s : @LoopState (observed R)) :
  @iteration (observed R) node s = Continue s \/
  @iteration (observed R) node s = Break s \/
  @iteration (observed R) node s = Panic \/
  exists (i : Invocation) (s' : @LoopState (observed R)),
    atNode i = node /\
    filter_ node = Some (invoked i) /\
    stats s' = stats s ++ [statOf i] /\
    (world s').2 = (world s).2 ++ eventsOf i /\
    (@iteration (observed R) node s = Continue s' \/
     @iteration (observed R) node s = Break s').
Proof.
  destruct (bool_decide (next s ≠ "") && bool_decide (Filter node ≠ next s)) eqn:Hskip.
  { left. unfold iteration. now rewrite Hskip. }
  destruct (decide (Filter node = builtInFilterEnd)) as [Hend|Hend].
  { right. left. unfold iteration. now rewrite Hskip, bool_decide_eq_true_2. }
  destruct (filter_ node) as [f|] eqn:Hf.
  - do 3 right.
    assert (next s = "" \/ next s = Filter node) as Hnext.
    { apply andb_false_iff in Hskip as [Hskip|Hskip]; apply bool_decide_eq_false in Hskip;
        apply dec_stable in Hskip; auto. }
    destruct (observed_runs node s f Hnext Hend Hf)
      as (i & s' & Hnode & Hi & _ & _ & Hstats & Hlog & Hit).
    exists i, s'. rewrite Hi. do 4 (split; [first [assumption|reflexivity]|]).
    rewrite Hit. case_bool_decide; auto.
  - do 2 right. left. unfold iteration. rewrite Hskip, bool_decide_eq_false_2, Hf by assumption.
    cbn [Now observed]. now destruct (@Now R (world s).1).
Qed.

(** The journal of the loop is made of whole invocations, at nodes of the
    flow in the order of the flow, and the statistics are their entries. *)
Lemma observed_loop (flow : list FlowNode) (s s' : @LoopState (observed R)) :
  @loop (observed R) flow s = Some s' ->
  exists runs,
    (world s').2 = (world s).2 ++ flat_map eventsOf runs /\
    stats s' = stats s ++ (statOf <$> runs) /\
    atNode <$> runs `sublist_of` flow /\
    Forall (fun i => filter_ (atNode i) = Some (invoked i)) runs.
Proof.
  revert s. induction flow as [|node flow IH]; intros s Hloop; cbn [loop] in Hloop.
  - injection Hloop as <-. exists []. cbn. rewrite !app_nil_r. now repeat split.
  - destruct (observed_iteration node s)
      as [Hc|[Hb|[Hp|(i & s1 & Hnode & Hf & Hstats & Hlog & Hit)]]].
    + rewrite Hc in Hloop. destruct (IH s Hloop) as (runs & Hlog & Hstats & Hsub & Hbound).
      exists runs. do 2 (split; [assumption|]). split; [now apply sublist_cons|assumption].
    + rewrite Hb in Hloop. injection Hloop as <-. exists []. cbn. rewrite !app_nil_r.
      split; [reflexivity|]. split; [reflexivity|]. split; [apply sublist_nil_l|constructor].
    + now rewrite Hp in Hloop.
    + assert (exists runs,
                (world s').2 = (world s1).2 ++ flat_map eventsOf runs /\
                stats s' = stats s1 ++ (statOf <$> runs) /\
                atNode <$> runs `sublist_of` flow /\
                Forall (fun i => filter_ (atNode i) = Some (invoked i)) runs)
        as (runs & Hlog' & Hstats' & Hsub & Hbound).
      { destruct Hit as [Hit|Hit]; rewrite Hit in Hloop.
        - now apply IH.
        - injection Hloop as <-. exists []. cbn. rewrite !app_nil_r.
          split; [reflexivity|]. split; [reflexivity|]. split; [apply sublist_nil_l|constructor]. }
      exists (i :: runs). cbn [flat_map]. rewrite !fmap_cons, Hlog', Hstats', Hlog, Hstats, Hnode.
      rewrite <- !app_assoc. split; [reflexivity|]. split; [reflexivity|].
      split; [now apply sublist_skip|]. constructor; [now rewrite Hnode|assumption].
Qed.

(** C5, as amended. When [Handle] ends, the tag it attaches, the last
    event of the journal, is [pipeline: ] followed by one entry per
    invocation of a filter, in the order of the invocations, joined by
    [->]; the entry bears the name of the node, the time between the two
    readings of the clock around the call, and the label; it is
    [name(result,dur)] for a filter that returned a label and [name(dur)],
    with no comma, for a filter that returned the empty label.  [Handle]
    ends on every flow whose filters are bound. *)
Theorem Handle_tags_invocations (flow : list FlowNode) (ctx : @World R) :
  (forall label w journal,
     @Handle (observed R) flow (ctx, []) = Some (label, (w, journal)) ->
     exists runs,
       journal = flat_map eventsOf runs ++ [EvTag (@serializeStats R (statOf <$> runs))] /\
       atNode <$> runs `sublist_of` flow /\
       Forall (fun i => filter_ (atNode i) = Some (invoked i)) runs /\
       @handleStats R flow ctx = Some (statOf <$> runs) /\
       @Handle R flow ctx = Some (label, w) /\
       (runs ≠ [] -> @serializeStats R (statOf <$> runs) = @tagOf R (statOf <$> runs))) /\
  (bound flow -> is_Some (@Handle (observed R) flow (ctx, []))).
Proof.
  split.
  - intros label w journal Hhandle.
    assert (@Handle R flow ctx = Some (label, w)) as Hplain
      by now rewrite Handle_unobserved, Hhandle.
    assert (@handleStats R flow ctx
            = stats <$> @loop (observed R) flow (@initial (observed R) (ctx, []))) as Hstats.
    { unfold handleStats.
      change (@initial R ctx) with (unobserved R (@initial (observed R) (ctx, []))).
      rewrite loop_unobserved. now destruct (@loop (observed R) flow _). }
    unfold Handle in Hhandle.
    destruct (@loop (observed R) flow _) as [s|] eqn:Hloop; [|discriminate].
    destruct (observed_loop flow _ s Hloop) as (runs & Hlog & Hruns & Hsub & Hbound).
    cbn [initial world stats snd app] in Hlog, Hruns.
    exists runs. injection Hhandle as _ _ <-.
    cbn [AddTag observed snd]. rewrite Hlog, Hruns, Hstats. cbn [fmap option_fmap option_map].
    rewrite Hruns. do 5 (split; [first [reflexivity|assumption]|]).
    intros Hne. apply (@serializeStats_tagOf R). now destruct runs.
  - intros Hbound.
    destruct (@loop_bound (observed R) flow (@initial (observed R) (ctx, [])) Hbound) as [s Hs].
    unfold Handle. rewrite Hs. eauto.
Qed.

End ObservedFacts.

Section JumpFacts.
Import pipeline.
Context `{Runtime}.

Lemma iteration_skip (node : FlowNode) (s : LoopState) :
  next s ≠ "" -> Filter node ≠ next s -> iteration node s = Continue s.
Proof.
  intros Hnext Hnode. unfold iteration.
  now rewrite (bool_decide_eq_true_2 _ Hnext), (bool_decide_eq_true_2 _ Hnode).
Qed.

Lemma steps_skip (flow : list FlowNode) (s : LoopState) :
  next s ≠ "" -> Forall (fun n => Filter n ≠ next s) flow -> steps flow s = Continue s.
Proof.
  intros Hnext Hflow. induction Hflow as [|n flow Hn _ IH]; cbn [steps]; [reflexivity|].
  now rewrite iteration_skip.
Qed.

(** C10, as amended. When the loop reaches, with [next] naming it, a node
    whose filter returns the empty label, [next] keeps naming that filter;
    if no later node carries the same filter name, every remaining node is
    skipped, the state untouched, and [Handle] returns the empty string. *)
Theorem Handle_after_silent_jump (pre rest : list FlowNode) (node : FlowNode)
    (ctx : World) (s : LoopState) (f : FilterRef) :
  steps pre (initial ctx) = Continue s ->
  next s = Filter node ->
  next s ≠ "" ->
  Filter node ≠ builtInFilterEnd ->
  filter_ node = Some f ->
  (FilterHandle f (Now (world s)).2).1 = "" ->
  Forall (fun n => Filter n ≠ Filter node) rest ->
  exists s',
    iteration node s = Continue s' /\
    next s' = Filter node /\
    Forall (fun n => iteration n s' = Continue s') rest /\
    Handle (pre ++ node :: rest) ctx
      = Some ("", AddTag (serializeStats (stats s')) (world s')).
Proof.
  intros Hpre Hnext Hjump Hend Hf Hsilent Hrest.
  assert (exists s', iteration node s = Continue s' /\ next s' = Filter node /\ result s' = "")
    as (s' & Hit & Hnext' & Hresult).
  { unfold iteration. rewrite Hf.
    rewrite (bool_decide_eq_false_2 (Filter node ≠ next s)) by (intros Hne; now apply Hne).
    rewrite andb_false_r, bool_decide_eq_false_2 by assumption.
    destruct (Now (world s)) as [t0 w0]. cbn [snd] in Hsilent.
    destruct (FilterHandle f w0) as [label w1]. cbn [fst] in Hsilent. subst label.
    destruct (Now w1) as [t1 w2].
    rewrite (bool_decide_eq_false_2 ("" ≠ "")) by (intros Hne; now apply Hne).
    rewrite bool_decide_eq_false_2 by congruence.
    eexists. split; [reflexivity|]. cbn. now split. }
  exists s'. split; [assumption|]. split; [assumption|].
  assert (Forall (fun n => Filter n ≠ next s') rest) as Hrest' by now rewrite Hnext'.
  assert (next s' ≠ "") as Hjump' by congruence.
  split.
  - eapply Forall_impl; [exact Hrest'|]. intros n Hn. now apply iteration_skip.
  - unfold Handle. rewrite loop_steps, (steps_app pre (node :: rest) _ s Hpre).
    cbn [steps]. rewrite Hit, (steps_skip rest s' Hjump' Hrest'). now rewrite Hresult.
Qed.

End JumpFacts.

(** * Properties of Inherit *)

Section LifecycleFacts.
Import pipeline.
Context `{Registry}.

Lemma closeCount_app (f : FilterRef) (cs cs' : list Call) :
  closeCount f (cs ++ cs') = (closeCount f cs + closeCount f cs')%nat.
Proof. unfold closeCount. now rewrite filter_app, length_app. Qed.

Lemma handOff_not_Close (previousGeneration : option Pipeline) (filter f : FilterRef)
    (spec : FilterSpec) :
  handOff previousGeneration filter spec ≠ CallClose f.
Proof. unfold handOff. now destruct (previousGeneration ≫= _). Qed.

Lemma closeCount_handOff (previousGeneration : option Pipeline) (f : FilterRef)
    (created : list FilterRef) (specs : list FilterSpec) :
  closeCount f (zip_with (handOff previousGeneration) created specs) = 0%nat.
Proof.
  unfold closeCount. revert specs.
  induction created as [|filter created IH]; intros [|spec specs]; try reflexivity.
  cbn [zip_with]. rewrite filter_cons, decide_False by apply handOff_not_Close.
  apply IH.
Qed.

Lemma createFilters_calls (pipelineName : string) (super : option Supervisor)
    (rawSpecs : list RawSpec) (created created' : list FilterRef)
    (specs specs' : list FilterSpec) (h h' : Heap) :
  createFilters pipelineName super rawSpecs created specs h = Some (created', specs', h') ->
  length created = length specs ->
  calls h' = calls h /\ length created' = length specs'.
Proof.
  revert created specs h.
  induction rawSpecs as [|rawSpec rawSpecs IH]; intros created specs h Hcreate Hlen;
    cbn [createFilters] in Hcreate.
  - injection Hcreate as <- <- <-. now split.
  - destruct (NewFilterSpec rawSpec super) as [spec|]; [|discriminate].
    destruct (QueryFilterRegistry (specKind spec)) as [rootInst|]; [|discriminate].
    apply IH in Hcreate; [assumption|]. rewrite !length_app. cbn. lia.
Qed.

Lemma createFilters_total (pipelineName : string) (super : option Supervisor)
    (rawSpecs : list RawSpec) (created : list FilterRef) (specs : list FilterSpec) (h : Heap) :
  Forall (fun rawSpec => exists spec, NewFilterSpec rawSpec super = inl spec /\
                                      is_Some (QueryFilterRegistry (specKind spec))) rawSpecs ->
  is_Some (createFilters pipelineName super rawSpecs created specs h).
Proof.
  intros Hok. revert created specs h.
  induction Hok as [|rawSpec rawSpecs (spec & Hspec & [rootInst Hroot]) _ IH];
    intros created specs h; cbn [createFilters]; [eauto|].
  rewrite Hspec, Hroot. apply IH.
Qed.

Lemma initFilters_calls (previousGeneration : option Pipeline) (specs : list FilterSpec)
    (i : nat) (created : list FilterRef) (m : gmap string FilterRef) (h : Heap) :
  (length created + i <= length specs)%nat ->
  exists pfilters h',
    initFilters previousGeneration specs i created (Some m) h = Some (pfilters, h') /\
    calls h' = calls h ++ zip_with (handOff previousGeneration) created (drop i specs).
Proof.
  revert i m h. induction created as [|filter created IH]; intros i m h Hlen;
    cbn [initFilters length] in *.
  - exists (Some m), h. split; [reflexivity|]. cbn. now rewrite app_nil_r.
  - destruct (lookup_lt_is_Some_2 specs i) as [spec Hspec]; [lia|].
    rewrite Hspec, (drop_S _ _ _ Hspec). cbn [zip_with].
    set (h1 := match match previousGeneration with
                     | Some g => getFilter (filters g) (specName spec)
                     | None => None
                     end with
               | Some prev => call (CallInherit filter spec prev) h
               | None => call (CallInit filter spec) h
               end).
    destruct (IH (S i) (<[specName spec := filter]> m) h1) as (pfilters & h' & -> & Hcalls);
      [lia|].
    exists pfilters, h'. split; [reflexivity|]. rewrite Hcalls.
    assert (calls h1 = calls h ++ [handOff previousGeneration filter spec]) as ->.
    { subst h1. unfold handOff. destruct previousGeneration as [g|]; cbn [mbind option_bind];
        [destruct (getFilter (filters g) (specName spec))|]; reflexivity. }
    now rewrite <- app_assoc.
Qed.

(** What [createFilters] makes of the filter entries. *)
Lemma createFilters_instances (pipelineName : string) (super : option Supervisor)
    (rawSpecs : list RawSpec) (created created' : list FilterRef)
    (specs specs' : list FilterSpec) (h h' : Heap) :
  createFilters pipelineName super rawSpecs created specs h = Some (created', specs', h') ->
  exists newFilters newSpecs,
    created' = created ++ newFilters /\
    specs' = specs ++ newSpecs /\
    instancesOf pipelineName super (allocated h) rawSpecs newFilters newSpecs /\
    calls h' = calls h.
Proof.
  revert created specs h.
  induction rawSpecs as [|rawSpec rawSpecs IH]; intros created specs h Hcreate;
    cbn [createFilters] in Hcreate.
  - injection Hcreate as <- <- <-. exists [], []. rewrite !app_nil_r.
    repeat split; constructor.
  - destruct (NewFilterSpec rawSpec super) as [spec|] eqn:Hspec; [|discriminate].
    destruct (QueryFilterRegistry (specKind spec)) as [rootInst|] eqn:Hroot; [|discriminate].
    destruct (IH _ _ _ Hcreate) as (newFilters & newSpecs & -> & -> & (Hspecs & Hkinds & Haddr) & Hcalls).
    cbn [allocated calls] in Haddr, Hcalls.
    exists ({| addr := allocated h; Kind := rootKind rootInst |} :: newFilters),
           (withPipeline pipelineName spec :: newSpecs).
    rewrite <- !app_assoc. do 2 (split; [reflexivity|]). split; [|assumption].
    split; [|split].
    + constructor; [now exists spec|assumption].
    + constructor; [|assumption]. exists rootInst. now split.
    + cbn [length seq]. rewrite fmap_cons. cbn [addr]. now rewrite Haddr.
Qed.

(** [reload] runs to its end when the filter entries build and resolve
    and the map of the receiver is there to take them. *)
Lemma reload_runs (p : Pipeline) (previousGeneration : option Pipeline) (h : Heap) :
  Forall (fun rawSpec => exists spec,
            NewFilterSpec rawSpec (Super (superSpec p)) = inl spec /\
            is_Some (QueryFilterRegistry (specKind spec)))
    (Filters (spec p)) ->
  is_Some (filters p) \/ Filters (spec p) = [] ->
  is_Some (reload p previousGeneration h).
Proof.
  intros Hok Hmap. unfold reload.
  destruct (createFilters_total (superName (superSpec p)) (Super (superSpec p)) _ [] [] h Hok)
    as [[[created specs] h0] Hcreate].
  rewrite Hcreate.
  destruct (createFilters_calls _ _ _ _ _ _ _ _ _ Hcreate eq_refl) as [_ Hlen].
  assert (is_Some (initFilters previousGeneration specs 0 created (filters p) h0))
    as [[pfilters h1] ->].
  { destruct Hmap as [[m ->]|Hnil].
    - destruct (initFilters_calls previousGeneration specs 0 created m h0)
        as (pfilters & h' & -> & _); [lia|eauto].
    - rewrite Hnil in Hcreate. cbn [createFilters] in Hcreate.
      injection Hcreate as <- <- <-. cbn [initFilters]. eauto. }
  case_bool_decide; eauto.
Qed.

(** The calls [reload] has made when it ends: one per filter entry, in
    the order of the entries, on the instance created for the entry. *)
Lemma reload_calls (p p' : Pipeline) (previousGeneration : option Pipeline) (h h' : Heap) :
  reload p previousGeneration h = Some (p', h') ->
  exists created specs,
    instancesOf (superName (superSpec p)) (Super (superSpec p)) (allocated h)
      (Filters (spec p)) created specs /\
    calls h' = calls h ++ zip_with (handOff previousGeneration) created specs.
Proof.
  unfold reload. intros Hreload.
  destruct (createFilters _ _ _ _ _ _) as [[[created specs] h0]|] eqn:Hcreate; [|discriminate].
  destruct (createFilters_calls _ _ _ _ _ _ _ _ _ Hcreate eq_refl) as [_ Hlen].
  destruct (createFilters_instances _ _ _ _ _ _ _ _ _ Hcreate)
    as (newFilters & newSpecs & Hcreated & Hspecs & Hinstances & Hcalls0).
  cbn [app] in Hcreated, Hspecs. subst newFilters newSpecs.
  exists created, specs. split; [assumption|].
  destruct (initFilters _ _ _ _ _ _) as [[pfilters h1]|] eqn:Hinit; [|discriminate].
  assert (h1 = h') as -> by (case_bool_decide; now injection Hreload).
  destruct (filters p) as [m|].
  - destruct (initFilters_calls previousGeneration specs 0 created m h0)
      as (pfilters' & h'' & Hinit' & Hcalls); [lia|].
    rewrite Hinit in Hinit'. injection Hinit' as <- <-.
    now rewrite Hcalls, drop_0, Hcalls0.
  - destruct created as [|filter created]; cbn [initFilters] in Hinit.
    + injection Hinit as _ <-. cbn [zip_with]. now rewrite app_nil_r.
    + destruct (specs !! 0%nat); discriminate.
Qed.

(** C3, as amended. When [Inherit] ends, it has itself called [Close] on
    no filter of the previous generation, whether its name is absent from
    the new spec or present in it: the calls it has made are, for each
    filter entry of the new spec, in the order of the entries, one call on
    the instance it has created for the entry, [Inherit] with the
    instance the previous generation holds under the name of the entry
    when there is one, [Init] otherwise.  It ends whenever the entries
    build and resolve and the map of the receiver is not nil or the spec
    has no filter entry. *)
Theorem Inherit_closes_no_filter (p : Pipeline) (superSpec : SuperSpec)
    (previousGeneration : Pipeline) (h : Heap) :
  (forall p' h',
     Inherit p superSpec previousGeneration h = Some (p', h') ->
     exists created specs,
       instancesOf (superName superSpec) (Super superSpec) (allocated h)
         (Filters (ObjectSpec superSpec)) created specs /\
       calls h' = calls h ++ zip_with (handOff (Some previousGeneration)) created specs /\
       forall f, closeCount f (calls h') = closeCount f (calls h)) /\
  (Forall (fun rawSpec => exists spec,
             NewFilterSpec rawSpec (Super superSpec) = inl spec /\
             is_Some (QueryFilterRegistry (specKind spec)))
     (Filters (ObjectSpec superSpec)) ->
   is_Some (filters p) \/ Filters (ObjectSpec superSpec) = [] ->
   is_Some (Inherit p superSpec previousGeneration h)).
Proof.
  split.
  - intros p' h' Hinherit.
    destruct (reload_calls _ _ _ _ _ Hinherit) as (created & specs & Hinstances & Hcalls).
    exists created, specs. do 2 (split; [assumption|]).
    intros f. rewrite Hcalls, closeCount_app, closeCount_handOff. lia.
  - intros Hok Hmap. now apply reload_runs.
Qed.

End LifecycleFacts.

(** * Validated specs compile to bound flows *)

Section CompileFacts.
Import pipeline.
Context `{Registry}.

Lemma validateFilterSpecs_names (fs : list RawSpec) (specs0 specs : gmap string FilterSpec)
    (name : string) :
  validateFilterSpecs fs specs0 = inr specs ->
  is_Some (specs !! name) ->
  is_Some (specs0 !! name) \/
  exists f spec, f ∈ fs /\ NewFilterSpec f None = inl spec /\ specName spec = name.
Proof.
  revert specs0. induction fs as [|f fs IH]; intros specs0 Hvalid Hname;
    cbn [validateFilterSpecs] in Hvalid.
  - injection Hvalid as <-. now left.
  - destruct (NewFilterSpec f None) as [spec|] eqn:Hspec; [|discriminate].
    destruct (isBuiltInFilter (specName spec)); [discriminate|].
    destruct (IH _ Hvalid Hname) as [Hin|(f' & spec' & Hf' & Hspec' & Hname')].
    + rewrite lookup_insert in Hin. case_decide as Heq; [|now left].
      right. exists f, spec. split; [left|]. now split.
    + right. exists f', spec'. split; [now right|]. now split.
Qed.

Lemma validateJumpIfs_found (specs : gmap string FilterSpec) (nodes : list FlowNode)
    (validNames : gmap string bool) :
  validateJumpIfs specs nodes validNames = None ->
  Forall (fun n => Filter n ≠ builtInFilterEnd -> is_Some (specs !! Filter n)) nodes.
Proof.
  revert validNames. induction nodes as [|n nodes IH]; intros validNames Hvalid;
    [constructor|]. cbn [validateJumpIfs] in Hvalid.
  case_bool_decide as Hend.
  - constructor; [congruence|eauto].
  - destruct (specs !! Filter n) as [spec|] eqn:Hspec; [|discriminate].
    destruct (QueryFilterRegistry (specKind spec)); [|discriminate].
    destruct (validateJumpIf _ _ _ _); [discriminate|].
    constructor; eauto.
Qed.

(** A spec that validates names, in every node of its flow other than END,
    a filter that one of its filter entries builds. *)
Lemma Validate_flow_names (s : Spec) :
  Validate s = None ->
  Forall (fun n => Filter n ≠ builtInFilterEnd ->
                   exists f spec, f ∈ Filters s /\ NewFilterSpec f None = inl spec /\
                                  specName spec = Filter n) (Flow s).
Proof.
  unfold Validate. intros Hvalid.
  destruct (validateFilterSpecs (Filters s) ∅) as [|specs] eqn:Hspecs; [discriminate|].
  destruct (validateJumpIfs specs (rev (Flow s)) _) eqn:Hjumps; [discriminate|].
  apply validateJumpIfs_found in Hjumps.
  apply Forall_forall. intros n Hn Hend.
  rewrite Forall_forall in Hjumps.
  destruct (validateFilterSpecs_names _ _ _ (Filter n) Hspecs) as [Hempty|Hbuilt].
  - apply Hjumps; [|assumption].
    apply list_elem_of_In. rewrite <- in_rev. now apply list_elem_of_In.
  - rewrite lookup_empty in Hempty. now destruct Hempty.
  - assumption.
Qed.

Lemma createFilters_names (pipelineName : string) (super : option Supervisor)
    (rawSpecs : list RawSpec) (created created' : list FilterRef)
    (specs specs' : list FilterSpec) (h h' : Heap) :
  createFilters pipelineName super rawSpecs created specs h = Some (created', specs', h') ->
  exists more,
    specs' = specs ++ more /\
    length more = length rawSpecs /\
    forall f, f ∈ rawSpecs ->
              exists spec, NewFilterSpec f super = inl spec /\
                           specName spec ∈ specName <$> more.
Proof.
  revert created specs h.
  induction rawSpecs as [|rawSpec rawSpecs IH]; intros created specs h Hcreate;
    cbn [createFilters] in Hcreate.
  - injection Hcreate as <- <- <-. exists []. rewrite app_nil_r.
    repeat split. intros f Hf. inversion Hf.
  - destruct (NewFilterSpec rawSpec super) as [spec|] eqn:Hspec; [|discriminate].
    destruct (QueryFilterRegistry (specKind spec)) as [rootInst|]; [|discriminate].
    destruct (IH _ _ _ Hcreate) as (more & -> & Hlen & Hnames).
    exists (withPipeline pipelineName spec :: more). rewrite <- app_assoc.
    split; [reflexivity|]. split; [cbn; lia|].
    intros f Hf. apply elem_of_cons in Hf as [->|Hf].
    + exists spec. split; [assumption|]. rewrite fmap_cons. left.
    + destruct (Hnames f Hf) as (spec' & Hspec' & Hin).
      exists spec'. split; [assumption|]. rewrite fmap_cons. now right.
Qed.

Lemma initFilters_domain (previousGeneration : option Pipeline) (specs : list FilterSpec)
    (i : nat) (created : list FilterRef) (pfilters0 pfilters : option (gmap string FilterRef))
    (h h' : Heap) :
  (length created + i = length specs)%nat ->
  initFilters previousGeneration specs i created pfilters0 h = Some (pfilters, h') ->
  (forall name, is_Some (getFilter pfilters0 name) -> is_Some (getFilter pfilters name)) /\
  (forall spec, spec ∈ drop i specs -> is_Some (getFilter pfilters (specName spec))).
Proof.
  revert i pfilters0 h. induction created as [|filter created IH];
    intros i pfilters0 h Hlen Hinit; cbn [initFilters length] in *.
  - injection Hinit as <- <-. split; [auto|].
    intros spec Hin. rewrite drop_ge in Hin by lia. inversion Hin.
  - destruct (lookup_lt_is_Some_2 specs i) as [spec Hspec]; [lia|].
    rewrite Hspec in Hinit. destruct pfilters0 as [m|]; [|discriminate].
    apply IH in Hinit as [Hmono Hdom]; [|lia]. split.
    + intros name Hname. apply Hmono. cbn in *.
      rewrite lookup_insert. now case_decide.
    + intros spec' Hin. rewrite (drop_S _ _ _ Hspec) in Hin.
      apply elem_of_cons in Hin as [->|Hin]; [|auto].
      apply Hmono. cbn. rewrite lookup_insert_eq. eauto.
Qed.

Lemma bound_bindNode (pfilters : option (gmap string FilterRef)) (flow : list FlowNode) :
  Forall (fun n => Filter n ≠ builtInFilterEnd -> is_Some (getFilter pfilters (Filter n))) flow ->
  bound (bindNode pfilters <$> flow).
Proof.
  intros Hflow. unfold bound. apply Forall_fmap.
  eapply Forall_impl; [exact Hflow|]. intros n Hn. unfold bindNode. cbn.
  case_bool_decide; cbn [Filter filter_]; [auto|congruence].
Qed.

(** [reload] binds every node of the flow that names a filter of the
    spec; a flow it makes up itself is bound throughout. *)
Lemma reload_bound (p p' : Pipeline) (previousGeneration : option Pipeline) (h h' : Heap) :
  reload p previousGeneration h = Some (p', h') ->
  Forall (fun n => Filter n ≠ builtInFilterEnd ->
                   exists f, f ∈ Filters (spec p) /\
                             forall spec, NewFilterSpec f (Super (superSpec p)) = inl spec ->
                                          specName spec = Filter n) (Flow (spec p)) ->
  bound (flow p').
Proof.
  unfold reload. intros Hreload Hflow.
  destruct (createFilters _ _ _ _ _ _) as [[[created specs] h0]|] eqn:Hcreate; [|discriminate].
  destruct (createFilters_calls _ _ _ _ _ _ _ _ _ Hcreate eq_refl) as [_ Hlen].
  destruct (createFilters_names _ _ _ _ _ _ _ _ _ Hcreate) as (more & Hmore & _ & Hnames).
  cbn [app] in Hmore. subst more.
  destruct (initFilters _ _ _ _ _ _) as [[pfilters h1]|] eqn:Hinit; [|discriminate].
  apply initFilters_domain in Hinit as [_ Hdom]; [|lia]. rewrite drop_0 in Hdom.
  case_bool_decide; injection Hreload as <- <-; cbn [flow]; apply bound_bindNode.
  - unfold flowOf. apply Forall_fmap, Forall_forall. intros spec Hspec _. cbn. auto.
  - eapply Forall_impl; [exact Hflow|]. intros n Hn Hend.
    destruct (Hn Hend) as (f & Hf & Hname).
    destruct (Hnames f Hf) as (spec & Hspec & Hin).
    rewrite (Hname spec Hspec) in Hin.
    apply list_elem_of_fmap in Hin as (spec' & -> & Hin). auto.
Qed.

(** When the name [NewFilterSpec] gives a filter entry does not depend on
    the supervisor it is handed, the pipeline [reload] builds from a spec
    that validates has a bound flow, so that [Handle] does not panic on
    it. *)
Lemma validated_reload_bound (p p' : Pipeline) (previousGeneration : option Pipeline)
    (h h' : Heap) :
  (forall f spec spec',
     NewFilterSpec f None = inl spec ->
     NewFilterSpec f (Super (superSpec p)) = inl spec' ->
     specName spec' = specName spec) ->
  Validate (spec p) = None ->
  reload p previousGeneration h = Some (p', h') ->
  bound (flow p').
Proof.
  intros Hagree Hvalid Hreload. eapply reload_bound; [eassumption|].
  eapply Forall_impl; [exact (Validate_flow_names _ Hvalid)|].
  intros n Hn Hend. destruct (Hn Hend) as (f & spec & Hf & Hspec & Hname).
  exists f. split; [assumption|]. intros spec' Hspec'.
  rewrite <- Hname. eapply Hagree; eassumption.
Qed.

End CompileFacts.

(** ** Handle and Inherit on concrete pipelines *)

Lemma Handle_returns_last_label_witness :
  let flow := fixture.compiled [] [("A", "Silent"); ("B", "Silent"); ("C", "Denier")] in
  exists label w log,
    @pipeline.Handle (pipeline.traced fixture.runtime) flow (fixture.request, [])
      = Some (label, (w, log)) /\
    pipeline.Handle flow fixture.request = Some (label, w) /\
    label = pipeline.lastLabel log.
Proof.
  intros flow.
  apply (proj1 (proj2 (Handle_returns_last_label fixture.runtime fixture.request)) flow).
  vm_compute. repeat constructor; intros _; eexists; reflexivity.
Defined.

Lemma Handle_tags_invocations_witness :
  let flow := fixture.compiled [] [("A", "Silent"); ("B", "Silent"); ("C", "Denier")] in
  let a := {| pipeline.addr := 0; pipeline.Kind := "Silent" |} in
  let b := {| pipeline.addr := 1; pipeline.Kind := "Silent" |} in
  let c := {| pipeline.addr := 2; pipeline.Kind := "Denier" |} in
  let w := {| fixture.clock := 21;
              fixture.tags := ["pipeline: A(7ns)->B(7ns)->C(deny,7ns)"];
              fixture.handled := [0; 1; 2]%nat |} in
  let journal :=
    [pipeline.EvNow 0; pipeline.EvHandle a ""; pipeline.EvNow 7;
     pipeline.EvNow 7; pipeline.EvHandle b ""; pipeline.EvNow 14;
     pipeline.EvNow 14; pipeline.EvHandle c "deny"; pipeline.EvNow 21;
     pipeline.EvTag "pipeline: A(7ns)->B(7ns)->C(deny,7ns)"] in
  (exists runs,
     journal = flat_map pipeline.eventsOf runs
                 ++ [pipeline.EvTag (pipeline.serializeStats (pipeline.statOf <$> runs))] /\
     pipeline.atNode <$> runs `sublist_of` flow /\
     Forall (fun i => pipeline.filter_ (pipeline.atNode i) = Some (pipeline.invoked i)) runs /\
     pipeline.handleStats flow fixture.request = Some (pipeline.statOf <$> runs) /\
     pipeline.Handle flow fixture.request = Some ("deny", w) /\
     (runs ≠ [] ->
      pipeline.serializeStats (pipeline.statOf <$> runs)
      = pipeline.tagOf (pipeline.statOf <$> runs))) /\
  is_Some (@pipeline.Handle (pipeline.observed fixture.runtime) flow (fixture.request, [])).
Proof.
  intros flow a b c w journal.
  destruct (Handle_tags_invocations fixture.runtime flow fixture.request) as [Hends Hreturns].
  split.
  - apply (Hends "deny" w journal). vm_compute. reflexivity.
  - apply Hreturns. vm_compute. repeat constructor; intros _; eexists; reflexivity.
Defined.

(** C5, as stated, fails on the linear pipeline of three filters that
    return the empty label: the tag has no comma. *)
Lemma Handle_tag_without_comma :
  let flow := fixture.compiled [] [("A", "Silent"); ("B", "Silent"); ("C", "Silent")] in
  pipeline.Handle flow fixture.request
    = Some ("", {| fixture.clock := 21;
                   fixture.tags := ["pipeline: A(7ns)->B(7ns)->C(7ns)"];
                   fixture.handled := [0; 1; 2]%nat |}) /\
  (exists stats,
     pipeline.handleStats flow fixture.request = Some stats /\
     "pipeline: " +:+ String.concat "->" (pipeline.entryWithComma <$> stats)
       = "pipeline: A(,7ns)->B(,7ns)->C(,7ns)") /\
  "pipeline: A(7ns)->B(7ns)->C(7ns)" ≠ "pipeline: A(,7ns)->B(,7ns)->C(,7ns)".
Proof.
  split; [reflexivity|]. split; [|discriminate].
  eexists. split; reflexivity.
Qed.

Lemma Handle_after_silent_jump_witness :
  let pre := [fixture.live "A" [("skip", "C")] 0 "Skipper"; fixture.live "B" [] 1 "Silent"] in
  let node := fixture.live "C" [] 2 "Flaky" in
  let rest := [fixture.live "D" [] 3 "Denier"] in
  let s := {| pipeline.result := "skip";
              pipeline.next := "C";
              pipeline.stats := [{| pipeline.statName := "A"; pipeline.statKind := "Skipper";
                                    pipeline.statResult := "skip";
                                    pipeline.statDuration := 7 |}];
              pipeline.world := {| fixture.clock := 7; fixture.tags := [];
                                   fixture.handled := [0%nat] |} |} in
  exists s',
    pipeline.iteration node s = pipeline.Continue s' /\
    pipeline.next s' = "C" /\
    Forall (fun n => pipeline.iteration n s' = pipeline.Continue s') rest /\
    pipeline.Handle (pre ++ node :: rest) fixture.request
      = Some ("", fixture.addTag (pipeline.serializeStats (pipeline.stats s'))
                    (pipeline.world s')).
Proof.
  apply (@Handle_after_silent_jump fixture.runtime
           [fixture.live "A" [("skip", "C")] 0 "Skipper"; fixture.live "B" [] 1 "Silent"]
           [fixture.live "D" [] 3 "Denier"]
           (fixture.live "C" [] 2 "Flaky")
           fixture.request _
           {| pipeline.addr := 2; pipeline.Kind := "Flaky" |}).
  - vm_compute. reflexivity.
  - reflexivity.
  - vm_compute. discriminate.
  - vm_compute. discriminate.
  - reflexivity.
  - vm_compute. reflexivity.
  - repeat constructor. vm_compute. discriminate.
Defined.

(** C10, as stated, fails on a flow that names the filter C twice.  A
    jumps to C; C returns the empty label and [next] keeps naming C; the
    second node of C is therefore entered, returns [fail], which its jumpIf
    does not route, and clears [next]; D, a node of another name, is
    invoked, and [Handle] returns [deny]. *)
Lemma Handle_reenters_jump_target :
  let flow := [fixture.node "A" [("skip", "C")]; fixture.node "B" [];
               fixture.node "C" []; fixture.node "C" []; fixture.node "D" []] in
  let filters := [("A", "Skipper"); ("B", "Silent"); ("C", "Flaky"); ("D", "Denier")] in
  pipeline.Validate {| pipeline.Flow := flow; pipeline.Filters := filters |} = None /\
  pipeline.Handle (fixture.compiled flow filters) fixture.request
    = Some ("deny",
            {| fixture.clock := 28;
               fixture.tags := ["pipeline: A(skip,7ns)->C(7ns)->C(fail,7ns)->D(deny,7ns)"];
               fixture.handled := [0; 2; 2; 3]%nat |}).
Proof. split; reflexivity. Qed.

Lemma Inherit_closes_no_filter_witness :
  exists g1 h1 p' h' created specs,
    fixture.firstGeneration = Some (g1, h1) /\
    pipeline.Inherit fixture.blank
      (fixture.superSpec "demo" [] [("kept", "Silent"); ("new", "Denier")]) g1 h1
      = Some (p', h') /\
    pipeline.instancesOf "demo" None (pipeline.allocated h1)
      [("kept", "Silent"); ("new", "Denier")] created specs /\
    pipeline.calls h'
      = pipeline.calls h1 ++ zip_with (pipeline.handOff (Some g1)) created specs /\
    forall f, pipeline.closeCount f (pipeline.calls h') = pipeline.closeCount f (pipeline.calls h1).
Proof.
  destruct fixture.firstGeneration as [[g1 h1]|] eqn:Hfirst; [|discriminate].
  exists g1, h1.
  destruct (Inherit_closes_no_filter fixture.blank
              (fixture.superSpec "demo" [] [("kept", "Silent"); ("new", "Denier")]) g1 h1)
    as [Hends Hruns].
  destruct Hruns as [[p' h'] Hinherit].
  - repeat constructor; eexists; (split; [reflexivity | eexists; reflexivity]).
  - left. eexists. reflexivity.
  - destruct (Hends p' h' Hinherit) as (created & specs & Hrest).
    exists p', h', created, specs. split; [reflexivity|]. split; [exact Hinherit | exact Hrest].
Defined.

(** C3, as stated, fails: the filter [old] of the first generation has no
    namesake in the new spec, and after [Inherit] no [Close] has been
    called on it.  The same holds of a new spec with no filter at all,
    under which [Inherit] completes even on a receiver whose map is
    nil. *)
Lemma Inherit_leaves_dropped_filter_open :
  let old := {| pipeline.addr := 0; pipeline.Kind := "Silent" |} in
  fixture.completes fixture.secondGeneration = true /\
  fixture.filterOf fixture.firstGeneration "old" = Some old /\
  fixture.filterOf fixture.secondGeneration "old" = None /\
  fixture.callsOf fixture.secondGeneration =
    [pipeline.CallInit old
       {| pipeline.specName := "old"; pipeline.specKind := "Silent";
          pipeline.specPipeline := "demo" |};
     pipeline.CallInit {| pipeline.addr := 1; pipeline.Kind := "Silent" |}
       {| pipeline.specName := "kept"; pipeline.specKind := "Silent";
          pipeline.specPipeline := "demo" |};
     pipeline.CallInherit {| pipeline.addr := 2; pipeline.Kind := "Silent" |}
       {| pipeline.specName := "kept"; pipeline.specKind := "Silent";
          pipeline.specPipeline := "demo" |}
       {| pipeline.addr := 1; pipeline.Kind := "Silent" |};
     pipeline.CallInit {| pipeline.addr := 3; pipeline.Kind := "Denier" |}
       {| pipeline.specName := "new"; pipeline.specKind := "Denier";
          pipeline.specPipeline := "demo" |}] /\
  pipeline.closeCount old (fixture.callsOf fixture.secondGeneration) = 0%nat /\
  pipeline.closeCount old (fixture.callsOf fixture.secondGeneration) ≠ 1%nat /\
  fixture.completes fixture.emptyGeneration = true /\
  pipeline.closeCount old (fixture.callsOf fixture.emptyGeneration) = 0%nat.
Proof.
  repeat split; try (vm_compute; reflexivity). vm_compute. discriminate.
Qed.

(** * Further properties of Validate *)

Section ValidateAccepts.
Import pipeline.
Context `{Registry}.

Lemma validateFilterSpecs_ok (fs : list RawSpec) (specs0 specs : gmap string FilterSpec) :
  validateFilterSpecs fs specs0 = inr specs ->
  Forall (fun f => exists spec, NewFilterSpec f None = inl spec /\
                                specName spec ≠ builtInFilterEnd) fs.
Proof.
  revert specs0. induction fs as [|f fs IH]; intros specs0 Hvalid; [constructor|].
  cbn [validateFilterSpecs] in Hvalid.
  destruct (NewFilterSpec f None) as [spec|] eqn:Hspec; [|discriminate].
  unfold isBuiltInFilter in Hvalid. case_bool_decide as Hend; [discriminate|].
  constructor; [eauto|]. eapply IH, Hvalid.
Qed.

Lemma jumpsValid_weaken (specs : gmap string FilterSpec) (validNames validNames' : gmap string bool)
    (before before' : list FlowNode) (node : FlowNode) :
  (forall target,
     getBool validNames target = true \/ target ∈ Filter <$> before ->
     getBool validNames' target = true \/ target ∈ Filter <$> before') ->
  jumpsValid specs validNames before node ->
  jumpsValid specs validNames' before' node.
Proof.
  intros Hweak (spec & root & Hspec & Hroot & Hjump).
  exists spec, root. split; [assumption|]. split; [assumption|].
  intros result target Hentry. destruct (Hjump result target Hentry) as [Hresult Htarget].
  split; [assumption|]. now apply Hweak.
Qed.

Lemma jumpsValid_head (specs : gmap string FilterSpec) (validNames : gmap string bool)
    (node : FlowNode) (spec : FilterSpec) (root : RootInst) :
  specs !! Filter node = Some spec ->
  QueryFilterRegistry (specKind spec) = Some root ->
  validateJumpIf (Filter node) (Results root) validNames (map_to_list (JumpIf node)) = None <->
  jumpsValid specs validNames [] node.
Proof.
  intros Hspec Hroot. rewrite validateJumpIf_accepts, Forall_forall. split.
  - intros Hentries. exists spec, root. split; [assumption|]. split; [assumption|].
    intros result target Hentry.
    destruct (Hentries (result, target)) as [Hresult Htarget];
      [now apply elem_of_map_to_list|]. split; [assumption|now left].
  - intros (spec' & root' & Hspec' & Hroot' & Hjump) [result target] Hin.
    rewrite Hspec in Hspec'. injection Hspec' as <-.
    rewrite Hroot in Hroot'. injection Hroot' as <-.
    apply elem_of_map_to_list in Hin.
    destruct (Hjump result target Hin) as [Hresult [Htarget|Hnil]]; [now split|].
    inversion Hnil.
Qed.

(** What the right-to-left walk accepts.  [before] are the nodes visited
    so far, that is, the nodes that come later in the flow. *)
Lemma validateJumpIfs_accepts (specs : gmap string FilterSpec) (nodes : list FlowNode)
    (validNames : gmap string bool) :
  getBool validNames builtInFilterEnd = true ->
  validateJumpIfs specs nodes validNames = None <->
  forall before node after,
    nodes = before ++ node :: after ->
    Filter node ≠ builtInFilterEnd ->
    jumpsValid specs validNames before node.
Proof.
  revert validNames. induction nodes as [|n nodes IH]; intros validNames Hend.
  - split; [|reflexivity]. intros _ [|? ?] ? ? Heq; discriminate.
  - cbn [validateJumpIfs]. case_bool_decide as Hn.
    + rewrite (IH validNames Hend). split.
      * intros Hok [|n' before] node after Heq Hnode; injection Heq as <- ->; [congruence|].
        eapply jumpsValid_weaken; [|exact (Hok before node after eq_refl Hnode)].
        intros target [?|?]; [now left|right]. rewrite fmap_cons. now right.
      * intros Hok before node after -> Hnode.
        eapply jumpsValid_weaken; [|exact (Hok (n :: before) node after eq_refl Hnode)].
        intros target [?|Hin]; [now left|].
        rewrite fmap_cons in Hin. apply elem_of_cons in Hin as [->|?]; [|now right].
        left. now rewrite Hn.
    + assert (getBool (<[Filter n := true]> validNames) builtInFilterEnd = true) as Hend'.
      { rewrite getBool_insert. now case_bool_decide. }
      split.
      * intros Hvalid.
        destruct (specs !! Filter n) as [spec|] eqn:Hspec; [|discriminate].
        destruct (QueryFilterRegistry (specKind spec)) as [root|] eqn:Hroot; [|discriminate].
        destruct (validateJumpIf _ _ _ _) eqn:Hentries; [discriminate|].
        apply (jumpsValid_head specs validNames n spec root Hspec Hroot) in Hentries.
        pose proof (proj1 (IH _ Hend') Hvalid) as Hrest. clear Hvalid.
        intros [|n' before] node after Heq Hnode; injection Heq as <- ->; [assumption|].
        eapply jumpsValid_weaken; [|exact (Hrest before node after eq_refl Hnode)].
        intros target [Hv|?]; [|right; rewrite fmap_cons; now right].
        rewrite getBool_insert in Hv. case_bool_decide as Heq; [|now left].
        right. rewrite fmap_cons, Heq. left.
      * intros Hok.
        pose proof (Hok [] n nodes eq_refl Hn) as Hhead.
        destruct Hhead as (spec & root & Hspec & Hroot & Hjump).
        rewrite Hspec, Hroot.
        assert (validateJumpIf (Filter n) (Results root) validNames
                  (map_to_list (JumpIf n)) = None) as ->.
        { apply (jumpsValid_head specs validNames n spec root Hspec Hroot).
          now exists spec, root. }
        apply (proj2 (IH _ Hend')). intros before node after -> Hnode.
        eapply jumpsValid_weaken; [|exact (Hok (n :: before) node after eq_refl Hnode)].
        intros target [?|Hin].
        -- left. rewrite getBool_insert. now case_bool_decide.
        -- rewrite fmap_cons in Hin. apply elem_of_cons in Hin as [->|?]; [|now right].
           left. rewrite getBool_insert. now rewrite bool_decide_eq_true_2.
Qed.

(** What the left-to-right walk accepts. *)
Lemma validateRequestIDs_accepts (nodes : list FlowNode) (validNames : gmap string bool) :
  validateRequestIDs nodes validNames = None <->
  forall pre node post,
    nodes = pre ++ node :: post ->
    UseRequest node ≠ "" ->
    getBool validNames (UseRequest node) = true \/ UseRequest node ∈ RequestID <$> pre.
Proof.
  revert validNames. induction nodes as [|n nodes IH]; intros validNames.
  - split; [|reflexivity]. intros _ [|? ?] ? ? Heq; discriminate.
  - cbn [validateRequestIDs]. split.
    + intros Hvalid.
      destruct (bool_decide (UseRequest n ≠ "") && negb (getBool validNames (UseRequest n)))
        eqn:Huse; [discriminate|].
      pose proof (proj1 (IH _) Hvalid) as Hrest. clear Hvalid.
      intros [|n' pre] node post Heq Hnode; injection Heq as <- ->.
      * left. apply andb_false_iff in Huse as [Huse|Huse].
        -- apply bool_decide_eq_false in Huse. now destruct Huse.
        -- now apply negb_false_iff in Huse.
      * destruct (Hrest pre node post eq_refl Hnode) as [Hv|?];
          [|right; rewrite fmap_cons; now right].
        case_bool_decide as Hid; [|now left].
        rewrite getBool_insert in Hv. case_bool_decide as Heq; [|now left].
        right. rewrite fmap_cons, Heq. left.
    + intros Hok.
      assert (bool_decide (UseRequest n ≠ "") && negb (getBool validNames (UseRequest n))
              = false) as ->.
      { case_bool_decide as Huse; [|reflexivity].
        destruct (Hok [] n nodes eq_refl Huse) as [->|Hnil]; [reflexivity|inversion Hnil]. }
      apply (proj2 (IH _)). intros pre node post -> Hnode.
      destruct (Hok (n :: pre) node post eq_refl Hnode) as [Hv|Hin].
      * left. case_bool_decide; [|assumption].
        rewrite getBool_insert. now case_bool_decide.
      * rewrite fmap_cons in Hin. apply elem_of_cons in Hin as [Heq|?]; [|now right].
        left. rewrite bool_decide_eq_true_2 by congruence.
        rewrite getBool_insert. now rewrite bool_decide_eq_true_2.
Qed.

Lemma elem_of_fmap_rev {A B : Type} (f : A -> B) (l : list A) (y : B) :
  y ∈ f <$> rev l <-> y ∈ f <$> l.
Proof.
  rewrite !list_elem_of_fmap. split; intros (x & -> & Hx); exists x; (split; [reflexivity|]).
  - apply list_elem_of_In, in_rev, list_elem_of_In, Hx.
  - apply list_elem_of_In. rewrite <- in_rev. apply list_elem_of_In, Hx.
Qed.

Lemma rev_split {A : Type} (l before after : list A) (x : A) :
  rev l = before ++ x :: after <-> l = rev after ++ x :: rev before.
Proof.
  split; intros Heq.
  - rewrite <- (rev_involutive l), Heq, rev_app_distr. cbn [rev]. now rewrite <- app_assoc.
  - rewrite Heq, rev_app_distr. cbn [rev]. now rewrite <- app_assoc, !rev_involutive.
Qed.

(** X1. [Validate] returns nil exactly when three things hold.  Every
    filter entry builds a filter spec whose name is not END.  Every flow
    node other than END names a filter whose spec (the last entry of that
    name) has a registered kind, and each of its jumpIf entries has its
    key among the results of the kind and its target either END or the
    filter name of a later node.  Every non-empty [useRequest] is
    [Default] or the [requestID] of an earlier node. *)
Theorem Validate_accepts (s : Spec) :
  Validate s = None <->
  Forall (fun f => exists spec, NewFilterSpec f None = inl spec /\
                                specName spec ≠ builtInFilterEnd) (Filters s) /\
  (forall pre node post,
     Flow s = pre ++ node :: post ->
     Filter node ≠ builtInFilterEnd ->
     exists spec root,
       lastNamed (Filter node) (Filters s) = Some spec /\
       QueryFilterRegistry (specKind spec) = Some root /\
       forall result target,
         JumpIf node !! result = Some target ->
         result ∈ Results root /\
         (target = builtInFilterEnd \/ target ∈ Filter <$> post)) /\
  (forall pre node post,
     Flow s = pre ++ node :: post ->
     UseRequest node ≠ "" ->
     UseRequest node = defaultRequest \/ UseRequest node ∈ RequestID <$> pre).
Proof.
  assert (getBool {[builtInFilterEnd := true]} builtInFilterEnd = true) as Hend
    by now rewrite getBool_singleton, bool_decide_eq_true_2.
  unfold Validate. split.
  - intros Hvalid.
    destruct (validateFilterSpecs (Filters s) ∅) as [|specs] eqn:Hspecs; [discriminate|].
    pose proof (validateFilterSpecs_ok _ _ _ Hspecs) as Hok.
    destruct (validateFilterSpecs_table _ ∅ Hok) as (specs' & Hspecs' & Htable).
    rewrite Hspecs in Hspecs'. injection Hspecs' as <-.
    destruct (validateJumpIfs specs (rev (Flow s)) _) eqn:Hjumps; [discriminate|].
    destruct (validateRequestIDs (Flow s) _) eqn:Hrequests; [discriminate|].
    split; [assumption|]. split.
    + intros pre node post Hflow Hnode.
      destruct (proj1 (validateJumpIfs_accepts _ _ _ Hend) Hjumps (rev post) node (rev pre))
        as (spec & root & Hspec & Hroot & Hjump); [now apply rev_split; rewrite !rev_involutive|assumption|].
      exists spec, root. rewrite Htable, lookup_empty in Hspec.
      split; [now destruct (lastNamed (Filter node) (Filters s))|]. split; [assumption|].
      intros result target Hentry. destruct (Hjump result target Hentry) as [Hresult Htarget].
      split; [assumption|]. destruct Htarget as [Hv|Hin].
      * left. rewrite getBool_singleton in Hv. now apply bool_decide_eq_true in Hv.
      * right. exact (proj1 (elem_of_fmap_rev Filter post target) Hin).
    + intros pre node post Hflow Hnode.
      destruct (proj1 (validateRequestIDs_accepts _ _) Hrequests pre node post Hflow Hnode)
        as [Hv|?]; [|now right].
      left. rewrite getBool_singleton in Hv. now apply bool_decide_eq_true in Hv.
  - intros (Hok & Hjumps & Hrequests).
    destruct (validateFilterSpecs_table _ ∅ Hok) as (specs & -> & Htable).
    assert (validateJumpIfs specs (rev (Flow s)) {[builtInFilterEnd := true]} = None) as ->.
    { apply (validateJumpIfs_accepts _ _ _ Hend). intros before node after Hflow Hnode.
      pose proof (proj1 (rev_split _ _ _ _) Hflow) as Hflow'.
      destruct (Hjumps _ _ _ Hflow' Hnode) as (spec & root & Hspec & Hroot & Hjump).
      exists spec, root. rewrite Htable, Hspec.
      split; [reflexivity|]. split; [assumption|].
      intros result target Hentry. destruct (Hjump result target Hentry) as [Hresult Htarget].
      split; [assumption|]. destruct Htarget as [->|Hin].
      - now left.
      - right. exact (proj1 (elem_of_fmap_rev Filter _ target) Hin). }
    assert (validateRequestIDs (Flow s) {[defaultRequest := true]} = None) as ->; [|reflexivity].
    apply validateRequestIDs_accepts. intros pre node post Hflow Hnode.
    destruct (Hrequests pre node post Hflow Hnode) as [->|?]; [|now right].
    left. now rewrite getBool_singleton, bool_decide_eq_true_2.
Qed.

(** X2. Whether the loop over the jumpIf entries of a node panics does not
    depend on the order in which Go visits the entries of the map: two
    orders of the same entries are both accepted or both rejected. *)
Theorem validateJumpIf_any_order (name : string) (results : list string)
    (validNames : gmap string bool) (entries entries' : list (string * string)) :
  entries ≡ₚ entries' ->
  is_Some (validateJumpIf name results validNames entries) <->
  is_Some (validateJumpIf name results validNames entries').
Proof.
  intros Hperm. rewrite <- !not_eq_None_Some.
  now rewrite (validateJumpIf_order name results validNames entries entries' Hperm).
Qed.

End ValidateAccepts.

(** * Further properties of Handle *)

Section HandleRuns.
Import pipeline.
Context `{Runtime}.

(** A turn of the loop at a node that is neither skipped nor END: the
    filter is invoked once, its statistics are appended, and the loop
    breaks exactly when the jump target it leaves is END. *)
Lemma iteration_runs (node : FlowNode) (s : LoopState) (f : FilterRef) :
  next s = "" \/ next s = Filter node ->
  Filter node ≠ builtInFilterEnd ->
  filter_ node = Some f ->
  exists stat w,
    (statResult stat, w) = FilterHandle f (Now (world s)).2 /\
    statName stat = Filter node /\
    statKind stat = Kind f /\
    let s' := {| result := statResult stat;
                 next := if bool_decide (statResult stat ≠ "")
                         then getString (JumpIf node) (statResult stat)
                         else next s;
                 stats := stats s ++ [stat];
                 world := (Now w).2 |} in
    iteration node s = if bool_decide (next s' = builtInFilterEnd) then Break s' else Continue s'.
Proof.
  intros Hnext Hend Hf. unfold iteration. rewrite Hf.
  assert (bool_decide (next s ≠ "") && bool_decide (Filter node ≠ next s) = false) as ->.
  { destruct Hnext as [Hnext|Hnext].
    - rewrite (bool_decide_eq_false_2 (next s ≠ "")); [reflexivity|]. intros Hne; congruence.
    - rewrite (bool_decide_eq_false_2 (Filter node ≠ next s)); [apply andb_false_r|].
      intros Hne; congruence. }
  rewrite bool_decide_eq_false_2 by assumption.
  destruct (Now (world s)) as [t0 w0]. cbn [snd].
  destruct (FilterHandle f w0) as [label w1].
  destruct (Now w1) as [t1 w2] eqn:Hnow.
  exists {| statName := Filter node; statKind := Kind f;
            statDuration := t1 - t0; statResult := label |}, w1.
  cbn [statResult statName statKind]. rewrite Hnow. now repeat split.
Qed.

Lemma loop_break (pre rest : list FlowNode) (node : FlowNode) (s0 s s' : LoopState) :
  steps pre s0 = Continue s ->
  iteration node s = Break s' ->
  loop (pre ++ node :: rest) s0 = Some s'.
Proof.
  intros Hpre Hit. rewrite loop_steps, (steps_app pre (node :: rest) s0 s Hpre).
  cbn [steps]. now rewrite Hit.
Qed.

Lemma loop_end (pre : list FlowNode) (s0 s : LoopState) :
  steps pre s0 = Continue s -> loop pre s0 = Some s.
Proof. intros Hpre. now rewrite loop_steps, Hpre. Qed.

(** X3. An END node reached with no jump pending ends the request: the
    nodes after it play no part, and [Handle] returns what it would return
    on the nodes before it. *)
Theorem Handle_stops_at_END (pre rest : list FlowNode) (node : FlowNode)
    (ctx : World) (s : LoopState) :
  steps pre (initial ctx) = Continue s ->
  next s = "" ->
  Filter node = builtInFilterEnd ->
  Handle (pre ++ node :: rest) ctx = Handle pre ctx.
Proof.
  intros Hpre Hnext Hend. unfold Handle.
  rewrite (loop_end pre _ s Hpre).
  rewrite (loop_break pre rest node _ s s Hpre); [reflexivity|].
  unfold iteration. rewrite (bool_decide_eq_false_2 (next s ≠ "")) by (intros Hne; congruence).
  cbn [andb]. now rewrite bool_decide_eq_true_2.
Qed.

(** X4. When a filter returns a label that its node routes to END, the
    request ends there: [Handle] returns that label, and the nodes after
    the node play no part. *)
Theorem Handle_jump_to_END (pre rest : list FlowNode) (node : FlowNode)
    (ctx : World) (s : LoopState) (f : FilterRef) (label : string) :
  steps pre (initial ctx) = Continue s ->
  next s = "" \/ next s = Filter node ->
  Filter node ≠ builtInFilterEnd ->
  filter_ node = Some f ->
  (FilterHandle f (Now (world s)).2).1 = label ->
  label ≠ "" ->
  JumpIf node !! label = Some builtInFilterEnd ->
  Handle (pre ++ node :: rest) ctx = Handle (pre ++ [node]) ctx /\
  fst <$> Handle (pre ++ node :: rest) ctx = Some label.
Proof.
  intros Hpre Hnext Hend Hf Hlabel Hne Hjump.
  destruct (iteration_runs node s f Hnext Hend Hf) as (stat & w & Hhandle & _ & _ & Hit).
  rewrite <- Hhandle in Hlabel. cbn [fst] in Hlabel. cbv zeta in Hit.
  cbn [next] in Hit. rewrite Hlabel in Hit.
  rewrite (bool_decide_eq_true_2 (label ≠ "")) in Hit by assumption.
  unfold getString in Hit. rewrite Hjump in Hit. cbn [default] in Hit.
  rewrite bool_decide_eq_true_2 in Hit by reflexivity.
  unfold Handle. rewrite (loop_break pre rest node _ s _ Hpre Hit).
  rewrite (loop_break pre [] node _ s _ Hpre Hit). cbn [result]. split; reflexivity.
Qed.

(** X20. A jump to a name that no later node carries, the name of an
    earlier node for one, goes nowhere: no further filter is invoked, the
    nodes after the node play no part, and [Handle] returns the label that
    set off the jump.  The loop never goes back in the flow. *)
Theorem Handle_jump_to_missing (pre rest : list FlowNode) (node : FlowNode)
    (ctx : World) (s : LoopState) (f : FilterRef) (label target : string) :
  steps pre (initial ctx) = Continue s ->
  next s = "" \/ next s = Filter node ->
  Filter node ≠ builtInFilterEnd ->
  filter_ node = Some f ->
  (FilterHandle f (Now (world s)).2).1 = label ->
  label ≠ "" ->
  JumpIf node !! label = Some target ->
  target ≠ "" ->
  target ≠ builtInFilterEnd ->
  Forall (fun n => Filter n ≠ target) rest ->
  Handle (pre ++ node :: rest) ctx = Handle (pre ++ [node]) ctx /\
  fst <$> Handle (pre ++ node :: rest) ctx = Some label.
Proof.
  intros Hpre Hnext Hnode Hf Hlabel Hne Hjump Hempty Hend Hrest.
  destruct (iteration_runs node s f Hnext Hnode Hf) as (stat & w & Hhandle & _ & _ & Hit).
  rewrite <- Hhandle in Hlabel. cbn [fst] in Hlabel. cbv zeta in Hit.
  cbn [next] in Hit. rewrite Hlabel in Hit.
  rewrite (bool_decide_eq_true_2 (label ≠ "")) in Hit by assumption.
  unfold getString in Hit. rewrite Hjump in Hit. cbn [default] in Hit.
  rewrite bool_decide_eq_false_2 in Hit by assumption.
  match type of Hit with _ = Continue ?s1 => set (s' := s1) in * end.
  assert (steps (node :: rest) s = Continue s') as Hall.
  { cbn [steps]. rewrite Hit. apply steps_skip; [exact Hempty|exact Hrest]. }
  assert (steps [node] s = Continue s') as Hone by (cbn [steps]; now rewrite Hit).
  unfold Handle. rewrite !loop_steps.
  rewrite (steps_app pre (node :: rest) _ s Hpre), (steps_app pre [node] _ s Hpre).
  rewrite Hall, Hone. split; reflexivity.
Qed.

End HandleRuns.

Section HandleLinear.
Import pipeline.
Variable R : Runtime.

Lemma observed_linear (flow : list FlowNode) (s : @LoopState (observed R)) :
  next s = "" ->
  Forall (fun n => Filter n ≠ builtInFilterEnd /\ JumpIf n = ∅) flow ->
  bound flow ->
  exists (s' : @LoopState (observed R)) (runs : list Invocation),
    @loop (observed R) flow s = Some s' /\
    (world s').2 = (world s).2 ++ flat_map eventsOf runs /\
    stats s' = stats s ++ (statOf <$> runs) /\
    atNode <$> runs = flow /\
    Forall (fun i => filter_ (atNode i) = Some (invoked i)) runs.
Proof.
  intros Hnext Hflow. revert s Hnext.
  induction Hflow as [|n flow [Hend Hjump] _ IH]; intros s Hnext Hbound.
  - exists s, []. cbn. rewrite !app_nil_r. now repeat split.
  - apply Forall_cons in Hbound as [Hn Hbound]. destruct (Hn Hend) as [f Hf].
    destruct (observed_runs R n s f (or_introl Hnext) Hend Hf)
      as (i & s1 & Hnode & Hi & _ & Hnext1 & Hstats & Hlog & Hit).
    assert (next s1 = "") as Hnone.
    { rewrite Hnext1, Hjump, Hnext. unfold getString. rewrite lookup_empty.
      now destruct (bool_decide (returned i ≠ "")). }
    rewrite Hnone, bool_decide_eq_false_2 in Hit by discriminate.
    destruct (IH s1 Hnone Hbound) as (s' & runs & Hloop & Hlog' & Hstats' & Hnodes & Hruns).
    exists s', (i :: runs). cbn [loop flat_map]. rewrite Hit, !fmap_cons.
    split; [assumption|]. rewrite Hlog', Hstats', Hlog, Hstats, <- !app_assoc.
    split; [reflexivity|]. split; [reflexivity|]. split; [now rewrite Hnode, Hnodes|].
    constructor; [now rewrite Hnode, Hi|assumption].
Qed.

(** X5. On a flow with no END node and no jumpIf whose filters are bound,
    [Handle] calls the filter of every node, once and in the order of the
    flow, whatever labels the filters return: the invocations the journal
    shows are at the nodes of the flow, one after the other, each of the
    filter bound to its node, and the statistics are their entries. *)
Theorem Handle_linear (flow : list FlowNode) (ctx : @World R) :
  Forall (fun n => Filter n ≠ builtInFilterEnd /\ JumpIf n = ∅) flow ->
  bound flow ->
  exists label w runs,
    @Handle (observed R) flow (ctx, [])
      = Some (label, (w, flat_map eventsOf runs
                           ++ [EvTag (@serializeStats R (statOf <$> runs))])) /\
    @Handle R flow ctx = Some (label, w) /\
    atNode <$> runs = flow /\
    Forall (fun i => filter_ (atNode i) = Some (invoked i)) runs /\
    @handleStats R flow ctx = Some (statOf <$> runs).
Proof.
  intros Hflow Hbound.
  destruct (observed_linear flow (@initial (observed R) (ctx, [])) eq_refl Hflow Hbound)
    as (s' & runs & Hloop & Hlog & Hstats & Hnodes & Hruns).
  cbn [initial world stats snd app] in Hlog, Hstats.
  exists (result s'), (@AddTag R (@serializeStats R (stats s')) (world s').1), runs.
  rewrite (Handle_unobserved R flow ctx), (handleStats_unobserved R flow ctx).
  unfold handleStats, Handle. rewrite Hloop.
  cbn [AddTag observed fmap option_fmap option_map fst snd]. rewrite Hlog, Hstats.
  now repeat split.
Qed.

End HandleLinear.

Section HandleOrder.
Import pipeline.
Variable R : Runtime.




End HandleOrder.

(** * Validated specs under Handle *)

Section ValidatedRuns.
Import pipeline.
Context `{Registry} `{Runtime}.

Lemma Validate_targets_later (s : Spec) (pre post : list FlowNode) (node : FlowNode)
    (result target : string) :
  Validate s = None ->
  Flow s = pre ++ node :: post ->
  Filter node ≠ builtInFilterEnd ->
  JumpIf node !! result = Some target ->
  target = builtInFilterEnd \/ target ∈ Filter <$> post.
Proof.
  intros Hvalid Hflow Hnode Hjump.
  destruct (decide (target = builtInFilterEnd)) as [|Hend]; [now left|].
  destruct (decide (target ∈ Filter <$> post)) as [|Hlater]; [now right|].
  exfalso. unfold Validate in Hvalid.
  destruct (validateFilterSpecs (Filters s) ∅) as [|specs]; [discriminate|].
  rewrite Hflow, rev_app_distr in Hvalid. cbn [rev] in Hvalid.
  rewrite <- app_assoc in Hvalid. cbn [app] in Hvalid.
  destruct (validateJumpIfs_rejects_target specs (rev post) (rev pre) node
              {[builtInFilterEnd := true]} result target) as [r Hr]; try assumption.
  - rewrite getBool_singleton. apply bool_decide_eq_false_2. congruence.
  - intros Hin. apply Hlater. exact (proj1 (elem_of_fmap_rev Filter post target) Hin).
  - now rewrite Hr in Hvalid.
Qed.

Lemma first_named (target : string) (flow : list FlowNode) :
  target ∈ Filter <$> flow ->
  exists mid n rest,
    flow = mid ++ n :: rest /\ Filter n = target /\ Forall (fun m => Filter m ≠ target) mid.
Proof.
  induction flow as [|m flow IH]; intros Hin; [inversion Hin|].
  destruct (decide (Filter m = target)) as [Heq|Hne].
  - exists [], m, flow. now repeat split.
  - rewrite fmap_cons in Hin. apply elem_of_cons in Hin as [Heq|Hin]; [congruence|].
    destruct (IH Hin) as (mid & n & rest & -> & Hn & Hmid).
    exists (m :: mid), n, rest. repeat split; [assumption|]. now constructor.
Qed.

Lemma Filter_bindNode (pfilters : option (gmap string FilterRef)) (node : FlowNode) :
  Filter (bindNode pfilters node) = Filter node.
Proof. unfold bindNode. now case_bool_decide. Qed.

(** X7. In a spec that validates, a jump that [Handle] can take never
    falls off the end of the flow: a jumpIf target, other than END and the
    empty name, of a flow node whose filter is not END names a node later
    in the flow, and in the compiled flow the nodes between are skipped,
    the state untouched, while the jump to it is pending.  ([Validate]
    does not look at the jumpIf of a node whose filter is END, and
    [Handle] never reads it.) *)
Theorem validated_jump_lands (s : Spec) (pre post : list FlowNode) (node : FlowNode)
    (label target : string) :
  Validate s = None ->
  Flow s = pre ++ node :: post ->
  Filter node ≠ builtInFilterEnd ->
  JumpIf node !! label = Some target ->
  target ≠ builtInFilterEnd ->
  target ≠ "" ->
  exists mid n rest,
    post = mid ++ n :: rest /\
    Filter n = target /\
    Forall (fun m => Filter m ≠ target) mid /\
    forall pfilters st,
      next st = target ->
      steps (bindNode pfilters <$> post) st = steps (bindNode pfilters <$> n :: rest) st.
Proof.
  intros Hvalid Hflow Hnode Hjump Hend Hempty.
  destruct (Validate_targets_later s pre post node label target Hvalid Hflow Hnode Hjump)
    as [|Hlater]; [contradiction|].
  destruct (first_named target post Hlater) as (mid & n & rest & -> & Hn & Hmid).
  exists mid, n, rest. repeat split; try assumption.
  intros pfilters st Hnext. rewrite fmap_app.
  apply steps_app, steps_skip; [congruence|].
  apply Forall_fmap. eapply Forall_impl; [exact Hmid|].
  intros m Hm. cbn. rewrite Filter_bindNode. congruence.
Qed.

(** X8. When the name [NewFilterSpec] gives a filter entry does not depend
    on the supervisor it is handed, [Handle] does not panic on the flow of
    a pipeline that [Init] or [Inherit] has built from a spec that
    validates: every node other than END has its filter bound. *)
Theorem validated_pipeline_handles (superSpec : SuperSpec) :
  (forall f spec spec',
     NewFilterSpec f None = inl spec ->
     NewFilterSpec f (Super superSpec) = inl spec' ->
     specName spec' = specName spec) ->
  Validate (ObjectSpec superSpec) = None ->
  (forall p h p' h',
     Init p superSpec h = Some (p', h') ->
     bound (flow p') /\ forall ctx, is_Some (Handle (flow p') ctx)) /\
  (forall p previousGeneration h p' h',
     Inherit p superSpec previousGeneration h = Some (p', h') ->
     bound (flow p') /\ forall ctx, is_Some (Handle (flow p') ctx)).
Proof.
  intros Hagree Hvalid.
  assert (forall p prev h p' h',
            reload (setSpec p superSpec) prev h = Some (p', h') ->
            bound (flow p') /\ forall ctx, is_Some (Handle (flow p') ctx)) as Hreload.
  { intros p prev h p' h' Hp'.
    assert (bound (flow p')) as Hbound
      by exact (validated_reload_bound (setSpec p superSpec) p' prev h h' Hagree Hvalid Hp').
    split; [assumption|]. intros ctx. unfold Handle.
    destruct (loop_bound (flow p') (initial ctx) Hbound) as [st ->]. eauto. }
  split.
  - intros p h p' h'. apply Hreload.
  - intros p previousGeneration h p' h'. apply Hreload.
Qed.

End ValidatedRuns.

(** * Further properties of Init, Inherit, reload and Close *)

Section LifecycleMore.
Import pipeline.
Context `{Registry}.

Lemma createFilters_ok (pipelineName : string) (super : option Supervisor)
    (rawSpecs : list RawSpec) (created created' : list FilterRef)
    (specs specs' : list FilterSpec) (h h' : Heap) :
  createFilters pipelineName super rawSpecs created specs h = Some (created', specs', h') ->
  Forall (fun rawSpec => exists spec, NewFilterSpec rawSpec super = inl spec /\
                                      is_Some (QueryFilterRegistry (specKind spec))) rawSpecs.
Proof.
  revert created specs h.
  induction rawSpecs as [|rawSpec rawSpecs IH]; intros created specs h Hcreate;
    [constructor|]. cbn [createFilters] in Hcreate.
  destruct (NewFilterSpec rawSpec super) as [spec|] eqn:Hspec; [|discriminate].
  destruct (QueryFilterRegistry (specKind spec)) as [rootInst|] eqn:Hroot; [|discriminate].
  constructor; [|eapply IH, Hcreate].
  exists spec. split; [assumption|]. rewrite Hroot. eauto.
Qed.

Lemma createFilters_specs (pipelineName : string) (super : option Supervisor)
    (rawSpecs : list RawSpec) (created created' : list FilterRef)
    (specs specs' : list FilterSpec) (h h' : Heap) :
  createFilters pipelineName super rawSpecs created specs h = Some (created', specs', h') ->
  exists more,
    specs' = specs ++ more /\
    Forall2 (fun rawSpec spec' =>
               exists spec, NewFilterSpec rawSpec super = inl spec /\
                            spec' = withPipeline pipelineName spec) rawSpecs more.
Proof.
  revert created specs h.
  induction rawSpecs as [|rawSpec rawSpecs IH]; intros created specs h Hcreate;
    cbn [createFilters] in Hcreate.
  - injection Hcreate as <- <- <-. exists []. rewrite app_nil_r. split; [reflexivity|constructor].
  - destruct (NewFilterSpec rawSpec super) as [spec|] eqn:Hspec; [|discriminate].
    destruct (QueryFilterRegistry (specKind spec)) as [rootInst|]; [|discriminate].
    destruct (IH _ _ _ Hcreate) as (more & -> & Hmore).
    exists (withPipeline pipelineName spec :: more). rewrite <- app_assoc.
    split; [reflexivity|]. constructor; [|assumption]. now exists spec.
Qed.


(** X10. [reload] runs to its end exactly when every filter entry builds a
    filter spec of a registered kind and, unless the spec has no filter
    entry, the map [p.filters] of the receiver is not nil.  Otherwise it
    panics, and nothing recovers the panic. *)
Theorem reload_completes (p : Pipeline) (previousGeneration : option Pipeline) (h : Heap) :
  is_Some (reload p previousGeneration h) <->
  Forall (fun rawSpec => exists spec,
            NewFilterSpec rawSpec (Super (superSpec p)) = inl spec /\
            is_Some (QueryFilterRegistry (specKind spec)))
    (Filters (spec p)) /\
  (is_Some (filters p) \/ Filters (spec p) = []).
Proof.
  unfold reload. split.
  - intros [[p' h'] Hreload].
    destruct (createFilters _ _ _ _ _ _) as [[[created specs] h0]|] eqn:Hcreate;
      [|discriminate].
    split; [exact (createFilters_ok _ _ _ _ _ _ _ _ _ Hcreate)|].
    destruct (filters p) as [m|]; [left; eauto|right].
    destruct (createFilters_calls _ _ _ _ _ _ _ _ _ Hcreate eq_refl) as [_ Hlen].
    destruct (createFilters_names _ _ _ _ _ _ _ _ _ Hcreate) as (more & Hmore & Hlen' & _).
    cbn [app] in Hmore. subst more.
    destruct created as [|filter created].
    + cbn [length] in Hlen. rewrite <- Hlen in Hlen'.
      now destruct (Filters (spec p)).
    + cbn [initFilters] in Hreload. destruct (specs !! 0%nat); discriminate.
  - intros [Hok Hmap].
    destruct (createFilters_total (superName (superSpec p)) (Super (superSpec p)) _ [] [] h Hok)
      as [[[created specs] h0] Hcreate].
    rewrite Hcreate.
    destruct (createFilters_calls _ _ _ _ _ _ _ _ _ Hcreate eq_refl) as [_ Hlen].
    assert (is_Some (initFilters previousGeneration specs 0 created (filters p) h0))
      as [[pfilters h1] ->].
    { destruct Hmap as [[m ->]|Hnil].
      - destruct (initFilters_calls previousGeneration specs 0 created m h0)
          as (pfilters & h' & -> & _); [lia|eauto].
      - rewrite Hnil in Hcreate. cbn [createFilters] in Hcreate.
        injection Hcreate as <- <- <-. cbn [initFilters]. eauto. }
    case_bool_decide; eauto.
Qed.

Lemma Forall2_flowOf (pfilters : option (gmap string FilterRef)) (specs : list FilterSpec) :
  Forall2 (fun spec n =>
             Filter n = specName spec /\ JumpIf n = ∅ /\ RequestID n = "" /\
             ResponseID n = "" /\ UseRequest n = "" /\
             (Filter n ≠ builtInFilterEnd -> filter_ n = getFilter pfilters (specName spec)))
    specs (bindNode pfilters <$> flowOf specs).
Proof.
  induction specs as [|spec specs IH]; [constructor|].
  unfold flowOf. rewrite !fmap_cons. constructor; [|exact IH].
  unfold bindNode. cbn [Filter]. case_bool_decide; cbn; repeat split; congruence.
Qed.

(** X11. When the spec defines no flow, [reload] makes one up: one node
    per filter entry, in the order of the entries, named after the filter
    the entry builds, with no jumpIf and no identifier, and bound to the
    filter the pipeline holds under that name. *)
Theorem reload_default_flow (p p' : Pipeline) (previousGeneration : option Pipeline)
    (h h' : Heap) :
  reload p previousGeneration h = Some (p', h') ->
  Flow (spec p) = [] ->
  Forall2 (fun rawSpec n =>
             exists spec,
               NewFilterSpec rawSpec (Super (superSpec p)) = inl spec /\
               Filter n = specName spec /\ JumpIf n = ∅ /\ RequestID n = "" /\
               ResponseID n = "" /\ UseRequest n = "" /\
               (Filter n ≠ builtInFilterEnd ->
                is_Some (filter_ n) /\ filter_ n = getFilter (filters p') (Filter n)))
    (Filters (spec p)) (flow p').
Proof.
  unfold reload. intros Hreload Hflow.
  destruct (createFilters _ _ _ _ _ _) as [[[created specs] h0]|] eqn:Hcreate; [|discriminate].
  destruct (createFilters_calls _ _ _ _ _ _ _ _ _ Hcreate eq_refl) as [_ Hlen].
  destruct (createFilters_specs _ _ _ _ _ _ _ _ _ Hcreate) as (more & Hmore & Hspecs).
  cbn [app] in Hmore. subst more.
  destruct (initFilters _ _ _ _ _ _) as [[pfilters h1]|] eqn:Hinit; [|discriminate].
  apply initFilters_domain in Hinit as [_ Hdom]; [|lia]. rewrite drop_0 in Hdom.
  rewrite Hflow in Hreload. cbn [length] in Hreload.
  rewrite bool_decide_eq_true_2 in Hreload by reflexivity.
  injection Hreload as <- <-. cbn [flow filters].
  pose proof (Forall2_flowOf pfilters specs) as Hnodes.
  clear Hlen Hcreate.
  revert Hdom Hnodes. generalize (bindNode pfilters <$> flowOf specs) as nodes.
  induction Hspecs as [|rawSpec spec' rawSpecs specs (spec & Hspec & ->) _ IH];
    intros nodes Hdom Hnodes.
  - inversion Hnodes. constructor.
  - inversion Hnodes as [|? n ? nodes' (Hname & Hjump & Hreq & Hresp & Huse & Hbind) Hrest];
      subst. constructor.
    + exists spec. cbn [specName withPipeline] in *.
      do 6 (split; [assumption|]). intros Hend. rewrite (Hbind Hend). split.
      * apply (Hdom (withPipeline (superName (superSpec p)) spec)). left.
      * now rewrite Hname.
    + apply IH; [|assumption]. intros spec0 Hin. apply Hdom. now right.
Qed.

Lemma last_filter_cons {A : Type} (P : A -> Prop) `{forall x, Decision (P x)}
    (x : A) (l : list A) :
  last (base.filter P (x :: l)) =
  match last (base.filter P l) with
  | Some y => Some y
  | None => if decide (P x) then Some x else None
  end.
Proof.
  rewrite filter_cons. case_decide.
  - rewrite last_cons. now destruct (last _).
  - now destruct (last _).
Qed.

Lemma initFilters_table (previousGeneration : option Pipeline) (specs : list FilterSpec)
    (i : nat) (created : list FilterRef) (m : gmap string FilterRef) (h : Heap) :
  (length created + i = length specs)%nat ->
  exists m' h',
    initFilters previousGeneration specs i created (Some m) h = Some (Some m', h') /\
    forall name,
      m' !! name =
      match last (base.filter (fun e => specName e.2 = name) (zip created (drop i specs))) with
      | Some e => Some e.1
      | None => m !! name
      end.
Proof.
  revert i m h. induction created as [|filter created IH]; intros i m h Hlen;
    cbn [initFilters length] in *.
  - exists m, h. split; [reflexivity|]. intros name. reflexivity.
  - destruct (lookup_lt_is_Some_2 specs i) as [spec Hspec]; [lia|].
    rewrite Hspec, (drop_S _ _ _ Hspec).
    match goal with |- context [initFilters _ _ _ _ _ ?h1] =>
      destruct (IH (S i) (<[specName spec := filter]> m) h1) as (m' & h' & -> & Htable);
        [lia|] end.
    exists m', h'. split; [reflexivity|]. intros name. rewrite Htable.
    change (zip (filter :: created) (spec :: drop (S i) specs))
      with ((filter, spec) :: zip created (drop (S i) specs)).
    rewrite last_filter_cons.
    destruct (last _); [reflexivity|]. cbn [fst snd].
    rewrite lookup_insert. repeat case_decide; try reflexivity; congruence.
Qed.

(** The last element of a list that has a property comes after every
    other that has it. *)
Lemma last_filter_lookup {A : Type} (P : A -> Prop) `{forall x, Decision (P x)}
    (l : list A) (e : A) :
  last (base.filter P l) = Some e ->
  exists k, l !! k = Some e /\ P e /\
            forall k' y, (k < k')%nat -> l !! k' = Some y -> ~ P y.
Proof.
  induction l as [|x l IH]; intros Hlast; [discriminate|].
  rewrite last_filter_cons in Hlast.
  destruct (last (base.filter P l)) as [y|] eqn:Hl.
  - injection Hlast as ->. destruct (IH eq_refl) as (k & Hk & He & Hafter).
    exists (S k). split; [assumption|]. split; [assumption|].
    intros [|k'] z Hlt Hz; [lia|]. apply (Hafter k' z); [lia|assumption].
  - case_decide as Hx; [|discriminate]. injection Hlast as ->.
    exists 0%nat. split; [reflexivity|]. split; [assumption|].
    intros [|k'] z Hlt Hz Pz; [lia|]. cbn in Hz.
    apply last_None in Hl.
    assert (z ∈ base.filter P l) as Hin
      by (apply list_elem_of_filter; split; [assumption|now apply list_elem_of_lookup_2 in Hz]).
    rewrite Hl in Hin. inversion Hin.
Qed.

(** What [reload] has made when it ends: the instances and the calls, and
    the filter the pipeline holds under each name. *)
Lemma reload_table (p p' : Pipeline) (previousGeneration : option Pipeline) (h h' : Heap) :
  reload p previousGeneration h = Some (p', h') ->
  exists created specs,
    instancesOf (superName (superSpec p)) (Super (superSpec p)) (allocated h)
      (Filters (spec p)) created specs /\
    length created = length specs /\
    calls h' = calls h ++ zip_with (handOff previousGeneration) created specs /\
    forall name,
      getFilter (filters p') name =
      match last (base.filter (fun e => specName e.2 = name) (zip created specs)) with
      | Some e => Some e.1
      | None => getFilter (filters p) name
      end.
Proof.
  intros Hreload.
  destruct (reload_calls _ _ _ _ _ Hreload) as (created & specs & Hinstances & Hcalls).
  exists created, specs. split; [assumption|].
  unfold reload in Hreload.
  destruct (createFilters _ _ _ _ _ _) as [[[created0 specs0] h0]|] eqn:Hcreate; [|discriminate].
  destruct (createFilters_calls _ _ _ _ _ _ _ _ _ Hcreate eq_refl) as [_ Hlen].
  destruct (createFilters_instances _ _ _ _ _ _ _ _ _ Hcreate)
    as (newFilters & newSpecs & Hcreated & Hspecs & Hinstances0 & _).
  cbn [app] in Hcreated, Hspecs. subst newFilters newSpecs.
  assert (created0 = created /\ specs0 = specs) as [-> ->].
  { destruct Hinstances as (Hs & Hk & Ha), Hinstances0 as (Hs0 & Hk0 & Ha0).
    assert (specs0 = specs) as ->.
    { clear -Hs Hs0. revert specs Hs.
      induction Hs0 as [|rawSpec spec0 rawSpecs specs0 (s0 & Hs0 & ->) _ IH];
        intros specs Hs; inversion Hs as [|? spec ? specs' (s1 & Hs1 & ->) Hrest]; subst;
        [reflexivity|]. rewrite Hs0 in Hs1. injection Hs1 as <-. f_equal. now apply IH. }
    split; [|reflexivity].
    rewrite <- Ha0 in Ha. clear -Hk Hk0 Ha. revert created Hk Ha.
    induction Hk0 as [|spec f0 specs created0 (r0 & Hr0 & Hkind0) _ IH];
      intros created Hk Ha; inversion Hk as [|? f ? created' (r1 & Hr1 & Hkind1) Hrest]; subst;
      [reflexivity|].
    rewrite !fmap_cons in Ha. injection Ha as Haddr Ha.
    rewrite Hr0 in Hr1. injection Hr1 as <-.
    f_equal; [|now apply IH].
    destruct f0, f. cbn in *. congruence. }
  do 2 (split; [assumption|]).
  destruct (filters p) as [m|].
  - destruct (initFilters_table previousGeneration specs 0 created m h0)
      as (m' & h1 & Hinit & Htable); [lia|].
    rewrite Hinit, drop_0 in *.
    assert (filters p' = Some m') as -> by (case_bool_decide; now injection Hreload as <- _).
    exact Htable.
  - destruct created as [|filter created]; cbn [initFilters] in Hreload.
    + assert (filters p' = None) as -> by (case_bool_decide; now injection Hreload as <- _).
      reflexivity.
    + destruct (specs !! 0%nat); discriminate.
Qed.

(** X12. After [reload] the pipeline holds, under each filter name of the
    spec, the instance created for the last entry of that name, and names
    that are not in the spec keep what the map of the receiver held;
    [reload] has made one call per entry, in the order of the entries, on
    the instance created for the entry.  An instance created for an entry
    that a later entry of the same name follows has had its [Init] or
    [Inherit] call but is held under no name, provided the map of the
    receiver held only instances allocated before the call. *)
Theorem reload_keeps_last_instance (p p' : Pipeline) (previousGeneration : option Pipeline)
    (h h' : Heap) :
  reload p previousGeneration h = Some (p', h') ->
  exists created specs,
    instancesOf (superName (superSpec p)) (Super (superSpec p)) (allocated h)
      (Filters (spec p)) created specs /\
    calls h' = calls h ++ zip_with (handOff previousGeneration) created specs /\
    (forall name,
       getFilter (filters p') name =
       match last (base.filter (fun e => specName e.2 = name) (zip created specs)) with
       | Some e => Some e.1
       | None => getFilter (filters p) name
       end) /\
    ((forall name f, getFilter (filters p) name = Some f -> (addr f < allocated h)%nat) ->
     forall i j f spec spec',
       created !! i = Some f ->
       specs !! i = Some spec ->
       specs !! j = Some spec' ->
       (i < j)%nat ->
       specName spec' = specName spec ->
       handOff previousGeneration f spec ∈ calls h' /\
       forall name, getFilter (filters p') name ≠ Some f).
Proof.
  intros Hreload.
  destruct (reload_table _ _ _ _ _ Hreload)
    as (created & specs & Hinstances & Hlen & Hcalls & Htable).
  exists created, specs. do 3 (split; [assumption|]).
  intros Hold i j f spec spec' Hf Hspec Hspec' Hlt Hname. split.
  - rewrite Hcalls. apply elem_of_app. right.
    apply list_elem_of_lookup. exists i. rewrite lookup_zip_with, Hf, Hspec. reflexivity.
  - intros name Hheld. rewrite Htable in Hheld.
    destruct Hinstances as (_ & _ & Haddr).
    destruct (last _) as [e|] eqn:Hlast.
    + injection Hheld as He.
      apply last_filter_lookup in Hlast as (k & Hk & Hnamed & Hafter).
      apply lookup_zip_with_Some in Hk as (f' & spec'' & -> & Hf' & Hspec'').
      cbn [fst snd] in *. subst f'.
      assert (k = i) as ->.
      { eapply NoDup_lookup; [|exact Hf'|exact Hf].
        apply (NoDup_fmap_1 addr). rewrite Haddr. apply NoDup_seq. }
      rewrite Hspec in Hspec''. injection Hspec'' as <-.
      destruct (lookup_lt_is_Some_2 created j) as [f'' Hf''].
      { rewrite Hlen. eapply lookup_lt_Some, Hspec'. }
      apply (Hafter j (f'', spec')); [assumption| |cbn; congruence].
      apply lookup_zip_with_Some. now exists f'', spec'.
    + apply Hold in Hheld.
      assert ((addr <$> created) !! i = Some (addr f)) as Hi
        by now rewrite list_lookup_fmap, Hf.
      rewrite Haddr in Hi. apply lookup_seq in Hi as [Hi _]. lia.
Qed.

Lemma calls_Close (order : list (string * FilterRef)) (h : Heap) :
  calls (Close order h) = calls h ++ ((fun e => CallClose e.2) <$> order).
Proof.
  unfold Close. revert h. induction order as [|e order IH]; intros h; cbn [fold_left].
  - now rewrite app_nil_r.
  - rewrite IH. cbn [call calls]. now rewrite <- app_assoc.
Qed.

Lemma closeCount_Close (m : option (gmap string FilterRef)) (f : FilterRef)
    (order : list (string * FilterRef)) :
  ranges m order ->
  closeCount f ((fun e => CallClose e.2) <$> order) = heldUnder m f.
Proof.
  intros Horder. unfold heldUnder, ranges in *. rewrite <- Horder. clear Horder.
  unfold closeCount. induction order as [|e order IH]; [reflexivity|].
  rewrite fmap_cons, !filter_cons.
  destruct (decide (e.2 = f)) as [Heq|Hne].
  - rewrite decide_True by now rewrite Heq. cbn [length]. now rewrite IH.
  - rewrite decide_False by congruence. exact IH.
Qed.

(** X13. [Close] calls [Close] on the filter of every entry of the map,
    once per entry, and makes no other call, in whatever order the loop
    visits the entries; on a nil map it does nothing.  The map is left as
    it is, so a second [Close] closes every filter once more. *)
Theorem Close_closes_held_filters (p : Pipeline) (order order' : list (string * FilterRef))
    (h : Heap) :
  ranges (filters p) order ->
  ranges (filters p) order' ->
  (exists closed,
     calls (Close order h) = calls h ++ closed /\
     closed ≡ₚ (fun e => CallClose e.2) <$> entriesOf (filters p)) /\
  (forall f, closeCount f (calls (Close order h))
             = (closeCount f (calls h) + heldUnder (filters p) f)%nat) /\
  (forall f, closeCount f (calls (Close order' (Close order h)))
             = (closeCount f (calls h) + 2 * heldUnder (filters p) f)%nat) /\
  (filters p = None -> Close order h = h).
Proof.
  intros Horder Horder'. split; [|split; [|split]].
  - exists ((fun e => CallClose e.2) <$> order). split; [apply calls_Close|].
    now apply fmap_Permutation.
  - intros f. now rewrite calls_Close, closeCount_app, (closeCount_Close (filters p)).
  - intros f. rewrite !calls_Close, !closeCount_app, !(closeCount_Close (filters p)) by assumption.
    lia.
  - intros Hnil. unfold ranges in Horder. rewrite Hnil in Horder.
    apply Permutation_nil_r in Horder. now subst order.
Qed.

End LifecycleMore.

(** * Further properties of httpstat *)

Section HTTPStatMore.
Import httpstat.
Context `{Collaborators}.

Lemma sumOf_snoc (field : Metric -> Z) (ms : list Metric) (m : Metric) :
  sumOf field (ms ++ [m]) = sumOf field ms + field m.
Proof.
  unfold sumOf. induction ms as [|m' ms IH]; cbn [app fold_right] in *; lia.
Qed.

Lemma sumOf_durations (ms : list Metric) : sumOf durationOf ms = sumDurations ms.
Proof. reflexivity. Qed.

Lemma GetStatus_sizes (hs : HTTPStat) :
  StatusReqSize (GetStatus hs).1 = reqSize hs /\ StatusRespSize (GetStatus hs).1 = respSize hs.
Proof.
  unfold GetStatus. destruct (samplerPercentiles _) as [[[[[[? ?] ?] ?] ?] ?] ?]. now split.
Qed.

Lemma uint64_add_l (x y : Z) : uint64 (uint64 x + y) = uint64 (x + y).
Proof. unfold uint64. apply Zplus_mod_idemp_l. Qed.

(** The counters after a run of [Stat] calls, with their wrap-around. *)
Lemma StatAll_counters (ms : list Metric) :
  let hs := StatAll ms New in
  count hs = uint64 (Z.of_nat (length ms)) /\
  errCount hs = uint64 (errorsOf ms) /\
  total hs = uint64 (sumDurations ms) /\
  reqSize hs = uint64 (sumOf ReqSize ms) /\
  respSize hs = uint64 (sumOf RespSize ms).
Proof.
  induction ms as [|m ms IH] using rev_ind; [now repeat split|].
  destruct IH as (Hcount & Herr & Htotal & Hreq & Hresp).
  cbv zeta. rewrite StatAll_snoc. cbn [Stat count errCount total reqSize respSize].
  rewrite Hcount, Herr, Htotal, Hreq, Hresp. unfold AddUint64. rewrite !uint64_add_l.
  rewrite length_app, sumDurations_snoc, errorsOf_snoc, !sumOf_snoc. cbn [length].
  repeat split; try (f_equal; lia); try reflexivity.
  destruct (isErr m); [reflexivity|f_equal; lia].
Qed.

(** X14. Every counter of a [Status] is the true total modulo 2^64: the
    number of [Stat] calls, the number of those with a status code of 400
    or more, and the sums of the request and response sizes; [Mean] is the
    wrapped sum of the durations over the wrapped count, and 0 when the
    wrapped count is 0. *)
Theorem Status_counters_wrap (ms : list Metric) :
  let status := (GetStatus (StatAll ms New)).1 in
  Count status = Z.of_nat (length ms) mod 2 ^ 64 /\
  ErrCount status = Z.of_nat (length (base.filter (fun m => 400 <= StatusCode m) ms)) mod 2 ^ 64 /\
  StatusReqSize status = sumOf ReqSize ms mod 2 ^ 64 /\
  StatusRespSize status = sumOf RespSize ms mod 2 ^ 64 /\
  Mean status = (if 0 <? Z.of_nat (length ms) mod 2 ^ 64
                 then (sumOf durationOf ms mod 2 ^ 64) / (Z.of_nat (length ms) mod 2 ^ 64)
                 else 0).
Proof.
  cbv zeta. destruct (StatAll_counters ms) as (Hcount & Herr & Htotal & Hreq & Hresp).
  destruct (GetStatus_sizes (StatAll ms New)) as [-> ->].
  rewrite GetStatus_Count, GetStatus_ErrCount, GetStatus_Mean.
  rewrite Hcount, Herr, Htotal, Hreq, Hresp. unfold uint64.
  repeat split. unfold errorsOf. do 3 f_equal.
  apply list_filter_iff. intros m. unfold isErr. now rewrite Z.leb_le.
Qed.

(** The smallest and the largest duration recorded are recorded ones. *)
Lemma min_max_attained (ms : list Metric) :
  ms ≠ [] ->
  (exists m, m ∈ ms /\ min (StatAll ms New) = durationOf m) /\
  (exists m, m ∈ ms /\ max (StatAll ms New) = durationOf m).
Proof.
  induction ms as [|m ms IH] using rev_ind; [congruence|]. intros _.
  rewrite StatAll_snoc. cbn [Stat min max]. fold (durationOf m).
  pose proof (durationOf_range m) as Hm.
  destruct ms as [|m0 ms].
  - cbn [StatAll fold_left New min max app]. unfold MaxUint64. split; exists m.
    + split; [left|]. destruct (Z.leb_spec (2 ^ 64 - 1) (durationOf m)); lia.
    + split; [left|]. destruct (Z.leb_spec (durationOf m) 0); lia.
  - destruct IH as [(m1 & Hm1 & Hmin) (m2 & Hm2 & Hmax)]; [discriminate|].
    split.
    + destruct (Z.leb_spec (min (StatAll (m0 :: ms) New)) (durationOf m)).
      * exists m1. split; [|assumption]. apply elem_of_app. now left.
      * exists m. split; [|reflexivity]. apply elem_of_app. right. left.
    + destruct (Z.leb_spec (durationOf m) (max (StatAll (m0 :: ms) New))).
      * exists m2. split; [|assumption]. apply elem_of_app. now left.
      * exists m. split; [|reflexivity]. apply elem_of_app. right. left.
Qed.

(** X15. After at least one [Stat] call, [Max] is the largest recorded
    duration, and [Min], when [Count] is not 0, the smallest: each is
    the recorded duration of one of the calls and bounds those of all the
    calls, whether or not the sum of the durations has wrapped. *)
Theorem Status_min_max_attained (ms : list Metric) :
  ms ≠ [] ->
  let status := (GetStatus (StatAll ms New)).1 in
  (exists m, m ∈ ms /\ Max status = durationOf m) /\
  (forall m, m ∈ ms -> durationOf m <= Max status) /\
  (0 < Count status ->
   (exists m, m ∈ ms /\ Min status = durationOf m) /\
   (forall m, m ∈ ms -> Min status <= durationOf m)).
Proof.
  intros Hms. cbv zeta. rewrite GetStatus_Max, GetStatus_Min, GetStatus_Count.
  destruct (min_max_attained ms Hms) as [Hmin Hmax].
  pose proof (min_max_StatAll ms) as Hbounds. rewrite Forall_forall in Hbounds.
  split; [assumption|]. split; [intros m Hm; now apply Hbounds|].
  intros Hcount. destruct (Z.ltb_spec 0 (count (StatAll ms New))); [|lia].
  split; [assumption|]. intros m Hm. now apply Hbounds.
Qed.

Lemma sameCounters_Stat (m : Metric) (hs hs' : HTTPStat) :
  sameCounters hs hs' -> sameCounters (Stat m hs) (Stat m hs').
Proof.
  intros (Hc & He & Ht & Hmin & Hmax & Hreq & Hresp). unfold sameCounters.
  cbn [Stat count errCount total min max reqSize respSize].
  now rewrite Hc, He, Ht, Hmin, Hmax, Hreq, Hresp.
Qed.

Lemma sameCounters_GetStatus (hs hs' : HTTPStat) :
  sameCounters hs hs' -> sameCounters (GetStatus hs).2 hs'.
Proof.
  unfold GetStatus. destruct (samplerPercentiles _) as [[[[[[? ?] ?] ?] ?] ?] ?].
  intros Hsame. exact Hsame.
Qed.

Lemma sameCounters_run (ops : list Op) (hs hs' : HTTPStat) :
  sameCounters hs hs' -> sameCounters (run ops hs) (StatAll (metricsOf ops) hs').
Proof.
  revert hs hs'. induction ops as [|[m|] ops IH]; intros hs hs' Hsame.
  - exact Hsame.
  - cbn [run fold_left metricsOf omap list_omap StatAll]. apply IH.
    now apply sameCounters_Stat.
  - cbn [run fold_left metricsOf omap list_omap]. apply IH.
    now apply sameCounters_GetStatus.
Qed.

(** X16. [Status] resets no counter.  Over any sequence of sequential
    [Stat] and [Status] calls on a fresh HTTPStat, a [Status] taken at the
    end reports the [Count], [ErrCount], [Min], [Max], [Mean] and sizes
    that it would report had the [Stat] calls been made alone. *)
Theorem Status_keeps_counters (ops : list Op) :
  let status := (GetStatus (run ops New)).1 in
  let alone := (GetStatus (StatAll (metricsOf ops) New)).1 in
  Count status = Count alone /\
  ErrCount status = ErrCount alone /\
  Min status = Min alone /\
  Max status = Max alone /\
  Mean status = Mean alone /\
  StatusReqSize status = StatusReqSize alone /\
  StatusRespSize status = StatusRespSize alone.
Proof.
  cbv zeta.
  assert (sameCounters New New) as Hnew by now repeat split.
  destruct (sameCounters_run ops New New Hnew) as (Hc & He & Ht & Hmin & Hmax & Hreq & Hresp).
  destruct (GetStatus_sizes (run ops New)) as [-> ->].
  destruct (GetStatus_sizes (StatAll (metricsOf ops) New)) as [-> ->].
  rewrite !GetStatus_Count, !GetStatus_ErrCount, !GetStatus_Min, !GetStatus_Max, !GetStatus_Mean.
  now rewrite Hc, He, Ht, Hmin, Hmax, Hreq, Hresp.
Qed.

(** X17. While the number of [Stat] calls is below 2^64, [ErrCount] never
    exceeds [Count], whatever [Status] calls come in between. *)
Theorem ErrCount_le_Count (ops : list Op) :
  Z.of_nat (length (metricsOf ops)) < 2 ^ 64 ->
  let status := (GetStatus (run ops New)).1 in
  0 <= ErrCount status <= Count status.
Proof.
  intros Hlen. cbv zeta.
  assert (sameCounters New New) as Hnew by now repeat split.
  destruct (sameCounters_run ops New New Hnew) as (Hc & He & _).
  rewrite GetStatus_Count, GetStatus_ErrCount, Hc, He.
  rewrite count_StatAll, errCount_StatAll by assumption.
  apply errorsOf_le.
Qed.

End HTTPStatMore.

(** * Properties of Status and of serializeStats *)

Section StatusFacts.
Import pipeline.
Context `{Registry}.
Variables (V State : Type) (FilterStatus : FilterRef -> State -> V * State).

Lemma gatherStatus_reached (order : list (string * FilterRef)) (statuses : gmap string V)
    (st : State) :
  NoDup order.*1 ->
  let result := gatherStatus V State FilterStatus order statuses st in
  (forall name, name ∉ order.*1 -> result.1 !! name = statuses !! name) /\
  (forall i name filter,
     order !! i = Some (name, filter) ->
     exists st0,
       reached V State FilterStatus order st !! i = Some st0 /\
       result.1 !! name = Some (FilterStatus filter st0).1) /\
  result.2 = fold_left (fun st e => (FilterStatus e.2 st).2) order st.
Proof.
  revert statuses st. induction order as [|[n f] order IH]; intros statuses st Hdup.
  - cbn. split; [reflexivity|]. split; [|reflexivity]. intros i name filter Hi.
    now rewrite lookup_nil in Hi.
  - rewrite fmap_cons in Hdup. apply NoDup_cons in Hdup as [Hn Hdup]. cbn [fst] in Hn.
    cbn [gatherStatus reached fold_left snd]. destruct (FilterStatus f st) as [v st1] eqn:Hstatus.
    destruct (IH (<[n := v]> statuses) st1 Hdup) as (Hout & Hin & Hend). cbv zeta in *.
    cbn [snd]. split; [|split; [|assumption]].
    + intros name Hname. rewrite fmap_cons, not_elem_of_cons in Hname. cbn [fst] in Hname.
      destruct Hname as [Hne Hname]. rewrite (Hout name Hname). now rewrite lookup_insert_ne.
    + intros [|i] name filter Hi.
      * injection Hi as <- <-. exists st. split; [reflexivity|].
        rewrite (Hout n Hn), lookup_insert_eq. now rewrite Hstatus.
      * now apply Hin.
Qed.

(** X18. The status of a pipeline has one entry for each name under which
    the pipeline holds a filter, and no other.  The entry under a name is
    what [Status()] of the filter held under it returns in the state the
    [Status()] calls of the entries visited before it have left, in
    whatever order the loop visits the entries; the state at the end is
    the one the calls leave, one after the other.  On a nil map the status
    has no entry. *)
Theorem Status_gathers_filters (p : Pipeline) (order : list (string * FilterRef)) (st : State) :
  ranges (filters p) order ->
  let result := GetStatus V State FilterStatus order st in
  (forall name filter,
     getFilter (filters p) name = Some filter ->
     exists i st0,
       order !! i = Some (name, filter) /\
       reached V State FilterStatus order st !! i = Some st0 /\
       StatusFilters result.1 !! name = Some (FilterStatus filter st0).1) /\
  (forall name,
     getFilter (filters p) name = None -> StatusFilters result.1 !! name = None) /\
  result.2 = fold_left (fun st e => (FilterStatus e.2 st).2) order st.
Proof.
  intros Horder. unfold ranges in Horder.
  assert (NoDup order.*1) as Hdup.
  { rewrite Horder. unfold entriesOf. destruct (filters p) as [m|]; [|constructor].
    apply NoDup_fst_map_to_list. }
  assert (forall name filter,
            (name, filter) ∈ order <-> getFilter (filters p) name = Some filter) as Hheld.
  { intros name filter. rewrite Horder. unfold entriesOf, getFilter.
    destruct (filters p) as [m|]; cbn [mbind option_bind].
    - apply elem_of_map_to_list.
    - split; [intros Hin; inversion Hin|discriminate]. }
  destruct (gatherStatus_reached order ∅ st Hdup) as (Hout & Hin & Hend). cbv zeta in *.
  unfold GetStatus.
  destruct (gatherStatus V State FilterStatus order ∅ st) as [statuses st'].
  cbn [fst snd StatusFilters] in *. split; [|split; [|assumption]].
  - intros name filter Hname. apply Hheld, list_elem_of_lookup in Hname as [i Hi].
    destruct (Hin i name filter Hi) as (st0 & Hst0 & Hentry). now exists i, st0.
  - intros name Hname. rewrite Hout; [apply lookup_empty|].
    intros Hin'. apply list_elem_of_fmap in Hin' as ([n f] & -> & Hnf).
    apply Hheld in Hnf. cbn [fst] in Hname. congruence.
Qed.

End StatusFacts.

Section SerializeMore.
Import pipeline.
Context `{Runtime}.

Lemma arrows_snoc (entries : list string) (e : string) :
  arrows (entries ++ [e]) = arrows entries +:+ "->" +:+ e.
Proof.
  induction entries as [|e' entries IH]; cbn [app arrows].
  - now rewrite append_empty_r.
  - now rewrite IH, !append_assoc.
Qed.

(** X19. The tag grows with the statistics: after a first entry, one more
    filter statistic adds [->] and its entry at the end of the tag, and
    leaves what was written before as it is. *)
Theorem serializeStats_snoc (stats : list FilterStat) (stat : FilterStat) :
  stats ≠ [] ->
  serializeStats (stats ++ [stat]) = serializeStats stats +:+ "->" +:+ entry stat.
Proof.
  intros Hstats. rewrite !serializeStats_tagOf; [|assumption|now destruct stats].
  unfold tagOf. destruct stats as [|stat0 stats]; [congruence|].
  rewrite fmap_app. change (entry <$> [stat]) with [entry stat].
  rewrite fmap_cons, <- app_comm_cons.
  now rewrite !concat_arrows, arrows_snoc, !append_assoc.
Qed.

End SerializeMore.

(** * The further properties on concrete inputs *)

Lemma validateJumpIf_any_order_witness :
  is_Some (pipeline.validateJumpIf "A" ["ok"] {[pipeline.builtInFilterEnd := true]}
             [("ok", "END"); ("late", "END")]) <->
  is_Some (pipeline.validateJumpIf "A" ["ok"] {[pipeline.builtInFilterEnd := true]}
             [("late", "END"); ("ok", "END")]).
Proof.
  apply (validateJumpIf_any_order "A" ["ok"] {[pipeline.builtInFilterEnd := true]}
           [("ok", "END"); ("late", "END")] [("late", "END"); ("ok", "END")]).
  apply perm_swap.
Defined.

Lemma Handle_stops_at_END_witness :
  let pre := [fixture.live "A" [] 0 "Silent"] in
  let rest := [fixture.live "B" [] 1 "Denier"] in
  pipeline.Handle (pre ++ fixture.node "END" [] :: rest) fixture.request
  = pipeline.Handle pre fixture.request.
Proof.
  eapply (@Handle_stops_at_END fixture.runtime [fixture.live "A" [] 0 "Silent"]
            [fixture.live "B" [] 1 "Denier"] (fixture.node "END" []) fixture.request).
  - vm_compute. reflexivity.
  - reflexivity.
  - reflexivity.
Defined.

Lemma Handle_jump_to_END_witness :
  let node := fixture.live "A" [("deny", "END")] 0 "Denier" in
  let rest := [fixture.live "B" [] 1 "Silent"] in
  pipeline.Handle ([] ++ node :: rest) fixture.request
  = pipeline.Handle ([] ++ [node]) fixture.request /\
  fst <$> pipeline.Handle ([] ++ node :: rest) fixture.request = Some "deny".
Proof.
  apply (@Handle_jump_to_END fixture.runtime [] [fixture.live "B" [] 1 "Silent"]
           (fixture.live "A" [("deny", "END")] 0 "Denier") fixture.request
           (@pipeline.initial fixture.runtime fixture.request)
           {| pipeline.addr := 0; pipeline.Kind := "Denier" |} "deny").
  - reflexivity.
  - left. reflexivity.
  - vm_compute. discriminate.
  - reflexivity.
  - vm_compute. reflexivity.
  - discriminate.
  - vm_compute. reflexivity.
Defined.

Lemma Handle_linear_witness :
  let flow := [fixture.live "A" [] 0 "Silent"; fixture.live "B" [] 1 "Skipper";
               fixture.live "C" [] 2 "Denier"] in
  exists label w runs,
    @pipeline.Handle (pipeline.observed fixture.runtime) flow (fixture.request, [])
      = Some (label, (w, flat_map pipeline.eventsOf runs
                           ++ [pipeline.EvTag
                                 (pipeline.serializeStats (pipeline.statOf <$> runs))])) /\
    pipeline.Handle flow fixture.request = Some (label, w) /\
    pipeline.atNode <$> runs = flow /\
    Forall (fun i => pipeline.filter_ (pipeline.atNode i) = Some (pipeline.invoked i)) runs /\
    pipeline.handleStats flow fixture.request = Some (pipeline.statOf <$> runs).
Proof.
  apply (Handle_linear fixture.runtime
           [fixture.live "A" [] 0 "Silent"; fixture.live "B" [] 1 "Skipper";
            fixture.live "C" [] 2 "Denier"] fixture.request).
  - repeat constructor; vm_compute; discriminate.
  - repeat constructor; intros _; eexists; reflexivity.
Defined.


Lemma validated_jump_lands_witness :
  let post := [fixture.node "B" []; fixture.node "C" []] in
  exists mid n rest,
    post = mid ++ n :: rest /\
    pipeline.Filter n = "C" /\
    Forall (fun m => pipeline.Filter m ≠ "C") mid /\
    forall pfilters st,
      pipeline.next st = "C" ->
      pipeline.steps (pipeline.bindNode pfilters <$> post) st
      = pipeline.steps (pipeline.bindNode pfilters <$> n :: rest) st.
Proof.
  apply (@validated_jump_lands fixture.registry fixture.runtime
           (fixture.spec
              [fixture.node "A" [("skip", "C")]; fixture.node "B" []; fixture.node "C" []]
              [("A", "Skipper"); ("B", "Silent"); ("C", "Flaky")])
           [] [fixture.node "B" []; fixture.node "C" []]
           (fixture.node "A" [("skip", "C")]) "skip" "C").
  - vm_compute. reflexivity.
  - reflexivity.
  - vm_compute. discriminate.
  - vm_compute. reflexivity.
  - vm_compute. discriminate.
  - discriminate.
Defined.

Lemma validated_pipeline_handles_witness :
  let superSpec :=
    fixture.superSpec "demo"
      [fixture.node "A" [("skip", "C")]; fixture.node "B" []; fixture.node "C" []]
      [("A", "Skipper"); ("B", "Silent"); ("C", "Flaky")] in
  (forall p h p' h',
     pipeline.Init p superSpec h = Some (p', h') ->
     pipeline.bound (pipeline.flow p') /\
     forall ctx, is_Some (pipeline.Handle (pipeline.flow p') ctx)) /\
  (forall p previousGeneration h p' h',
     pipeline.Inherit p superSpec previousGeneration h = Some (p', h') ->
     pipeline.bound (pipeline.flow p') /\
     forall ctx, is_Some (pipeline.Handle (pipeline.flow p') ctx)).
Proof.
  apply (@validated_pipeline_handles fixture.registry fixture.runtime
           (fixture.superSpec "demo"
              [fixture.node "A" [("skip", "C")]; fixture.node "B" []; fixture.node "C" []]
              [("A", "Skipper"); ("B", "Silent"); ("C", "Flaky")])).
  - intros f spec spec' Hnone Hsuper.
    change (fixture.newFilterSpec f None = inl spec) in Hnone.
    change (fixture.newFilterSpec f None = inl spec') in Hsuper.
    congruence.
  - vm_compute. reflexivity.
Defined.


Lemma reload_default_flow_witness :
  let p := pipeline.setSpec fixture.blank
             (fixture.superSpec "demo" [] [("A", "Silent"); ("B", "Denier")]) in
  match pipeline.reload p None fixture.emptyHeap with
  | Some (p', _) =>
      Forall2 (fun rawSpec n =>
                 exists spec,
                   pipeline.NewFilterSpec rawSpec None = inl spec /\
                   pipeline.Filter n = pipeline.specName spec /\
                   pipeline.JumpIf n = ∅ /\ pipeline.RequestID n = "" /\
                   pipeline.ResponseID n = "" /\ pipeline.UseRequest n = "" /\
                   (pipeline.Filter n ≠ pipeline.builtInFilterEnd ->
                    is_Some (pipeline.filter_ n) /\
                    pipeline.filter_ n
                    = pipeline.getFilter (pipeline.filters p') (pipeline.Filter n)))
        [("A", "Silent"); ("B", "Denier")] (pipeline.flow p')
  | None => False
  end.
Proof.
  intros p.
  destruct (pipeline.reload p None fixture.emptyHeap) as [[p' h']|] eqn:Hreload.
  - apply (reload_default_flow p p' None fixture.emptyHeap h' Hreload). reflexivity.
  - assert (fixture.completes (pipeline.reload p None fixture.emptyHeap) = true) as Hcompletes
      by (vm_compute; reflexivity).
    rewrite Hreload in Hcompletes. discriminate.
Defined.

Lemma reload_keeps_last_instance_witness :
  let old := {| pipeline.addr := 0; pipeline.Kind := "Silent" |} in
  let p := pipeline.setSpec (fixture.holding [("old", old)])
             (fixture.superSpec "demo" [] [("A", "Silent"); ("A", "Denier")]) in
  let h := {| pipeline.allocated := 1; pipeline.calls := [] |} in
  match pipeline.reload p None h with
  | Some (p', h') =>
      exists created specs,
        pipeline.instancesOf "demo" None 1 [("A", "Silent"); ("A", "Denier")] created specs /\
        pipeline.calls h' = [] ++ zip_with (pipeline.handOff None) created specs /\
        (forall name,
           pipeline.getFilter (pipeline.filters p') name =
           match last (base.filter (fun e => pipeline.specName e.2 = name)
                         (zip created specs)) with
           | Some e => Some e.1
           | None => pipeline.getFilter (pipeline.filters p) name
           end) /\
        forall i j f spec spec',
          created !! i = Some f ->
          specs !! i = Some spec ->
          specs !! j = Some spec' ->
          (i < j)%nat ->
          pipeline.specName spec' = pipeline.specName spec ->
          pipeline.handOff None f spec ∈ pipeline.calls h' /\
          forall name, pipeline.getFilter (pipeline.filters p') name ≠ Some f
  | None => False
  end.
Proof.
  intros old p h.
  destruct (pipeline.reload p None h) as [[p' h']|] eqn:Hreload.
  - destruct (reload_keeps_last_instance p p' None h h' Hreload)
      as (created & specs & Hinstances & Hcalls & Htable & Hdropped).
    exists created, specs. do 3 (split; [assumption|]). apply Hdropped.
    change (pipeline.filters p) with (Some (<["old" := old]> (∅ : gmap string pipeline.FilterRef))).
    cbn [pipeline.getFilter mbind option_bind].
    refine (proj1 (map_Forall_lookup
                     (fun (_ : string) (f : pipeline.FilterRef) => (pipeline.addr f < 1)%nat)
                     _) _).
    apply map_Forall_insert_2; [cbn; lia | apply map_Forall_empty].
  - assert (fixture.completes (pipeline.reload p None h) = true) as Hcompletes
      by (vm_compute; reflexivity).
    rewrite Hreload in Hcompletes. discriminate.
Defined.

Lemma Close_closes_held_filters_witness :
  let a := {| pipeline.addr := 0; pipeline.Kind := "Silent" |} in
  let b := {| pipeline.addr := 1; pipeline.Kind := "Denier" |} in
  let p := fixture.holding [("A", a); ("B", b)] in
  let order := [("B", b); ("A", a)] in
  let order' := [("A", a); ("B", b)] in
  let h := {| pipeline.allocated := 2; pipeline.calls := [] |} in
  (exists closed,
     pipeline.calls (pipeline.Close order h) = pipeline.calls h ++ closed /\
     closed ≡ₚ (fun e => pipeline.CallClose e.2) <$> pipeline.entriesOf (pipeline.filters p)) /\
  (forall f, pipeline.closeCount f (pipeline.calls (pipeline.Close order h))
             = (pipeline.closeCount f (pipeline.calls h)
                + pipeline.heldUnder (pipeline.filters p) f)%nat) /\
  (forall f, pipeline.closeCount f (pipeline.calls (pipeline.Close order' (pipeline.Close order h)))
             = (pipeline.closeCount f (pipeline.calls h)
                + 2 * pipeline.heldUnder (pipeline.filters p) f)%nat) /\
  (pipeline.filters p = None -> pipeline.Close order h = h).
Proof.
  intros a b p order order' h.
  assert (pipeline.ranges (pipeline.filters p) order') as Horder'.
  { unfold pipeline.ranges, pipeline.entriesOf. cbn [pipeline.filters p fixture.holding].
    symmetry. apply map_to_list_to_map. cbn [fmap list_fmap fst].
    apply NoDup_cons. split; [|apply NoDup_singleton].
    intros Hin. apply list_elem_of_singleton in Hin. discriminate. }
  apply (Close_closes_held_filters p order order' h); [|exact Horder'].
  unfold pipeline.ranges in *. rewrite <- Horder'. apply perm_swap.
Defined.

Lemma Status_gathers_filters_witness :
  let a := {| pipeline.addr := 0; pipeline.Kind := "Silent" |} in
  let b := {| pipeline.addr := 1; pipeline.Kind := "Denier" |} in
  let p := fixture.holding [("A", a); ("B", b)] in
  let order := [("B", b); ("A", a)] in
  let result := pipeline.GetStatus (string * nat) nat fixture.status order 0%nat in
  (forall name filter,
     pipeline.getFilter (pipeline.filters p) name = Some filter ->
     exists i st0,
       order !! i = Some (name, filter) /\
       pipeline.reached (string * nat) nat fixture.status order 0%nat !! i = Some st0 /\
       pipeline.StatusFilters result.1 !! name = Some (fixture.status filter st0).1) /\
  (forall name,
     pipeline.getFilter (pipeline.filters p) name = None ->
     pipeline.StatusFilters result.1 !! name = None) /\
  result.2 = fold_left (fun st e => (fixture.status e.2 st).2) order 0%nat.
Proof.
  intros a b p order.
  apply (@Status_gathers_filters fixture.registry (string * nat) nat fixture.status p order 0%nat).
  unfold pipeline.ranges, pipeline.entriesOf. cbn [pipeline.filters p fixture.holding].
  transitivity [("A", a); ("B", b)]; [apply perm_swap|].
  symmetry. apply map_to_list_to_map. cbn [fmap list_fmap fst].
    apply NoDup_cons. split; [|apply NoDup_singleton].
    intros Hin. apply list_elem_of_singleton in Hin. discriminate.
Defined.

Lemma Status_min_max_attained_witness :
  let ms := [fixture.metric 200 3000000; fixture.metric 503 9000000; fixture.metric 404 1000000] in
  let status := (httpstat.GetStatus (httpstat.StatAll ms httpstat.New)).1 in
  (exists m, m ∈ ms /\ httpstat.Max status = httpstat.durationOf m) /\
  (forall m, m ∈ ms -> httpstat.durationOf m <= httpstat.Max status) /\
  (0 < httpstat.Count status ->
   (exists m, m ∈ ms /\ httpstat.Min status = httpstat.durationOf m) /\
   (forall m, m ∈ ms -> httpstat.Min status <= httpstat.durationOf m)).
Proof.
  apply (Status_min_max_attained
           [fixture.metric 200 3000000; fixture.metric 503 9000000; fixture.metric 404 1000000]).
  discriminate.
Defined.

Lemma ErrCount_le_Count_witness :
  let ops := [httpstat.OpStat (fixture.metric 500 3000000); httpstat.OpStatus;
              httpstat.OpStat (fixture.metric 200 1000000)] in
  let status := (httpstat.GetStatus (httpstat.run ops httpstat.New)).1 in
  0 <= httpstat.ErrCount status <= httpstat.Count status.
Proof.
  apply (ErrCount_le_Count
           [httpstat.OpStat (fixture.metric 500 3000000); httpstat.OpStatus;
            httpstat.OpStat (fixture.metric 200 1000000)]).
  vm_compute. reflexivity.
Defined.

Lemma serializeStats_snoc_witness :
  let a := {| pipeline.statName := "A"; pipeline.statKind := "Silent";
              pipeline.statResult := ""; pipeline.statDuration := 7 |} in
  let b := {| pipeline.statName := "B"; pipeline.statKind := "Denier";
              pipeline.statResult := "deny"; pipeline.statDuration := 7 |} in
  pipeline.serializeStats ([a] ++ [b])
  = pipeline.serializeStats [a] +:+ "->" +:+ pipeline.entry b.
Proof.
  apply (@serializeStats_snoc fixture.runtime
           [{| pipeline.statName := "A"; pipeline.statKind := "Silent";
               pipeline.statResult := ""; pipeline.statDuration := 7 |}]
           {| pipeline.statName := "B"; pipeline.statKind := "Denier";
              pipeline.statResult := "deny"; pipeline.statDuration := 7 |}).
  discriminate.
Defined.

Lemma Handle_jump_to_missing_witness :
  let pre := [fixture.live "A" [] 0 "Silent"] in
  let node := fixture.live "B" [("skip", "A")] 1 "Skipper" in
  let rest := [fixture.live "C" [] 2 "Denier"] in
  pipeline.Handle (pre ++ node :: rest) fixture.request
  = pipeline.Handle (pre ++ [node]) fixture.request /\
  fst <$> pipeline.Handle (pre ++ node :: rest) fixture.request = Some "skip".
Proof.
  eapply (@Handle_jump_to_missing fixture.runtime [fixture.live "A" [] 0 "Silent"]
            [fixture.live "C" [] 2 "Denier"] (fixture.live "B" [("skip", "A")] 1 "Skipper")
            fixture.request _ {| pipeline.addr := 1; pipeline.Kind := "Skipper" |}
            "skip" "A").
  - vm_compute. reflexivity.
  - left. reflexivity.
  - vm_compute. discriminate.
  - reflexivity.
  - vm_compute. reflexivity.
  - discriminate.
  - vm_compute. reflexivity.
  - discriminate.
  - vm_compute. discriminate.
  - repeat constructor. vm_compute. discriminate.
Defined.
